(** * Buttercup server: audio chunking and transcript merging

    A shallow embedding of [server.py]: the transcription core (the
    size test and chunk arithmetic that [upload_transcribe] and
    [transcribe_video] share, their chunk loops, and the two formatters
    [convert_groq_to_youtube_format] and [merge_transcripts]), the
    request that [transcribe_audio_file] sends, the log filter
    [mask_sensitive_data], and the route [extract_playlist].

    Python numbers.  The source computes with Python [float]s (IEEE
    binary64) and unbounded [int]s.  What the source keeps as [int]
    ([audio_size], [chunk_duration], [num_chunks], [i], [start_time], the
    millisecond fields) is [Z] here; an [int] that meets a float is
    converted first ([of_int]), as Python does.  Floats are kept behind
    the interface [Float], which has two instances:
    - [exact]: rationals, every operation without rounding and none that
      can overflow;
    - [binary64]: Rocq's primitive floats, bit for bit what CPython
      computes.
    The code is embedded once, over any [Float].  Properties of its
    structure are proved over any [Float]; properties of its arithmetic
    are proved for [exact], and for [binary64] where rounding does not
    stand in the way (signs, adding zero, and the size test, evaluated on
    every size below its threshold); every concrete run is evaluated on
    both.  The two differ where binary64 rounds a product
    before [int] truncates it, see [binary64_rounds_before_int].

    Exceptions.  A run of the modelled code ends with a value or with the
    exception that the routes' handlers turn into an error response
    ([py]).  What a route does to the outside world (ffmpeg, the Groq API,
    chunk files) is recorded as a trace of actions ([io]); ffmpeg and the
    Groq API themselves are parameters of the routes.

    Python strings.  A [str] is a [string] whose characters are code
    points below 256. *)

From Stdlib Require Import ZArith QArith Qround Lia Bool List Sorted String Ascii
  DecimalString.
From Stdlib Require Import Uint63 Floats.
Import ListNotations.

Local Open Scope Z_scope.

(** ** Exceptions and the error monad *)

(** The exceptions the modelled code can raise. *)
Inductive exn : Type :=
| ZeroDivisionError            (* float division by zero *)
| OverflowError                (* cannot convert float infinity to integer *)
| ValueError                   (* cannot convert float NaN to integer *)
| FileNotFoundError            (* os.path.getsize on a missing chunk file *)
| TimeoutExpired               (* subprocess.TimeoutExpired *)
| Exception (msg : string).    (* raise Exception(...), and the Groq API error *)

(** A Python computation: a value, or an exception that ends it. *)
Inductive py (A : Type) : Type :=
| Ok (a : A)
| Raise (e : exn).

Arguments Ok {A} a.
Arguments Raise {A} e.

Definition bind {A B : Type} (m : py A) (k : A -> py B) : py B :=
  match m with
  | Ok a => k a
  | Raise e => Raise e
  end.

Declare Scope py_scope.
Delimit Scope py_scope with py.
Notation "x <- m ;; k" := (bind m (fun x => k))
  (at level 61, m at next level, right associativity) : py_scope.
Local Open Scope py_scope.

(** [for x in xs: body], the loop body updating the loop's variables [s];
    an exception in the body leaves the loop. *)
Fixpoint for_ {A S : Type} (xs : list A) (body : A -> S -> py S) (s : S) : py S :=
  match xs with
  | [] => Ok s
  | x :: xs' => s' <- body x s ;; for_ xs' body s'
  end.

(** [range(n)]: [0, 1, ..., n-1], empty when [n <= 0]. *)
Definition range (n : Z) : list Z := map Z.of_nat (seq 0 (Z.to_nat n)).

(** ** Python floats *)

Class Float (F : Type) : Type := {
  (** an [int] operand of a float operation, converted to [float] *)
  of_int : Z -> F;
  fadd : F -> F -> F;
  fsub : F -> F -> F;
  fmul : F -> F -> F;
  (** [a / b]: raises [ZeroDivisionError] when [b] is zero *)
  truediv : F -> F -> py F;
  (** [a < b] *)
  flt : F -> F -> bool;
  (** [math.floor], [math.ceil] and [int]: an [int], or an exception on
      an infinity or a NaN *)
  math_floor : F -> py Z;
  math_ceil : F -> py Z;
  py_int : F -> py Z
}.

(** *** Exact arithmetic *)

(** Truncation toward zero, what [int] does to a float. *)
Definition Qtrunc (x : Q) : Z := Z.quot (Qnum x) (Zpos (Qden x)).

Definition Qtruediv (a b : Q) : py Q :=
  if Qeq_bool b 0 then Raise ZeroDivisionError else Ok (a / b)%Q.

Definition Qltb (a b : Q) : bool := negb (Qle_bool b a).

#[export] Instance exact : Float Q := {
  of_int := inject_Z;
  fadd := Qplus;
  fsub := Qminus;
  fmul := Qmult;
  truediv := Qtruediv;
  flt := Qltb;
  math_floor := fun x => Ok (Qfloor x);
  math_ceil := fun x => Ok (Qceiling x);
  py_int := fun x => Ok (Qtrunc x)
}.

(** *** IEEE binary64 *)

(** Conversion of an [int], rounded to nearest even as CPython does.
    (CPython raises [OverflowError] beyond the largest float; here such an
    [int] becomes an infinity, which no modelled run reaches.) *)
Definition b64_of_int (z : Z) : float :=
  SF2Prim (binary_normalize prec emax z 0 false).

Definition b64_truediv (a b : float) : py float :=
  if PrimFloat.eqb b PrimFloat.zero then Raise ZeroDivisionError
  else Ok (PrimFloat.div a b).

(** The integer next to a finite float in the direction [pick] chooses
    from the signed mantissa [v] and the divisor [2^k]. *)
Definition b64_to_int (pick : Z -> Z -> Z) (x : float) : py Z :=
  match Prim2SF x with
  | S754_zero _ => Ok 0
  | S754_infinity _ => Raise OverflowError
  | S754_nan => Raise ValueError
  | S754_finite s m e =>
      let v := if s then Zneg m else Zpos m in
      if 0 <=? e then Ok (v * 2 ^ e) else Ok (pick v (2 ^ (- e)))
  end.

#[export] Instance binary64 : Float float := {
  of_int := b64_of_int;
  fadd := PrimFloat.add;
  fsub := PrimFloat.sub;
  fmul := PrimFloat.mul;
  truediv := b64_truediv;
  flt := PrimFloat.ltb;
  math_floor := b64_to_int Z.div;
  math_ceil := b64_to_int (fun v d => - ((- v) / d));
  py_int := b64_to_int Z.quot
}.

(** ** Data *)

(** One entry of the Groq response's ['segments'] list. *)
Record segment (F : Type) : Type := {
  seg_start : F;       (* segment['start'] *)
  seg_end : F;         (* segment['end'] *)
  seg_text : string    (* segment['text'] *)
}.

Arguments seg_start {F} _.
Arguments seg_end {F} _.
Arguments seg_text {F} _.

(** The Groq response, [response.json()]: each of the two keys the code
    looks at may be absent ([None]). *)
Record groq_result (F : Type) : Type := {
  r_segments : option (list (segment F));   (* 'segments' *)
  r_text : option string                    (* 'text' *)
}.

Arguments r_segments {F} _.
Arguments r_text {F} _.

(** An element of the list given to [merge_transcripts]:
    [{'result': chunk_result, 'startTime': start_time}].  [startTime] is
    carried as a float: the chunk loops pass their [int] [start_time],
    which Python converts where it meets a segment's start; where it meets
    only the [int] 1000 (a fragment with only its text) Python multiplies
    the [int]s, which gives the same milliseconds below 2^53. *)
Record item (F : Type) : Type := {
  result : groq_result F;
  startTime : F
}.

Arguments result {F} _.
Arguments startTime {F} _.

(** [{'utf8': text}] *)
Record seg : Type := { utf8 : string }.

(** A caption event in YouTube's format. *)
Record event : Type := {
  tStartMs : Z;
  dDurationMs : Z;
  segs : list seg
}.

(** [{'events': events}] *)
Record transcript : Type := { events : list event }.

(** ** The formatters *)

Section Formatters.

Context {F : Type} `{Float F}.

(** The dict appended for one segment by [convert_groq_to_youtube_format]. *)
Definition convert_segment (segment : segment F) : py event :=
  t <- py_int (fmul (seg_start segment) (of_int 1000)) ;;
  d <- py_int (fmul (fsub (seg_end segment) (seg_start segment)) (of_int 1000)) ;;
  Ok {| tStartMs := t; dDurationMs := d; segs := [{| utf8 := seg_text segment |}] |}.

Definition convert_groq_to_youtube_format (groq_result : groq_result F) : py transcript :=
  evs <-
    match r_segments groq_result, r_text groq_result with
    | Some ((_ :: _) as segments), _ =>
        (* 'segments' in groq_result and groq_result['segments'] *)
        for_ segments
             (fun segment events => e <- convert_segment segment ;; Ok (events ++ [e]))
             []
    | _, Some text =>
        (* elif 'text' in groq_result *)
        Ok [{| tStartMs := 0; dDurationMs := 5000; segs := [{| utf8 := text |}] |}]
    | _, None => Ok []
    end ;;
  Ok {| events := evs |}.

(** The dict appended for one segment by [merge_transcripts]. *)
Definition merge_segment (start_time : F) (segment : segment F) : py event :=
  t <- py_int (fmul (fadd (seg_start segment) start_time) (of_int 1000)) ;;
  d <- py_int (fmul (fsub (seg_end segment) (seg_start segment)) (of_int 1000)) ;;
  Ok {| tStartMs := t; dDurationMs := d; segs := [{| utf8 := seg_text segment |}] |}.

(** The body of [for item in transcripts]. *)
Definition merge_item (item : item F) (events : list event) : py (list event) :=
  let result := result item in
  let start_time := startTime item in
  match r_segments result, r_text result with
  | Some segments, _ =>
      (* 'segments' in result *)
      for_ segments
           (fun segment events => e <- merge_segment start_time segment ;; Ok (events ++ [e]))
           events
  | None, Some text =>
      (* elif 'text' in result *)
      t <- py_int (fmul start_time (of_int 1000)) ;;
      Ok (events ++ [{| tStartMs := t; dDurationMs := 5000; segs := [{| utf8 := text |}] |}])
  | None, None => Ok events
  end.

Definition merge_transcripts (transcripts : list (item F)) : py transcript :=
  evs <- for_ transcripts merge_item [] ;;
  Ok {| events := evs |}.

End Formatters.

(** ** Step 4 of both routes: is chunking needed, and with which chunks *)

Definition MAX_FILE_SIZE_MB : Z := 24.

Section Planning.

Context {F : Type} `{Float F}.

(** [audio_size_mb = audio_size / 1024 / 1024] *)
Definition audio_size_mb (audio_size : Z) : py F :=
  kb <- truediv (of_int audio_size) (of_int 1024) ;;
  truediv kb (of_int 1024).

(** The [else] branch, up to the loop (lines 261-263 and 653-655):
    [chunk_duration] and [num_chunks]. *)
Definition chunk_plan (audio_size_mb duration : F) : py (Z * Z) :=
  mb_per_second <- truediv audio_size_mb duration ;;
  q <- truediv (of_int MAX_FILE_SIZE_MB) mb_per_second ;;
  chunk_duration <- math_floor q ;;
  r <- truediv duration (of_int chunk_duration) ;;
  num_chunks <- math_ceil r ;;
  Ok (chunk_duration, num_chunks).

(** The decision both routes take with the same text (lines 251-263 and
    629-655): [None] is the single-file branch
    [if audio_size_mb < MAX_FILE_SIZE_MB], [Some (chunk_duration,
    num_chunks)] the chunking branch. *)
Definition plan (audio_size : Z) (duration : F) : py (option (Z * Z)) :=
  audio_size_mb <- audio_size_mb audio_size ;;
  if flt audio_size_mb (of_int MAX_FILE_SIZE_MB) then Ok None
  else p <- chunk_plan audio_size_mb duration ;; Ok (Some p).

End Planning.

(** ** The routes, from step 4 on *)

(** The audio files the routes hand to ffmpeg and to the Groq API. *)
Inductive path : Type :=
| audio_file                 (* the converted whole file *)
| chunk_file (i : Z).        (* f"{unique_id}_chunk_{i}" *)

(** What a route does to the outside world, in order. *)
Inductive action : Type :=
| ffmpeg_extract (i start_time chunk_duration : Z)
    (* ffmpeg -i audio_file -ss start_time -t chunk_duration -acodec copy chunk_file *)
| groq_transcribe (f : path)     (* transcribe_audio_file(f, ...) *)
| os_remove (f : path).          (* os.remove(f) *)

(** A computation with its trace of actions: the actions done, and the
    value or the exception they end with. *)
Definition io (A : Type) : Type := (list action * py A)%type.

Definition lift {A : Type} (m : py A) : io A := ([], m).

Definition act {A : Type} (a : action) (m : py A) : io A := ([a], m).

Definition io_bind {A B : Type} (m : io A) (k : A -> io B) : io B :=
  match m with
  | (t, Ok a) => let (t', r) := k a in (t ++ t', r)
  | (t, Raise e) => (t, Raise e)
  end.

Declare Scope io_scope.
Delimit Scope io_scope with io.
Notation "x <- m ;; k" := (io_bind m (fun x => k))
  (at level 61, m at next level, right associativity) : io_scope.

Fixpoint io_for {A S : Type} (xs : list A) (body : A -> S -> io S) (s : S) : io S :=
  match xs with
  | [] => lift (Ok s)
  | x :: xs' => (s' <- body x s ;; io_for xs' body s')%io
  end.

(** [f"Failed to create chunk {n}"] *)
Definition failed_to_create_chunk (n : Z) : string :=
  "Failed to create chunk " ++ DecimalString.NilZero.string_of_int (Z.to_int n).

Section Routes.

Context {F : Type} `{Float F}.

(** The outside world.  [ffmpeg i start_time chunk_duration] is the
    [subprocess.run] of the chunk command: [subprocess.TimeoutExpired],
    or whether [chunk_file i] exists afterwards.
    [transcribe_audio_file f] is the Groq call on [f] with the request's
    settings: the parsed response, or the exception it raised. *)
Variable ffmpeg : Z -> Z -> Z -> py bool.
Variable transcribe_audio_file : path -> py (groq_result F).

Local Open Scope io_scope.

(** The body of [for i in range(num_chunks)] in [transcribe_video]. *)
Definition transcribe_video_chunk (chunk_duration i : Z) (transcripts : list (item F))
  : io (list (item F)) :=
  let start_time := i * chunk_duration in
  created <- act (ffmpeg_extract i start_time chunk_duration)
                 (ffmpeg i start_time chunk_duration) ;;
  _ <- lift (if created : bool then Ok tt
             else Raise (Exception (failed_to_create_chunk (i + 1)))) ;;
  chunk_result <- act (groq_transcribe (chunk_file i))
                      (transcribe_audio_file (chunk_file i)) ;;
  let transcripts :=
    transcripts ++ [{| result := chunk_result; startTime := of_int start_time |}] in
  _ <- act (os_remove (chunk_file i)) (Ok tt) ;;
  lift (Ok transcripts).

(** [transcribe_video] from step 4: the value of ["transcript"] in the
    response, or the exception that the route's handlers turn into an
    error response. *)
Definition transcribe_video (audio_size : Z) (duration : F) : io transcript :=
  p <- lift (plan audio_size duration) ;;
  match p with
  | None =>
      groq_result <- act (groq_transcribe audio_file) (transcribe_audio_file audio_file) ;;
      lift (convert_groq_to_youtube_format groq_result)
  | Some (chunk_duration, num_chunks) =>
      transcripts <- io_for (range num_chunks) (transcribe_video_chunk chunk_duration) [] ;;
      lift (merge_transcripts transcripts)
  end.

(** The body of [for i in range(num_chunks)] in [upload_transcribe]:
    no test that the chunk exists, [os.path.getsize] fails on a missing
    one. *)
Definition upload_transcribe_chunk (chunk_duration i : Z) (transcripts : list (item F))
  : io (list (item F)) :=
  let start_time := i * chunk_duration in
  created <- act (ffmpeg_extract i start_time chunk_duration)
                 (ffmpeg i start_time chunk_duration) ;;
  _ <- lift (if created : bool then Ok tt else Raise FileNotFoundError) ;;
  chunk_result <- act (groq_transcribe (chunk_file i))
                      (transcribe_audio_file (chunk_file i)) ;;
  let transcripts :=
    transcripts ++ [{| result := chunk_result; startTime := of_int start_time |}] in
  _ <- act (os_remove (chunk_file i)) (Ok tt) ;;
  lift (Ok transcripts).

(** [upload_transcribe] from the size test on.  Its single-file branch
    returns the Groq response as it is ([inl]); only the chunking branch
    builds caption events ([inr]). *)
Definition upload_transcribe (audio_size : Z) (duration : F)
  : io (groq_result F + transcript) :=
  p <- lift (plan audio_size duration) ;;
  match p with
  | None =>
      transcript <- act (groq_transcribe audio_file) (transcribe_audio_file audio_file) ;;
      lift (Ok (inl transcript))
  | Some (chunk_duration, num_chunks) =>
      transcripts <- io_for (range num_chunks) (upload_transcribe_chunk chunk_duration) [] ;;
      transcript <- lift (merge_transcripts transcripts) ;;
      lift (Ok (inr transcript))
  end.

End Routes.

(** ** [mask_sensitive_data] *)

(** The text is a [str] whose characters are code points below 256
    (Latin-1), one [ascii] each.  For such a text the two patterns are
    embedded exactly: among these characters [re.IGNORECASE] adds only
    the ASCII capitals to the letters of [api] and [key], and [\s] is
    the class [is_space]. *)

Section MaskingText.

Local Open Scope string_scope.
Local Open Scope nat_scope.

(** [[a-zA-Z0-9]] *)
Definition is_alnum (c : ascii) : bool :=
  let n := nat_of_ascii c in
  ((48 <=? n) && (n <=? 57)) || ((65 <=? n) && (n <=? 90)) || ((97 <=? n) && (n <=? 122)).

(** [\s] of a [str] pattern, among the characters below 256: tab to
    carriage return, the separators 28 to 31, the space, NEL and the
    no-break space. *)
Definition is_space (c : ascii) : bool :=
  let n := nat_of_ascii c in
  ((9 <=? n) && (n <=? 13)) || ((28 <=? n) && (n <=? 32)) || (n =? 133) || (n =? 160).

(** The lower case of an ASCII letter. *)
Definition to_lower (c : ascii) : ascii :=
  let n := nat_of_ascii c in
  if (65 <=? n) && (n <=? 90) then ascii_of_nat (n + 32) else c.

(** What follows the literal [p] at the start of [s]. *)
Fixpoint skip_literal (p s : string) : option string :=
  match p, s with
  | "", _ => Some s
  | String a p', String c s' => if (c =? a)%char then skip_literal p' s' else None
  | String _ _, "" => None
  end.

(** The same with [re.IGNORECASE], for a literal [p] in lower case. *)
Fixpoint skip_literal_ignorecase (p s : string) : option string :=
  match p, s with
  | "", _ => Some s
  | String a p', String c s' =>
      if (to_lower c =? a)%char then skip_literal_ignorecase p' s' else None
  | String _ _, "" => None
  end.

(** How many characters at the start of [s] are in the class [f]: what a
    greedy [[...]+] takes when nothing follows it in the pattern. *)
Fixpoint run_length (f : ascii -> bool) (s : string) : nat :=
  match s with
  | String c s' => if f c then S (run_length f s') else 0
  | "" => 0
  end.

Definition MASKED : string := "***MASKED***".

(** A match of [r'(groqApiKey=)gsk_[a-zA-Z0-9]+'] at the start of [s]:
    its replacement [r'\1***MASKED***'] and its length. *)
Definition match_groq_key (s : string) : option (string * nat) :=
  match skip_literal "groqApiKey=gsk_" s with
  | Some key =>
      let n := run_length is_alnum key in
      if n =? 0 then None else Some ("groqApiKey=" ++ MASKED, 15 + n)
  | None => None
  end.

(** [[&?]] *)
Definition is_separator (c : ascii) : bool := (c =? "&")%char || (c =? "?")%char.

(** [[_-]] *)
Definition is_joiner (c : ascii) : bool := (c =? "_")%char || (c =? "-")%char.

(** [[^&\s]] *)
Definition is_value_char (c : ascii) : bool := negb ((c =? "&")%char || is_space c).

(** A match of [r'([&?]api[_-]?key=)[^&\s]+'] with [re.IGNORECASE] at the
    start of [s]: its replacement [r'\1***MASKED***'] and its length. *)
Definition match_api_key (s : string) : option (string * nat) :=
  match s with
  | String c s0 =>
      if is_separator c then
        match skip_literal_ignorecase "api" s0 with
        | Some s1 =>
            let s2 := match s1 with
                      | String j s' => if is_joiner j then s' else s1
                      | "" => s1
                      end in
            match skip_literal_ignorecase "key=" s2 with
            | Some value =>
                let n := run_length is_value_char value in
                let group1 := String.length s - String.length value in
                if n =? 0 then None
                else Some (substring 0 group1 s ++ MASKED, group1 + n)
            | None => None
            end
        | None => None
        end
      else None
  | "" => None
  end.

(** [re.sub] with a pattern that matches no empty string.  The text is
    read from the left: where a match starts ([match_at] gives its
    replacement and its length) the replacement is written and the
    characters of the match are skipped; a character where none starts is
    copied. *)
Fixpoint re_sub_from (match_at : string -> option (string * nat)) (skip : nat) (s : string)
  : string :=
  match s with
  | "" => ""
  | String c s' =>
      match skip with
      | S skip' => re_sub_from match_at skip' s'
      | 0 =>
          match match_at s with
          | Some (replacement, matched) =>
              replacement ++ re_sub_from match_at (Nat.pred matched) s'
          | None => String c (re_sub_from match_at 0 s')
          end
      end
  end.

Definition re_sub (match_at : string -> option (string * nat)) (s : string) : string :=
  re_sub_from match_at 0 s.

Definition mask_sensitive_data (text : string) : string :=
  if (text =? "")%string then text
  else
    let text := re_sub match_groq_key text in
    let text := re_sub match_api_key text in
    text.

End MaskingText.

(** ** [transcribe_audio_file]: the request *)

(** A [dict] of form fields, in the order of insertion. *)
Definition form : Type := list (string * string).

(** [data[key] = value] *)
Fixpoint form_set (data : form) (key value : string) : form :=
  match data with
  | [] => [(key, value)]
  | (k, v) :: data' =>
      if (k =? key)%string then (k, value) :: data' else (k, v) :: form_set data' key value
  end.

(** [del data[key]], for a key that [data] has. *)
Fixpoint form_del (data : form) (key : string) : form :=
  match data with
  | [] => []
  | (k, v) :: data' => if (k =? key)%string then data' else (k, v) :: form_del data' key
  end.

Section Stripping.

Local Open Scope string_scope.

(** [str.lstrip], [str.rstrip] and [str.strip], of white space. *)
Fixpoint lstrip (s : string) : string :=
  match s with
  | String c s' => if is_space c then lstrip s' else s
  | "" => ""
  end.

Fixpoint rstrip (s : string) : string :=
  match s with
  | String c s' =>
      match rstrip s' with
      | "" => if is_space c then "" else String c ""
      | r => String c r
      end
  | "" => ""
  end.

Definition strip (s : string) : string := rstrip (lstrip s).

End Stripping.

(** What [requests.post] is given. *)
Record groq_request : Type := {
  request_url : string;
  authorization : string;              (* headers['Authorization'] *)
  request_data : form                  (* data, a dict or a list of pairs *)
}.

(** The fields of the response that the function reads. *)
Record http_response (A : Type) : Type := {
  status_code : Z;
  response_text : string;              (* response.text *)
  response_json : A                    (* response.json() *)
}.

Arguments status_code {A} _.
Arguments response_text {A} _.
Arguments response_json {A} _.

Section TranscribeAudioFile.

Local Open Scope string_scope.

(** The request that [transcribe_audio_file] builds from its
    arguments. *)
Definition groq_request_of (api_key model language temperature response_format prompt : string)
           (use_word_timestamps translate : bool) : groq_request :=
  let url :=
    if translate then "https://api.groq.com/openai/v1/audio/translations"
    else "https://api.groq.com/openai/v1/audio/transcriptions" in
  let data := [("model", model); ("response_format", response_format);
               ("temperature", temperature)] in
  let data :=
    if negb (language =? "") && negb (language =? "auto")
    then form_set data "language" language else data in
  let data :=
    if negb (prompt =? "") && negb (strip prompt =? "")
    then form_set data "prompt" (strip prompt) else data in
  let data :=
    if response_format =? "verbose_json" then
      let data := form_set data "timestamp_granularities[]" "segment" in
      if use_word_timestamps then form_del data "timestamp_granularities[]" else data
    else data in
  let data :=
    if (response_format =? "verbose_json") && use_word_timestamps then
      (data ++ [("timestamp_granularities[]", "segment");
                ("timestamp_granularities[]", "word")])%list
    else data in
  {| request_url := url; authorization := "Bearer " ++ api_key; request_data := data |}.

(** [transcribe_audio_file], with [requests.post] as [post]. *)
Definition transcribe_audio_file_with {A : Type}
           (post : groq_request -> py (http_response A))
           (api_key model language temperature response_format prompt : string)
           (use_word_timestamps translate : bool) : py A :=
  (response <- post (groq_request_of api_key model language temperature response_format
                                     prompt use_word_timestamps translate) ;;
   if negb (status_code response =? 200)%Z then
     Raise (Exception ("Groq API error ("
                       ++ DecimalString.NilZero.string_of_int (Z.to_int (status_code response))
                       ++ "): " ++ response_text response))
   else Ok (response_json response))%py.

End TranscribeAudioFile.

(** ** [extract_playlist] *)

(** A value that yt-dlp stores under a key the route reads: [None], a
    boolean, an integer or a string. *)
Inductive value : Type :=
| VNone
| VBool (b : bool)
| VInt (n : Z)
| VStr (s : string).

(** A [dict] with string keys: its items. *)
Definition dict : Type := list (string * value).

(** The value under [key], when [d] has the key. *)
Fixpoint lookup (d : dict) (key : string) : option value :=
  match d with
  | [] => None
  | (k, v) :: d' => if (k =? key)%string then Some v else lookup d' key
  end.

(** [d.get(key, default)] *)
Definition get (d : dict) (key : string) (default : value) : value :=
  match lookup d key with
  | Some v => v
  | None => default
  end.

(** The truth value of [v], in [if v], [not v], [v or w]. *)
Definition truthy (v : value) : bool :=
  match v with
  | VNone => false
  | VBool b => b
  | VInt n => negb (n =? 0)
  | VStr s => negb (s =? "")%string
  end.

(** [a or b] *)
Definition py_or (a b : value) : value := if truthy a then a else b.

(** [str(v)], as an f-string renders [v]. *)
Definition py_str (v : value) : string :=
  match v with
  | VNone => "None"
  | VBool true => "True"
  | VBool false => "False"
  | VInt n => DecimalString.NilZero.string_of_int (Z.to_int n)
  | VStr s => s
  end.

(** [str.lower] of a character below 256: the ASCII capitals and the
    Latin-1 capitals (192 to 222 without the multiplication sign). *)
Definition lower_char (c : ascii) : ascii :=
  let n := nat_of_ascii c in
  if ((65 <=? n) && (n <=? 90) || (192 <=? n) && (n <=? 222) && negb (n =? 215))%nat
  then ascii_of_nat (n + 32)
  else c.

Fixpoint lower (s : string) : string :=
  match s with
  | String c s' => String (lower_char c) (lower s')
  | EmptyString => EmptyString
  end.

(** [needle in haystack], for two strings. *)
Fixpoint contains (needle haystack : string) : bool :=
  prefix needle haystack
  || match haystack with
     | String _ rest => contains needle rest
     | EmptyString => false
     end.

(** What [ydl.extract_info(playlist_url, download=False)] returns: the
    items of [info] other than ['entries'], and what is under
    ['entries'] (the key may be missing, or hold [None], or the list of
    the entries, each [None] or a [dict]). *)
Record playlist_info : Type := {
  info_fields : dict;
  info_entries : option (option (list (option dict)))
}.

(** The exceptions of [extract_info] that the route tells apart. *)
Inductive extract_error : Type :=
| DownloadError        (* yt_dlp.utils.DownloadError *)
| KeyError
| OtherException.

(** A call of [extract_info]: the exception it raises with its message
    [str(e)], or the [info] it returns ([None] on a failure that
    ['ignoreerrors'] swallowed). *)
Inductive extraction : Type :=
| Raises (e : extract_error) (message : string)
| Extracted (info : option playlist_info).

(** An element of ['videos']. *)
Record video_info : Type := {
  video_url : value;         (* 'url' *)
  video_title : value;       (* 'title' *)
  video_duration : value;    (* 'duration' *)
  video_id : value           (* 'id' *)
}.

Record playlist_result : Type := {
  playlist_title : value;
  playlist_url : string;
  video_count : Z;
  videos : list video_info;
  platform : value
}.

(** The answer of the route: [jsonify(result), 200], or
    [jsonify({"error": error}), status]. *)
Inductive playlist_response : Type :=
| playlist_success (result : playlist_result)
| playlist_failure (status : Z) (error : string).

Section ExtractPlaylist.

Local Open Scope string_scope.

(** The [try] block of the loop over the entries, for an entry that is
    a [dict]: the [video_info] appended, or [None] when the entry is
    skipped ([continue], also in the [except] clause). *)
Definition entry_video (info entry : dict) : option video_info :=
  let video_id := get entry "id" VNone in
  let video_url := py_or (get entry "url" VNone) (get entry "webpage_url" VNone) in
  let video_url :=
    if negb (truthy video_url) && truthy video_id then
      match get info "extractor" (VStr "") with
      | VStr extractor =>
          if contains "youtube" (lower extractor)
          then Some (VStr ("https://www.youtube.com/watch?v=" ++ py_str video_id))
          else Some (get entry "ie_key" video_id)
      | _ => None   (* AttributeError on .lower(): the except clause skips the entry *)
      end
    else Some video_url in
  match video_url with
  | Some video_url =>
      if negb (truthy video_url) then None
      else Some {| video_url := video_url;
                   video_title := get entry "title" (VStr "Unknown Title");
                   video_duration := get entry "duration" (VInt 0);
                   video_id := video_id |}
  | None => None
  end.

(** [for i, entry in enumerate(info['entries'])]: the list [videos]
    after the loop. *)
Definition playlist_videos (info : dict) (entries : list (option dict)) : list video_info :=
  fold_left
    (fun videos entry =>
       match entry with
       | None => videos                             (* entry is None: continue *)
       | Some entry =>
           match entry_video info entry with
           | Some video_info => (videos ++ [video_info])%list
           | None => videos
           end
       end)
    entries [].

(** [not info], for the [info] that [extract_info] returned: [None] or
    an empty [dict]. *)
Definition no_info (info : option playlist_info) : bool :=
  match info with
  | None => true
  | Some {| info_fields := []; info_entries := None |} => true
  | Some _ => false
  end.

(** The route, with [request.args.get('url')] and yt-dlp's
    [extract_info] as its inputs. *)
Definition extract_playlist (playlist_url : option string)
           (extract_info : string -> extraction) : playlist_response :=
  match playlist_url with
  | None | Some "" => playlist_failure 400 "URL parameter is required"
  | Some playlist_url =>
      match extract_info playlist_url with
      | Raises DownloadError message =>
          playlist_failure 500 ("Failed to extract playlist: " ++ message)
      | Raises KeyError message =>
          playlist_failure 500 ("Playlist structure error: " ++ message)
      | Raises OtherException message =>
          playlist_failure 500 ("An error occurred: " ++ message)
      | Extracted info =>
          if no_info info then
            playlist_failure 500 "Failed to extract playlist information"
          else
            match info with
            | Some {| info_fields := fields; info_entries := Some (Some entries) |} =>
                let videos := playlist_videos fields entries in
                playlist_success
                  {| playlist_title := get fields "title" (VStr "Unknown Playlist");
                     playlist_url := playlist_url;
                     video_count := Z.of_nat (List.length videos);
                     videos := videos;
                     platform := get fields "extractor" (VStr "unknown") |}
            | Some {| info_entries := Some None |} =>
                (* enumerate(None) raises TypeError *)
                playlist_failure
                  500 "An error occurred: 'NoneType' object is not iterable"
            | _ =>
                (* 'entries' not in info *)
                playlist_failure 400 "URL does not appear to be a playlist"
            end
      end
  end.

End ExtractPlaylist.

(** * The vocabulary of the properties *)

(** [audio_size / 1024 / 1024] in exact arithmetic. *)
Definition megabytes (audio_size : Z) : Q := (inject_Z audio_size / 1024 / 1024)%Q.

(** Rounding to the nearest integer, a half going up: the [round] of the
    specification.  No value it is applied to below is a tie, so every
    round-to-nearest agrees on them. *)
Definition round_nearest (x : Q) : Z := Qfloor (x + (1 # 2)).

(** ** [merge_transcripts] in exact arithmetic, in closed form *)

(** The event of one segment of a fragment that starts at [start_time]. *)
Definition segment_event (start_time : Q) (s : segment Q) : event :=
  {| tStartMs := Qtrunc ((seg_start s + start_time) * inject_Z 1000);
     dDurationMs := Qtrunc ((seg_end s - seg_start s) * inject_Z 1000);
     segs := [{| utf8 := seg_text s |}] |}.

(** The event of a fragment that has only its text. *)
Definition text_event (start_time : Q) (text : string) : event :=
  {| tStartMs := Qtrunc (start_time * inject_Z 1000);
     dDurationMs := 5000;
     segs := [{| utf8 := text |}] |}.

(** The events of one fragment. *)
Definition item_events (it : item Q) : list event :=
  match r_segments (result it), r_text (result it) with
  | Some segments, _ => map (segment_event (startTime it)) segments
  | None, Some text => [text_event (startTime it) text]
  | None, None => []
  end.

(** ** The sources of events *)


(** The texts a fragment is a source of: those of its segments when it
    carries the ['segments'] key, else its whole text when it has one. *)
Definition item_texts {F : Type} (it : item F) : list string :=
  match r_segments (result it), r_text (result it) with
  | Some segments, _ => map seg_text segments
  | None, Some text => [text]
  | None, None => []
  end.

(** How many events a fragment is a source of. *)
Definition item_sources {F : Type} (it : item F) : nat :=
  match r_segments (result it), r_text (result it) with
  | Some segments, _ => List.length segments
  | None, Some _ => 1
  | None, None => 0
  end.

(** ** The order of the input *)




(** ** Signs in binary64 *)

(** Below zero: a negative float or -infinity (not -0.0, not a NaN). *)
Definition SF_negative (x : spec_float) : bool :=
  match x with
  | S754_finite true _ _ | S754_infinity true => true
  | _ => false
  end.

Definition SF_is_zero (x : spec_float) : bool :=
  match x with
  | S754_zero _ => true
  | _ => false
  end.

(** ** The size test in binary64, on every size below the threshold *)

(** The size test of one file size, on primitive integers. *)
Definition b64_below_max (n : Uint63.int) : bool :=
  PrimFloat.ltb
    (PrimFloat.div (PrimFloat.div (PrimFloat.of_uint63 n) 1024%float) 1024%float)
    24%float.

(** The size test of every file size whose binary digits start with
    [prefix] and go on with [k] more. *)
Fixpoint b64_all_below_max (k : nat) (prefix : Uint63.int) : bool :=
  match k with
  | O => b64_below_max prefix
  | S k' =>
      b64_all_below_max k' (Uint63.add prefix prefix)
      && b64_all_below_max k' (Uint63.add (Uint63.add prefix prefix) 1%uint63)
  end.

(** ** The outside world *)

(** What one iteration of a chunk loop does to the world when nothing
    fails. *)
Definition chunk_actions (chunk_duration i : Z) : list action :=
  [ffmpeg_extract i (i * chunk_duration) chunk_duration;
   groq_transcribe (chunk_file i);
   os_remove (chunk_file i)].

(** A world where every ffmpeg call leaves its chunk and every Groq call
    answers with a text. *)
Definition ffmpeg_succeeds : Z -> Z -> Z -> py bool := fun _ _ _ => Ok true.

Definition groq_answers_text {F : Type} : path -> py (groq_result F) :=
  fun _ => Ok {| r_segments := None; r_text := Some "text"%string |}.

(** ** Fragments and their events *)

(** Whether [merge_transcripts] appends an event for the fragment: it has
    a segment, or it has no ['segments'] key and a text. *)
Definition has_events {F : Type} (it : item F) : bool :=
  match r_segments (result it), r_text (result it) with
  | Some (_ :: _), _ => true
  | Some [], _ => false
  | None, Some _ => true
  | None, None => false
  end.





(** ** The chunk loops in any world *)

(** What an action of a chunk loop needs to have happened before it in
    the iteration of its chunk. *)
Definition chunk_action_allowed {F : Type}
           (ffmpeg : Z -> Z -> Z -> py bool) (transcribe_audio_file : path -> py (groq_result F))
           (chunk_duration num_chunks : Z) (a : action) : Prop :=
  exists i,
    0 <= i < num_chunks
    /\ (a = ffmpeg_extract i (i * chunk_duration) chunk_duration
        \/ (a = groq_transcribe (chunk_file i)
            /\ ffmpeg i (i * chunk_duration) chunk_duration = Ok true)
        \/ (a = os_remove (chunk_file i)
            /\ ffmpeg i (i * chunk_duration) chunk_duration = Ok true
            /\ exists r, transcribe_audio_file (chunk_file i) = Ok r)).


(** ** Texts *)

Section TextVocabulary.

Local Open Scope string_scope.
Local Open Scope nat_scope.

(** Every character of [s] is in the class [f]. *)
Fixpoint all_in (f : ascii -> bool) (s : string) : bool :=
  match s with
  | String c s' => f c && all_in f s'
  | "" => true
  end.

(** [s] does not go on with a character of the class [f]: it is empty
    or starts with a character outside [f]. *)
Definition ends_run (f : ascii -> bool) (s : string) : bool :=
  match s with
  | String c _ => negb (f c)
  | "" => true
  end.

(** The characters a match of the Groq key pattern is made of. *)
Definition is_groq_key_char (c : ascii) : bool :=
  is_alnum c || (c =? "=")%char || (c =? "_")%char.

(** [s] with its ASCII letters in lower case. *)
Fixpoint ascii_lower (s : string) : string :=
  match s with
  | String c s' => String (to_lower c) (ascii_lower s')
  | "" => ""
  end.

(** [c] is not the character [x]. *)
Definition is_not (x c : ascii) : bool := negb (c =? x)%char.

(** No match of the Groq key pattern starts anywhere in [s]. *)
Fixpoint no_groq_key (s : string) : bool :=
  match s with
  | String c s' =>
      match match_groq_key s with
      | Some _ => false
      | None => no_groq_key s'
      end
  | "" => true
  end.

End TextVocabulary.

(** ** Forms and playlists *)

(** The values that a form sends under [key], in order. *)
Definition sent_under (key : string) (data : form) : list string :=
  map snd (filter (fun field => (fst field =? key)%string) data).

(** What an entry adds to ['videos']. *)
Definition entry_videos (info : dict) (entry : option dict) : list video_info :=
  match entry with
  | Some entry =>
      match entry_video info entry with
      | Some video_info => [video_info]
      | None => []
      end
  | None => []
  end.

(** The URL that an entry comes with: [entry.get('url') or
    entry.get('webpage_url')]. *)
Definition entry_url (entry : dict) : value :=
  py_or (get entry "url" VNone) (get entry "webpage_url" VNone).

(** * Properties *)

(** ** Sample runs *)

Example convert_two_segments :
  convert_groq_to_youtube_format (F := float)
    {| r_segments := Some [{| seg_start := 1.5%float; seg_end := 5%float; seg_text := "a" |};
                           {| seg_start := 5%float; seg_end := 7.25%float; seg_text := "b" |}];
       r_text := Some "a b"%string |}
  = Ok {| events := [{| tStartMs := 1500; dDurationMs := 3500; segs := [{| utf8 := "a" |}] |};
                     {| tStartMs := 5000; dDurationMs := 2250; segs := [{| utf8 := "b" |}] |}] |}.
Proof. vm_compute. reflexivity. Qed.

(** Two fragments, the second at offset 30: its segment comes out shifted
    by 30000 ms. *)
Example merge_shifts_by_offset :
  merge_transcripts (F := float)
    [{| result := {| r_segments := Some [{| seg_start := 0%float; seg_end := 30%float;
                                            seg_text := "a" |}];
                     r_text := None |};
        startTime := of_int 0 |};
     {| result := {| r_segments := Some [{| seg_start := 0%float; seg_end := 4%float;
                                            seg_text := "b" |}];
                     r_text := None |};
        startTime := of_int 30 |}]
  = Ok {| events := [{| tStartMs := 0; dDurationMs := 30000; segs := [{| utf8 := "a" |}] |};
                     {| tStartMs := 30000; dDurationMs := 4000;
                        segs := [{| utf8 := "b" |}] |}] |}.
Proof. vm_compute. reflexivity. Qed.

(** Where the two arithmetics part: 1.001 s is 1001 ms, and binary64's
    [1.001 * 1000] is a float just below 1001, which [int] truncates to
    1000. *)
Example binary64_rounds_before_int :
  merge_transcripts (F := Q)
    [{| result := {| r_segments := Some [{| seg_start := (1001 # 1000)%Q; seg_end := 5%Q;
                                            seg_text := "hi" |}];
                     r_text := None |};
        startTime := 0%Q |}]
  = Ok {| events := [{| tStartMs := 1001; dDurationMs := 3999;
                        segs := [{| utf8 := "hi" |}] |}] |}
  /\ merge_transcripts (F := float)
       [{| result := {| r_segments := Some [{| seg_start := PrimFloat.div 1001 1000;
                                               seg_end := 5%float;
                                               seg_text := "hi" |}];
                        r_text := None |};
           startTime := 0%float |}]
     = Ok {| events := [{| tStartMs := 1000; dDurationMs := 3999;
                           segs := [{| utf8 := "hi" |}] |}] |}.
Proof. split; vm_compute; reflexivity. Qed.

(** [transcribe_video] stops at the first chunk ffmpeg leaves missing;
    [upload_transcribe] fails there when it asks for the chunk's size. *)
Example second_chunk_missing :
  transcribe_video (F := float) (fun i _ _ => Ok (i <? 1)) groq_answers_text
                   52428800 600%float
  = ([ffmpeg_extract 0 0 288; groq_transcribe (chunk_file 0); os_remove (chunk_file 0);
      ffmpeg_extract 1 288 288],
     Raise (Exception "Failed to create chunk 2"))
  /\ upload_transcribe (F := float) (fun i _ _ => Ok (i <? 1)) groq_answers_text
                       52428800 600%float
     = ([ffmpeg_extract 0 0 288; groq_transcribe (chunk_file 0); os_remove (chunk_file 0);
         ffmpeg_extract 1 288 288],
        Raise FileNotFoundError).
Proof. split; vm_compute; reflexivity. Qed.

(** The size test at its threshold: one byte under 24 MB is sent whole,
    24 MB is chunked. *)
Example threshold :
  plan (F := float) 25165823 600%float = Ok None
  /\ plan (F := float) 25165824 600%float = Ok (Some (600, 1)).
Proof. split; vm_compute; reflexivity. Qed.

(** ** Exact arithmetic: truncation *)

Lemma Qtrunc_nonneg (x : Q) : (0 <= x)%Q -> Qtrunc x = Qfloor x.
Proof.
  destruct x as [n d]. unfold Qle, Qtrunc, Qfloor. simpl. intros Hn.
  apply Z.quot_div_nonneg; lia.
Qed.

Lemma Qtrunc_nonpos (x : Q) : (x <= 0)%Q -> Qtrunc x = Qceiling x.
Proof.
  destruct x as [n d]. unfold Qle, Qtrunc, Qceiling, Qfloor. simpl. intros Hn.
  rewrite <- (Z.opp_involutive n) at 1.
  rewrite Z.quot_opp_l by lia.
  rewrite Z.quot_div_nonneg by lia. reflexivity.
Qed.

Lemma Qtrunc_comp (x y : Q) : (x == y)%Q -> Qtrunc x = Qtrunc y.
Proof.
  intros Hxy. destruct (Qlt_le_dec x 0) as [Hx | Hx].
  - rewrite !Qtrunc_nonpos.
    + now rewrite Hxy.
    + rewrite <- Hxy. now apply Qlt_le_weak.
    + now apply Qlt_le_weak.
  - rewrite !Qtrunc_nonneg.
    + now rewrite Hxy.
    + now rewrite <- Hxy.
    + assumption.
Qed.


(** ** Loops that only append *)

Lemma for_append {A E : Type} (f : A -> py E) (g : A -> E) (xs : list A) :
  (forall x, f x = Ok (g x)) ->
  forall acc,
    for_ xs (fun x acc => e <- f x ;; Ok (acc ++ [e])) acc = Ok (acc ++ map g xs).
Proof.
  intros Hf. induction xs as [ | x xs IH ]; intros acc; simpl.
  - now rewrite app_nil_r.
  - rewrite Hf. simpl. rewrite IH, <- app_assoc. reflexivity.
Qed.

(** What such a loop has appended when it ends without an exception. *)
Lemma for_append_inv {A E : Type} (f : A -> py E) (xs : list A) :
  forall acc out,
    for_ xs (fun x acc => e <- f x ;; Ok (acc ++ [e])) acc = Ok out ->
    exists es, out = acc ++ es /\ Forall2 (fun x e => f x = Ok e) xs es.
Proof.
  induction xs as [ | x xs IH ]; intros acc out; simpl.
  - intros Heq. injection Heq as <-. exists []. now rewrite app_nil_r.
  - destruct (f x) as [ e | err ] eqn:Hfx; simpl; [ | discriminate ].
    intros Hrest. apply IH in Hrest. destruct Hrest as [es [-> Hes]].
    exists (e :: es). rewrite <- app_assoc. split; [ reflexivity | now constructor ].
Qed.

Lemma for_append_intro {A E : Type} (f : A -> py E) (xs : list A) (es : list E) :
  Forall2 (fun x e => f x = Ok e) xs es ->
  forall acc, for_ xs (fun x acc => e <- f x ;; Ok (acc ++ [e])) acc = Ok (acc ++ es).
Proof.
  induction 1 as [ | x e xs es Hfx _ IH ]; intros acc; simpl.
  - now rewrite app_nil_r.
  - rewrite Hfx. simpl. rewrite IH, <- app_assoc. reflexivity.
Qed.

Lemma for_app {A S : Type} (body : A -> S -> py S) (xs ys : list A) :
  forall s, for_ (xs ++ ys) body s = (s' <- for_ xs body s ;; for_ ys body s').
Proof.
  induction xs as [ | x xs IH ]; intros s; simpl; [ reflexivity | ].
  destruct (body x s); simpl; [ apply IH | reflexivity ].
Qed.

Lemma for_ext {A S : Type} (f g : A -> S -> py S) (xs : list A) :
  (forall x s, f x s = g x s) -> forall s, for_ xs f s = for_ xs g s.
Proof.
  intros Hfg. induction xs as [ | x xs IH ]; intros s; simpl; [ reflexivity | ].
  rewrite Hfg. destruct (g x s); simpl; [ apply IH | reflexivity ].
Qed.

(** ** [merge_transcripts] on any floats *)

Section AnyFloats.

Context {F : Type} `{Float F}.

Lemma merge_segment_text (start_time : F) (s : segment F) (e : event) :
  merge_segment start_time s = Ok e -> segs e = [{| utf8 := seg_text s |}].
Proof.
  unfold merge_segment.
  destruct (py_int _) as [ t | ]; simpl; [ | discriminate ].
  destruct (py_int _) as [ d | ]; simpl; [ | discriminate ].
  intros Heq. now injection Heq as <-.
Qed.

Lemma merge_segment_inv (start_time : F) (s : segment F) (e : event) :
  merge_segment start_time s = Ok e ->
  exists t d,
    py_int (fmul (fadd (seg_start s) start_time) (of_int 1000)) = Ok t
    /\ py_int (fmul (fsub (seg_end s) (seg_start s)) (of_int 1000)) = Ok d
    /\ e = {| tStartMs := t; dDurationMs := d; segs := [{| utf8 := seg_text s |}] |}.
Proof.
  unfold merge_segment.
  destruct (py_int _) as [ t | ]; simpl; [ | discriminate ].
  destruct (py_int _) as [ d | ]; simpl; [ | discriminate ].
  intros Heq. injection Heq as <-. exists t, d. now repeat split.
Qed.

(** [merge_item] only appends, and what it appends does not depend on the
    events before. *)
Lemma merge_item_appends (it : item F) (evs out : list event) :
  merge_item it evs = Ok out
  <-> exists es, merge_item it [] = Ok es /\ out = evs ++ es.
Proof.
  unfold merge_item.
  destruct (r_segments (result it)) as [ segments | ]; [ | destruct (r_text (result it)) ].
  - split.
    + intros Hloop. apply for_append_inv in Hloop. destruct Hloop as [es [-> Hes]].
      exists es. split; [ | reflexivity ].
      now rewrite (for_append_intro _ _ _ Hes).
    + intros [es [Hloop ->]]. apply for_append_inv in Hloop.
      destruct Hloop as [es' [-> Hes]]. now rewrite (for_append_intro _ _ _ Hes).
  - destruct (py_int _) as [ t | ]; simpl.
    + split.
      * intros Heq. injection Heq as <-. eexists. split; reflexivity.
      * intros [es [Heq ->]]. now injection Heq as <-.
    + split; [ discriminate | ]. intros [es [Heq _]]. discriminate.
  - split.
    + intros Heq. injection Heq as <-. exists []. now rewrite app_nil_r.
    + intros [es [Heq ->]]. injection Heq as <-. now rewrite app_nil_r.
Qed.

Lemma for_merge_item_appends (its : list (item F)) :
  forall evs out,
    for_ its merge_item evs = Ok out
    <-> exists es, for_ its merge_item [] = Ok es /\ out = evs ++ es.
Proof.
  induction its as [ | it its IH ]; intros evs out; simpl.
  - split.
    + intros Heq. injection Heq as <-. exists []. now rewrite app_nil_r.
    + intros [es [Heq ->]]. injection Heq as <-. now rewrite app_nil_r.
  - split.
    + destruct (merge_item it evs) as [ mid | ] eqn:Hit; simpl; [ | discriminate ].
      intros Hrest. apply merge_item_appends in Hit. destruct Hit as [es1 [Hit ->]].
      apply IH in Hrest. destruct Hrest as [es2 [Hrest ->]].
      exists (es1 ++ es2). rewrite Hit. simpl. split; [ | now rewrite app_assoc ].
      apply IH. exists es2. now split.
    + intros [es [Hloop ->]].
      destruct (merge_item it []) as [ es1 | ] eqn:Hit; simpl in Hloop; [ | discriminate ].
      apply IH in Hloop. destruct Hloop as [es2 [Hrest ->]].
      rewrite (proj2 (merge_item_appends it evs (evs ++ es1)))
        by (exists es1; now split).
      simpl. apply IH. exists es2. split; [ assumption | ].
      simpl. now rewrite app_assoc.
Qed.

(** The events of a list of fragments are those of the fragments before
    one of them, then that fragment's, then those of the fragments after. *)
Lemma merge_transcripts_split (before after : list (item F)) (it : item F)
      (evs : list event) :
  merge_transcripts (before ++ it :: after) = Ok {| events := evs |} ->
  exists evs_before es evs_after,
    merge_transcripts before = Ok {| events := evs_before |}
    /\ merge_item it [] = Ok es
    /\ merge_transcripts after = Ok {| events := evs_after |}
    /\ evs = evs_before ++ es ++ evs_after.
Proof.
  unfold merge_transcripts. rewrite for_app.
  destruct (for_ before merge_item []) as [ eb | ]; simpl; [ | discriminate ].
  destruct (merge_item it eb) as [ mid | ] eqn:Hit; simpl; [ | discriminate ].
  destruct (for_ after merge_item mid) as [ out | ] eqn:Hafter; simpl; [ | discriminate ].
  intros Heq. injection Heq as <-.
  apply merge_item_appends in Hit. destruct Hit as [es [Hit ->]].
  apply for_merge_item_appends in Hafter. destruct Hafter as [ea [Hafter ->]].
  exists eb, es, ea. rewrite Hafter. simpl. rewrite <- app_assoc. now repeat split.
Qed.

Lemma merge_item_inv (it : item F) (evs out : list event) :
  merge_item it evs = Ok out ->
  exists es,
    out = evs ++ es
    /\ List.length es = item_sources it
    /\ map segs es = map (fun text => [{| utf8 := text |}]) (item_texts it).
Proof.
  unfold merge_item, item_sources, item_texts.
  destruct (r_segments (result it)) as [ segments | ]; [ | destruct (r_text (result it)) ].
  - intros Hloop. apply for_append_inv in Hloop. destruct Hloop as [es [-> Hes]].
    exists es. split; [ reflexivity | ].
    induction Hes as [ | s e segments es Hse _ [IHlen IHtexts] ]; [ now split | ].
    simpl. rewrite IHlen, IHtexts, (merge_segment_text _ _ _ Hse). now split.
  - destruct (py_int _) as [ t | ]; simpl; [ | discriminate ].
    intros Heq. injection Heq as <-. eexists. repeat split.
  - intros Heq. injection Heq as <-. exists []. now rewrite app_nil_r.
Qed.

Lemma for_merge_item_inv (its : list (item F)) :
  forall evs out,
    for_ its merge_item evs = Ok out ->
    exists es,
      out = evs ++ es
      /\ List.length es = list_sum (map item_sources its)
      /\ map segs es = map (fun text => [{| utf8 := text |}]) (flat_map item_texts its).
Proof.
  induction its as [ | it its IH ]; intros evs out; simpl.
  - intros Heq. injection Heq as <-. exists []. now rewrite app_nil_r.
  - destruct (merge_item it evs) as [ mid | ] eqn:Hit; simpl; [ | discriminate ].
    intros Hrest. apply merge_item_inv in Hit. destruct Hit as [es1 [-> [Hlen1 Htexts1]]].
    apply IH in Hrest. destruct Hrest as [es2 [-> [Hlen2 Htexts2]]].
    exists (es1 ++ es2). rewrite <- app_assoc.
    rewrite length_app, !map_app, Hlen1, Hlen2, Htexts1, Htexts2. now repeat split.
Qed.

End AnyFloats.

(** ** [merge_transcripts] in exact arithmetic, in closed form *)

Lemma merge_item_exact (it : item Q) (evs : list event) :
  merge_item it evs = Ok (evs ++ item_events it).
Proof.
  unfold merge_item, item_events.
  destruct (r_segments (result it)) as [ segments | ]; [ | destruct (r_text (result it)) ].
  - now apply for_append.
  - reflexivity.
  - now rewrite app_nil_r.
Qed.

Lemma for_merge_item_exact (its : list (item Q)) :
  forall evs, for_ its merge_item evs = Ok (evs ++ flat_map item_events its).
Proof.
  induction its as [ | it its IH ]; intros evs; simpl.
  - now rewrite app_nil_r.
  - rewrite merge_item_exact. simpl. rewrite IH, <- app_assoc. reflexivity.
Qed.

Lemma merge_transcripts_exact (its : list (item Q)) :
  merge_transcripts its = Ok {| events := flat_map item_events its |}.
Proof.
  unfold merge_transcripts. now rewrite for_merge_item_exact.
Qed.

(** ** The merger: one event per segment (C2) *)

(** C2, counterexample: a fragment at offset 0 whose one segment runs from
    0 to 1/1024 second (0.0009765625, exact in binary64).  Its duration is
    0.9765625 ms: the code's [int] truncates it to 0, in exact arithmetic
    and in binary64, where rounding as the specification states gives 1. *)
Lemma merge_duration_not_rounded :
  merge_transcripts (F := Q)
    [{| result := {| r_segments := Some [{| seg_start := 0%Q; seg_end := (1 # 1024)%Q;
                                            seg_text := "hi" |}];
                     r_text := None |};
        startTime := 0%Q |}]
  = Ok {| events := [{| tStartMs := 0; dDurationMs := 0; segs := [{| utf8 := "hi" |}] |}] |}
  /\ merge_transcripts (F := float)
       [{| result := {| r_segments := Some [{| seg_start := 0%float;
                                               seg_end := 0.0009765625%float;
                                               seg_text := "hi" |}];
                        r_text := None |};
           startTime := 0%float |}]
     = Ok {| events := [{| tStartMs := 0; dDurationMs := 0; segs := [{| utf8 := "hi" |}] |}] |}
  /\ round_nearest (((1 # 1024) - 0) * 1000) = 1.
Proof.
  repeat split; vm_compute; reflexivity.
Qed.

(** C2, amended: a fragment that carries segments contributes, between
    the events of the fragments before it and those of the fragments after
    it, exactly one event per segment, in order, with the segment's text
    unchanged, [tStartMs] the truncation toward zero (Python's [int]) of
    [(start + startTime) * 1000] and [dDurationMs] the truncation of
    [(end - start) * 1000].  In exact arithmetic [merge_transcripts]
    always returns; on any floats (binary64, where [int] raises on an
    infinity or a NaN) its events are those whenever it returns.  The
    single fragment at offset 0 with the segment from 0 to 5 saying "hi"
    yields the one event [0, 5000, "hi"], in exact arithmetic and in
    binary64. *)
Theorem merge_segments_truncated :
  (forall (before after : list (item Q)) (segments : list (segment Q))
          (text : option string) (start_time : Q),
      exists evs_before evs_after,
        merge_transcripts before = Ok {| events := evs_before |}
        /\ merge_transcripts after = Ok {| events := evs_after |}
        /\ merge_transcripts
             (before
                ++ {| result := {| r_segments := Some segments; r_text := text |};
                      startTime := start_time |}
                :: after)
           = Ok {| events :=
                     evs_before
                       ++ map (fun s =>
                                 {| tStartMs := Qtrunc ((seg_start s + start_time) * 1000);
                                    dDurationMs := Qtrunc ((seg_end s - seg_start s) * 1000);
                                    segs := [{| utf8 := seg_text s |}] |})
                              segments
                       ++ evs_after |})
  /\ (forall (F : Type) (floats : Float F) (before after : list (item F))
             (segments : list (segment F)) (text : option string) (start_time : F)
             (evs : list event),
         merge_transcripts
           (before
              ++ {| result := {| r_segments := Some segments; r_text := text |};
                    startTime := start_time |}
              :: after)
         = Ok {| events := evs |} ->
         exists evs_before evs_segments evs_after,
           merge_transcripts before = Ok {| events := evs_before |}
           /\ merge_transcripts after = Ok {| events := evs_after |}
           /\ evs = evs_before ++ evs_segments ++ evs_after
           /\ Forall2
                (fun s e =>
                   exists t d,
                     py_int (fmul (fadd (seg_start s) start_time) (of_int 1000)) = Ok t
                     /\ py_int (fmul (fsub (seg_end s) (seg_start s)) (of_int 1000)) = Ok d
                     /\ e = {| tStartMs := t; dDurationMs := d;
                               segs := [{| utf8 := seg_text s |}] |})
                segments evs_segments)
  /\ merge_transcripts (F := Q)
       [{| result := {| r_segments := Some [{| seg_start := 0%Q; seg_end := 5%Q;
                                               seg_text := "hi" |}];
                        r_text := None |};
           startTime := 0%Q |}]
     = Ok {| events := [{| tStartMs := 0; dDurationMs := 5000;
                           segs := [{| utf8 := "hi" |}] |}] |}
  /\ merge_transcripts (F := float)
       [{| result := {| r_segments := Some [{| seg_start := 0%float; seg_end := 5%float;
                                               seg_text := "hi" |}];
                        r_text := None |};
           startTime := 0%float |}]
     = Ok {| events := [{| tStartMs := 0; dDurationMs := 5000;
                           segs := [{| utf8 := "hi" |}] |}] |}.
Proof.
  split; [ | split; [ | split; vm_compute; reflexivity ] ].
  - intros before after segments text start_time.
    exists (flat_map item_events before), (flat_map item_events after).
    rewrite !merge_transcripts_exact, flat_map_app. simpl.
    repeat split; reflexivity.
  - intros F floats before after segments text start_time evs Hmerge.
    apply merge_transcripts_split in Hmerge.
    destruct Hmerge as [eb [es [ea [Hb [Hit [Ha ->]]]]]].
    exists eb, es, ea. repeat split; try assumption.
    unfold merge_item in Hit. cbn [result startTime r_segments] in Hit.
    apply for_append_inv in Hit. destruct Hit as [es' [-> Hes]]. simpl.
    eapply Forall2_impl; [ | exact Hes ].
    intros s e. apply merge_segment_inv.
Qed.

(** The part on any floats, at a binary64 run with a text-only fragment
    before the segmented one. *)
Lemma merge_segments_truncated_witness :
  exists evs_before evs_segments evs_after,
    merge_transcripts (F := float)
      [{| result := {| r_segments := None; r_text := Some "a"%string |};
          startTime := 0%float |}]
    = Ok {| events := evs_before |}
    /\ merge_transcripts (F := float) [] = Ok {| events := evs_after |}
    /\ [{| tStartMs := 0; dDurationMs := 5000; segs := [{| utf8 := "a" |}] |};
        {| tStartMs := 31500; dDurationMs := 2500; segs := [{| utf8 := "b" |}] |}]
       = evs_before ++ evs_segments ++ evs_after
    /\ Forall2
         (fun s e =>
            exists t d,
              py_int (fmul (fadd (seg_start s) 30%float) (of_int 1000)) = Ok t
              /\ py_int (fmul (fsub (seg_end s) (seg_start s)) (of_int 1000)) = Ok d
              /\ e = {| tStartMs := t; dDurationMs := d; segs := [{| utf8 := seg_text s |}] |})
         [{| seg_start := 1.5%float; seg_end := 4%float; seg_text := "b" |}]
         evs_segments.
Proof.
  apply (proj1 (proj2 merge_segments_truncated) float binary64
               [{| result := {| r_segments := None; r_text := Some "a"%string |};
                   startTime := 0%float |}]
               []
               [{| seg_start := 1.5%float; seg_end := 4%float; seg_text := "b" |}]
               None 30%float).
  vm_compute. reflexivity.
Defined.

(** ** The merger: one event for a fragment with only its text (C6) *)




(** ** The merger: nothing merged, nothing dropped (C8) *)

Lemma item_events_texts (it : item Q) :
  map segs (item_events it) = map (fun text => [{| utf8 := text |}]) (item_texts it).
Proof.
  unfold item_events, item_texts.
  destruct (r_segments (result it)) as [ segments | ]; [ | now destruct (r_text (result it)) ].
  rewrite !map_map. reflexivity.
Qed.

Lemma item_events_length (it : item Q) : List.length (item_events it) = item_sources it.
Proof.
  unfold item_events, item_sources.
  destruct (r_segments (result it)) as [ segments | ]; [ | now destruct (r_text (result it)) ].
  apply length_map.
Qed.

(** C8: [merge_transcripts] returns, for every list of fragments, a list
    of events with exactly one event per segment of each fragment that
    carries segments and one per fragment that has only its text: as many
    events as there are such sources, and their texts are the sources'
    texts, in the order of the input, repeated where the input repeats.
    On other floats than the exact ones (binary64) [int] can raise, on an
    infinity or a NaN; whenever [merge_transcripts] returns, the events
    are those. *)
Theorem merge_one_event_per_source :
  (forall transcripts : list (item Q),
      exists evs,
        merge_transcripts transcripts = Ok {| events := evs |}
        /\ List.length evs = list_sum (map item_sources transcripts)
        /\ map segs evs
           = map (fun text => [{| utf8 := text |}]) (flat_map item_texts transcripts))
  /\ (forall (F : Type) (floats : Float F) (transcripts : list (item F)) (evs : list event),
         merge_transcripts transcripts = Ok {| events := evs |} ->
         List.length evs = list_sum (map item_sources transcripts)
         /\ map segs evs
            = map (fun text => [{| utf8 := text |}]) (flat_map item_texts transcripts)).
Proof.
  split.
  - intros transcripts. exists (flat_map item_events transcripts).
    split; [ apply merge_transcripts_exact | ].
    induction transcripts as [ | it its [IHlen IHtexts] ]; simpl.
    + split; reflexivity.
    + rewrite length_app, !map_app, item_events_length, item_events_texts, IHlen, IHtexts.
      split; reflexivity.
  - intros F floats transcripts evs. unfold merge_transcripts.
    destruct (for_ transcripts merge_item []) as [ out | ] eqn:Hloop; simpl; [ | discriminate ].
    intros Heq. injection Heq as ->.
    apply for_merge_item_inv in Hloop. destruct Hloop as [es [-> Hes]]. exact Hes.
Qed.

(** The part on any floats, at a binary64 run with a repeated segment. *)
Lemma merge_one_event_per_source_witness :
  List.length
    [{| tStartMs := 1000; dDurationMs := 1000; segs := [{| utf8 := "a" |}] |};
     {| tStartMs := 1000; dDurationMs := 1000; segs := [{| utf8 := "a" |}] |};
     {| tStartMs := 60000; dDurationMs := 5000; segs := [{| utf8 := "b" |}] |}]
  = list_sum
      (map item_sources
           [{| result := {| r_segments :=
                              Some [{| seg_start := 1%float; seg_end := 2%float;
                                       seg_text := "a" |};
                                    {| seg_start := 1%float; seg_end := 2%float;
                                       seg_text := "a" |}];
                            r_text := Some "a a"%string |};
               startTime := 0%float |};
            {| result := {| r_segments := None; r_text := Some "b"%string |};
               startTime := 60%float |}])
  /\ map segs
         [{| tStartMs := 1000; dDurationMs := 1000; segs := [{| utf8 := "a" |}] |};
          {| tStartMs := 1000; dDurationMs := 1000; segs := [{| utf8 := "a" |}] |};
          {| tStartMs := 60000; dDurationMs := 5000; segs := [{| utf8 := "b" |}] |}]
     = map (fun text => [{| utf8 := text |}])
           (flat_map item_texts
              [{| result := {| r_segments :=
                                 Some [{| seg_start := 1%float; seg_end := 2%float;
                                          seg_text := "a" |};
                                       {| seg_start := 1%float; seg_end := 2%float;
                                          seg_text := "a" |}];
                               r_text := Some "a a"%string |};
                  startTime := 0%float |};
               {| result := {| r_segments := None; r_text := Some "b"%string |};
                  startTime := 60%float |}]).
Proof.
  apply (proj2 merge_one_event_per_source float binary64).
  vm_compute. reflexivity.
Defined.

(** ** The single-file formatter against the merger (C3) *)

(** C3, counterexample: a response with an empty ['segments'] list and a
    text.  [convert_groq_to_youtube_format] tests that the list is not
    empty and falls back to the text, one event; [merge_transcripts]
    tests only that the key is there and loops over nothing, no event.
    The same in binary64. *)
Lemma convert_differs_from_merge_on_empty_segments :
  convert_groq_to_youtube_format (F := Q)
    {| r_segments := Some []; r_text := Some "hello"%string |}
  = Ok {| events := [{| tStartMs := 0; dDurationMs := 5000;
                        segs := [{| utf8 := "hello" |}] |}] |}
  /\ merge_transcripts (F := Q)
       [{| result := {| r_segments := Some []; r_text := Some "hello"%string |};
           startTime := of_int 0 |}]
     = Ok {| events := [] |}
  /\ convert_groq_to_youtube_format (F := float)
       {| r_segments := Some []; r_text := Some "hello"%string |}
     = Ok {| events := [{| tStartMs := 0; dDurationMs := 5000;
                           segs := [{| utf8 := "hello" |}] |}] |}
  /\ merge_transcripts (F := float)
       [{| result := {| r_segments := Some []; r_text := Some "hello"%string |};
           startTime := of_int 0 |}]
     = Ok {| events := [] |}.
Proof.
  repeat split; vm_compute; reflexivity.
Qed.

(** On floats where adding the [int] 0 changes no millisecond. *)
Section ConvertAgainstMerge.

Context {F : Type} `{Float F}.

Hypothesis add_zero_millis : forall x : F,
    py_int (fmul (fadd x (of_int 0)) (of_int 1000)) = py_int (fmul x (of_int 1000)).
Hypothesis zero_millis : py_int (fmul (of_int 0) (of_int 1000)) = Ok 0.

Lemma convert_segment_is_merge_segment (s : segment F) :
  convert_segment s = merge_segment (of_int 0) s.
Proof.
  unfold convert_segment, merge_segment. now rewrite add_zero_millis.
Qed.

Lemma convert_is_merge_when (r : groq_result F) :
  r_segments r <> Some [] ->
  convert_groq_to_youtube_format r
  = merge_transcripts [{| result := r; startTime := of_int 0 |}].
Proof.
  intros Hne. unfold convert_groq_to_youtube_format, merge_transcripts.
  cbn [for_]. unfold merge_item. cbn [result startTime].
  destruct r as [ [ [ | s segments ] | ] text ]; cbn [r_segments r_text] in *.
  - now contradiction Hne.
  - rewrite (for_ext _ (fun segment events =>
                          e <- merge_segment (of_int 0) segment ;; Ok (events ++ [e])))
      by (intros x evs; now rewrite convert_segment_is_merge_segment).
    now destruct (for_ (s :: segments) _ []).
  - destruct text as [ text | ]; [ | reflexivity ].
    rewrite zero_millis. reflexivity.
Qed.

End ConvertAgainstMerge.

(** In binary64 adding 0 to a float gives the float back, but for -0.0,
    which it turns into 0.0. *)
Lemma b64_add_zero (x : float) :
  PrimFloat.add x PrimFloat.zero = x \/ x = PrimFloat.neg_zero.
Proof.
  pose proof (add_spec x PrimFloat.zero) as Hadd.
  change (Prim2SF PrimFloat.zero) with (S754_zero false) in Hadd.
  unfold SF64add in Hadd.
  destruct (Prim2SF x) as [ [ | ] | sx | | sx mx ex ] eqn:Hx; cbn [SFadd] in Hadd.
  - right. rewrite <- (SF2Prim_Prim2SF x), Hx. reflexivity.
  - left. apply Prim2SF_inj. now rewrite Hadd.
  - left. apply Prim2SF_inj. now rewrite Hadd.
  - left. apply Prim2SF_inj. now rewrite Hadd.
  - left. apply Prim2SF_inj. now rewrite Hadd.
Qed.

Lemma b64_add_zero_millis (x : float) :
  py_int (fmul (fadd x (of_int 0)) (of_int 1000)) = py_int (fmul x (of_int 1000)).
Proof.
  change (fadd x (of_int 0)) with (PrimFloat.add x PrimFloat.zero).
  destruct (b64_add_zero x) as [ -> | -> ]; [ reflexivity | ].
  vm_compute. reflexivity.
Qed.

Lemma exact_add_zero_millis (x : Q) :
  py_int (fmul (fadd x (of_int 0)) (of_int 1000)) = py_int (fmul x (of_int 1000)).
Proof.
  simpl. f_equal. apply Qtrunc_comp. ring.
Qed.

(** C3, amended: for every response whose ['segments'] list is absent or
    not empty, [convert_groq_to_youtube_format] returns what
    [merge_transcripts] returns on that response as the only fragment,
    with [startTime] 0; in exact arithmetic, and in binary64. *)
Theorem convert_is_merge_at_zero :
  (forall r : groq_result Q,
      r_segments r <> Some [] ->
      convert_groq_to_youtube_format r
      = merge_transcripts [{| result := r; startTime := of_int 0 |}])
  /\ (forall r : groq_result float,
         r_segments r <> Some [] ->
         convert_groq_to_youtube_format r
         = merge_transcripts [{| result := r; startTime := of_int 0 |}]).
Proof.
  split; intros r Hne.
  - now apply convert_is_merge_when; [ apply exact_add_zero_millis | | ].
  - now apply convert_is_merge_when; [ apply b64_add_zero_millis | | ].
Qed.

Lemma convert_is_merge_at_zero_witness :
  convert_groq_to_youtube_format (F := Q)
    {| r_segments := Some [{| seg_start := (1 # 2)%Q; seg_end := (7 # 2)%Q;
                              seg_text := "hello" |}];
       r_text := Some "hello"%string |}
  = merge_transcripts
      [{| result := {| r_segments := Some [{| seg_start := (1 # 2)%Q; seg_end := (7 # 2)%Q;
                                              seg_text := "hello" |}];
                       r_text := Some "hello"%string |};
          startTime := of_int 0 |}].
Proof.
  apply (proj1 convert_is_merge_at_zero). simpl. discriminate.
Defined.

(** ** The order of the events (C7) *)













(** ** Step 4 in exact arithmetic *)

Lemma audio_size_mb_exact (audio_size : Z) :
  audio_size_mb audio_size = Ok (megabytes audio_size).
Proof. reflexivity. Qed.

Lemma Qltb_lt (a b : Q) : Qltb a b = true <-> (a < b)%Q.
Proof.
  unfold Qltb. rewrite negb_true_iff, <- not_true_iff_false, Qle_bool_iff.
  split; [ apply Qnot_le_lt | apply Qlt_not_le ].
Qed.

Lemma Qltb_ge (a b : Q) : Qltb a b = false <-> (b <= a)%Q.
Proof.
  unfold Qltb. rewrite negb_false_iff. apply Qle_bool_iff.
Qed.

Lemma megabytes_lt_max (audio_size : Z) :
  (megabytes audio_size < inject_Z MAX_FILE_SIZE_MB)%Q <-> audio_size < 24 * 1024 * 1024.
Proof.
  unfold megabytes, Qlt. simpl. lia.
Qed.

Lemma plan_exact (audio_size : Z) (duration : Q) :
  plan audio_size duration
  = if Qltb (megabytes audio_size) (inject_Z MAX_FILE_SIZE_MB) then Ok None
    else p <- chunk_plan (megabytes audio_size) duration ;; Ok (Some p).
Proof. reflexivity. Qed.

Lemma chunk_plan_exact (mb duration : Q) :
  chunk_plan mb duration
  = (mb_per_second <- Qtruediv mb duration ;;
     q <- Qtruediv (inject_Z MAX_FILE_SIZE_MB) mb_per_second ;;
     r <- Qtruediv duration (inject_Z (Qfloor q)) ;;
     Ok (Qfloor q, Qceiling r)).
Proof. reflexivity. Qed.

(** What [chunk_plan] computed when it returns. *)
Lemma chunk_plan_exact_inv (mb duration : Q) (chunk_duration num_chunks : Z) :
  chunk_plan mb duration = Ok (chunk_duration, num_chunks) ->
  ~ (duration == 0)%Q
  /\ chunk_duration = Qfloor (inject_Z MAX_FILE_SIZE_MB / (mb / duration))
  /\ chunk_duration <> 0
  /\ num_chunks = Qceiling (duration / inject_Z chunk_duration).
Proof.
  rewrite chunk_plan_exact. unfold Qtruediv.
  destruct (Qeq_bool duration 0) eqn:Hd; cbn [bind]; [ discriminate | ].
  destruct (Qeq_bool (mb / duration) 0) eqn:Hr; cbn [bind]; [ discriminate | ].
  remember (Qfloor (inject_Z MAX_FILE_SIZE_MB / (mb / duration))) as cd eqn:Hcd.
  destruct (Qeq_bool (inject_Z cd) 0) eqn:Hc; cbn [bind]; [ discriminate | ].
  intros Heq. injection Heq as <- <-.
  split; [ now apply Qeq_bool_neq | ].
  split; [ reflexivity | ].
  split; [ | reflexivity ].
  intros H0. rewrite H0 in Hc. discriminate Hc.
Qed.

(** A zero [chunk_duration], or a zero [duration], ends [chunk_plan] with
    a division by zero. *)
Lemma chunk_plan_exact_zero (mb duration : Q) :
  (0 < mb)%Q -> (0 <= duration)%Q ->
  Qfloor (inject_Z MAX_FILE_SIZE_MB / (mb / duration)) <= 0 ->
  chunk_plan mb duration = Raise ZeroDivisionError.
Proof.
  intros Hmb Hd Hfl.
  rewrite chunk_plan_exact. unfold Qtruediv.
  destruct (Qeq_bool duration 0) eqn:Hd0; cbn [bind]; [ reflexivity | ].
  destruct (Qeq_bool (mb / duration) 0) eqn:Hr; cbn [bind]; [ reflexivity | ].
  assert (Hpos : (0 <= inject_Z MAX_FILE_SIZE_MB / (mb / duration))%Q).
  { apply Qmult_le_0_compat; [ discriminate | ].
    apply Qinv_le_0_compat. apply Qmult_le_0_compat; [ now apply Qlt_le_weak | ].
    now apply Qinv_le_0_compat. }
  apply Qfloor_resp_le in Hpos. change (Qfloor 0) with 0 in Hpos.
  replace (Qfloor (inject_Z MAX_FILE_SIZE_MB / (mb / duration))) with 0 by lia.
  reflexivity.
Qed.

Lemma In_range (n i : Z) : In i (range n) <-> 0 <= i < n.
Proof.
  unfold range. rewrite in_map_iff. split.
  - intros [k [<- Hk]]. apply in_seq in Hk. lia.
  - intros Hi. exists (Z.to_nat i). rewrite in_seq. lia.
Qed.

(** ** Traces *)

Lemma io_bind_lift_ok {A B : Type} (a : A) (k : A -> io B) :
  io_bind (lift (Ok a)) k = k a.
Proof.
  unfold lift, io_bind. now destruct (k a).
Qed.

(** A continuation that does nothing to the world adds nothing to the
    trace. *)
Lemma io_bind_fst_silent {A B : Type} (m : io A) (k : A -> io B) :
  (forall a, fst (k a) = []) -> fst (io_bind m k) = fst m.
Proof.
  intros Hk. destruct m as [t [a | e]]; cbn [io_bind fst]; [ | reflexivity ].
  specialize (Hk a). destruct (k a) as [t' r]. cbn [fst] in *. subst t'.
  apply app_nil_r.
Qed.

(** ** The chunk loops when ffmpeg and the Groq API succeed *)

Section ChunkLoop.

Context {F : Type} `{Float F}.

Variable ffmpeg : Z -> Z -> Z -> py bool.
Variable transcribe_audio_file : path -> py (groq_result F).

Hypothesis ffmpeg_ok : forall i start_time chunk_duration,
    ffmpeg i start_time chunk_duration = Ok true.
Hypothesis groq_ok : forall f, exists r, transcribe_audio_file f = Ok r.

Lemma upload_chunk_is_video_chunk (chunk_duration i : Z) (transcripts : list (item F)) :
  upload_transcribe_chunk ffmpeg transcribe_audio_file chunk_duration i transcripts
  = transcribe_video_chunk ffmpeg transcribe_audio_file chunk_duration i transcripts.
Proof.
  unfold upload_transcribe_chunk, transcribe_video_chunk.
  rewrite ffmpeg_ok. reflexivity.
Qed.

Lemma transcribe_video_chunk_ok (chunk_duration i : Z) (transcripts : list (item F)) :
  exists r,
    transcribe_video_chunk ffmpeg transcribe_audio_file chunk_duration i transcripts
    = (chunk_actions chunk_duration i,
       Ok (transcripts ++ [{| result := r; startTime := of_int (i * chunk_duration) |}])).
Proof.
  destruct (groq_ok (chunk_file i)) as [r Hr]. exists r.
  unfold transcribe_video_chunk. rewrite ffmpeg_ok, Hr. reflexivity.
Qed.

Lemma transcribe_video_loop (chunk_duration : Z) (xs : list Z) :
  forall transcripts,
  exists transcripts',
    io_for xs (transcribe_video_chunk ffmpeg transcribe_audio_file chunk_duration)
           transcripts
    = (flat_map (chunk_actions chunk_duration) xs, Ok transcripts')
    /\ map startTime transcripts'
       = map startTime transcripts ++ map (fun i => of_int (i * chunk_duration)) xs.
Proof.
  induction xs as [ | i xs IH ]; intros transcripts.
  - exists transcripts. simpl. now rewrite app_nil_r.
  - destruct (transcribe_video_chunk_ok chunk_duration i transcripts) as [r Hr].
    destruct (IH (transcripts
                    ++ [{| result := r; startTime := of_int (i * chunk_duration) |}]))
      as [ts [Hloop Hstart]].
    exists ts. split.
    + cbn [io_for]. rewrite Hr. cbn [io_bind]. rewrite Hloop. reflexivity.
    + rewrite Hstart, map_app, <- app_assoc. reflexivity.
Qed.

Lemma upload_transcribe_loop (chunk_duration : Z) (xs : list Z) :
  forall transcripts,
    io_for xs (upload_transcribe_chunk ffmpeg transcribe_audio_file chunk_duration)
           transcripts
    = io_for xs (transcribe_video_chunk ffmpeg transcribe_audio_file chunk_duration)
             transcripts.
Proof.
  induction xs as [ | i xs IH ]; intros transcripts; [ reflexivity | ].
  cbn [io_for]. rewrite upload_chunk_is_video_chunk.
  destruct (transcribe_video_chunk ffmpeg transcribe_audio_file chunk_duration i transcripts)
    as [t [ts | e]]; cbn [io_bind]; [ | reflexivity ].
  now rewrite IH.
Qed.

(** With a plan to chunk, both routes do exactly the iterations'
    actions, one chunk after the other. *)
Lemma chunked_routes_trace (audio_size : Z) (duration : F)
      (chunk_duration num_chunks : Z) :
  plan audio_size duration = Ok (Some (chunk_duration, num_chunks)) ->
  fst (transcribe_video ffmpeg transcribe_audio_file audio_size duration)
  = flat_map (chunk_actions chunk_duration) (range num_chunks)
  /\ fst (upload_transcribe ffmpeg transcribe_audio_file audio_size duration)
     = flat_map (chunk_actions chunk_duration) (range num_chunks).
Proof.
  intros Hplan. unfold transcribe_video, upload_transcribe.
  rewrite Hplan, !io_bind_lift_ok.
  rewrite upload_transcribe_loop.
  destruct (transcribe_video_loop chunk_duration (range num_chunks) []) as [ts [Hloop _]].
  split.
  - rewrite io_bind_fst_silent by reflexivity. now rewrite Hloop.
  - rewrite io_bind_fst_silent; [ now rewrite Hloop | ].
    intros a. now apply io_bind_fst_silent.
Qed.

End ChunkLoop.

(** ** Step 4 in binary64: no negative chunk duration *)

Lemma binary_round_aux_sign (sx : bool) (mx ex : Z) (lx : location) :
  SF_negative (binary_round_aux prec emax sx mx ex lx) = true -> sx = true.
Proof.
  unfold binary_round_aux.
  destruct (shr_fexp prec emax mx ex lx) as [mrs' e'].
  destruct (shr_fexp prec emax _ e' loc_Exact) as [mrs'' e''].
  intros Hneg. destruct sx; [ reflexivity | exfalso ].
  destruct (shr_m mrs'') as [ | m | m ]; [ | destruct (Z.leb e'' (emax - prec)) | ];
    discriminate Hneg.
Qed.

Lemma SFdiv_not_negative (x y : spec_float) :
  SF_negative x = false -> SF_negative y = false -> SF_is_zero y = false ->
  SF_negative (SFdiv prec emax x y) = false.
Proof.
  intros Hx Hy Hz.
  destruct x as [ sx | sx | | sx mx ex ]; destruct y as [ sy | sy | | sy my ey ];
    try discriminate; try reflexivity;
    try (destruct sx; try discriminate); try (destruct sy; try discriminate);
    try reflexivity.
  unfold SFdiv.
  destruct (SFdiv_core_binary prec emax (Zpos mx) ex (Zpos my) ey) as [[mz ez] lz].
  apply not_true_is_false. intros Hneg. apply binary_round_aux_sign in Hneg. discriminate.
Qed.

Lemma b64_truediv_inv (a b q : float) :
  b64_truediv a b = Ok q ->
  PrimFloat.eqb b PrimFloat.zero = false /\ q = PrimFloat.div a b.
Proof.
  unfold b64_truediv. destruct (PrimFloat.eqb b PrimFloat.zero); [ discriminate | ].
  intros Heq. injection Heq as <-. now split.
Qed.

Lemma b64_nonzero (b : float) :
  PrimFloat.eqb b PrimFloat.zero = false -> SF_is_zero (Prim2SF b) = false.
Proof.
  rewrite eqb_spec. change (Prim2SF PrimFloat.zero) with (S754_zero false).
  destruct (Prim2SF b); try reflexivity. discriminate.
Qed.

Lemma b64_not_below_max (mb : float) :
  PrimFloat.ltb mb (of_int MAX_FILE_SIZE_MB) = false -> SF_negative (Prim2SF mb) = false.
Proof.
  rewrite ltb_spec.
  set (c := Prim2SF (of_int MAX_FILE_SIZE_MB)). vm_compute in c. subst c.
  destruct (Prim2SF mb) as [ s | [ | ] | | [ | ] m e ]; try reflexivity; discriminate.
Qed.

Lemma b64_positive (d : float) :
  PrimFloat.ltb PrimFloat.zero d = true ->
  SF_negative (Prim2SF d) = false /\ SF_is_zero (Prim2SF d) = false.
Proof.
  rewrite ltb_spec. change (Prim2SF PrimFloat.zero) with (S754_zero false).
  destruct (Prim2SF d) as [ s | [ | ] | | [ | ] m e ]; try discriminate; now split.
Qed.

Lemma b64_div_not_negative (a b : float) :
  SF_negative (Prim2SF a) = false -> SF_negative (Prim2SF b) = false ->
  SF_is_zero (Prim2SF b) = false ->
  SF_negative (Prim2SF (PrimFloat.div a b)) = false.
Proof.
  intros Ha Hb Hz. rewrite div_spec. now apply SFdiv_not_negative.
Qed.

Lemma b64_floor_nonneg (q : float) (z : Z) :
  SF_negative (Prim2SF q) = false -> math_floor q = Ok z -> 0 <= z.
Proof.
  intros Hneg Hfl. change (b64_to_int Z.div q = Ok z) in Hfl. unfold b64_to_int in Hfl.
  destruct (Prim2SF q) as [ s | s | | [ | ] m e ]; try discriminate.
  - injection Hfl as <-. lia.
  - cbv zeta in Hfl. destruct (0 <=? e) eqn:He; injection Hfl as <-.
    + apply Z.leb_le in He. change (0 <= Z.pos m * 2 ^ e).
      apply Z.mul_nonneg_nonneg; [ lia | now apply Z.pow_nonneg ].
    + apply Z.leb_gt in He. change (0 <= Z.pos m / 2 ^ (- e)).
      apply Z.div_pos; [ lia | ]. apply Z.pow_pos_nonneg; lia.
Qed.

(** In the chunking branch, with a positive duration, the floor is not
    negative. *)
Lemma b64_chunk_duration_nonneg (mb duration mb_per_second q : float) (chunk_duration : Z) :
  PrimFloat.ltb mb (of_int MAX_FILE_SIZE_MB) = false ->
  PrimFloat.ltb PrimFloat.zero duration = true ->
  truediv mb duration = Ok mb_per_second ->
  truediv (of_int MAX_FILE_SIZE_MB) mb_per_second = Ok q ->
  math_floor q = Ok chunk_duration ->
  0 <= chunk_duration.
Proof.
  intros Hmb Hd H1 H2 H3.
  apply b64_truediv_inv in H1. destruct H1 as [_ ->].
  apply b64_truediv_inv in H2. destruct H2 as [Hnz ->].
  apply b64_positive in Hd. destruct Hd as [Hdneg Hdz].
  refine (b64_floor_nonneg _ _ _ H3).
  apply b64_div_not_negative.
  - vm_compute. reflexivity.
  - apply b64_div_not_negative; [ now apply b64_not_below_max | assumption | assumption ].
  - now apply b64_nonzero.
Qed.

Lemma b64_truediv_by_zero (a : float) : truediv a (of_int 0) = Raise ZeroDivisionError.
Proof. reflexivity. Qed.

Lemma b64_chunk_plan_inv (mb duration : float) (chunk_duration num_chunks : Z) :
  PrimFloat.ltb mb (of_int MAX_FILE_SIZE_MB) = false ->
  PrimFloat.ltb PrimFloat.zero duration = true ->
  chunk_plan mb duration = Ok (chunk_duration, num_chunks) ->
  1 <= chunk_duration
  /\ exists r, truediv duration (of_int chunk_duration) = Ok r /\ math_ceil r = Ok num_chunks.
Proof.
  intros Hmb Hd. unfold chunk_plan.
  destruct (truediv mb duration) as [ mb_per_second | ] eqn:H1; cbn [bind]; [ | discriminate ].
  destruct (truediv (of_int MAX_FILE_SIZE_MB) mb_per_second) as [ q | ] eqn:H2; cbn [bind];
    [ | discriminate ].
  destruct (math_floor q) as [ cd | ] eqn:H3; cbn [bind]; [ | discriminate ].
  destruct (truediv duration (of_int cd)) as [ r | ] eqn:H4; cbn [bind]; [ | discriminate ].
  destruct (math_ceil r) as [ n | ] eqn:H5; cbn [bind]; [ | discriminate ].
  intros Heq. injection Heq as <- <-.
  split; [ | exists r; now split ].
  pose proof (b64_chunk_duration_nonneg _ _ _ _ _ Hmb Hd H1 H2 H3) as H0.
  assert (cd <> 0); [ | lia ].
  intros ->. rewrite b64_truediv_by_zero in H4. discriminate H4.
Qed.

(** The branch taken, on any floats. *)
Lemma plan_some_inv {F : Type} `{Float F} (audio_size : Z) (duration : F) (p : Z * Z) :
  plan audio_size duration = Ok (Some p) ->
  exists mb,
    audio_size_mb audio_size = Ok mb
    /\ flt mb (of_int MAX_FILE_SIZE_MB) = false
    /\ chunk_plan mb duration = Ok p.
Proof.
  unfold plan.
  destruct (audio_size_mb audio_size) as [ mb | ]; cbn [bind]; [ | discriminate ].
  destruct (flt mb (of_int MAX_FILE_SIZE_MB)) eqn:Hlt; [ discriminate | ].
  destruct (chunk_plan mb duration) as [ p' | ] eqn:Hcp; cbn [bind]; [ | discriminate ].
  intros Heq. injection Heq as <-. exists mb. repeat split; assumption.
Qed.

(** ** The size test in binary64 *)

Lemma b64_of_int_of_uint63 (n : Uint63.int) :
  b64_of_int (Uint63.to_Z n) = PrimFloat.of_uint63 n.
Proof.
  unfold b64_of_int. rewrite <- of_uint63_spec. apply SF2Prim_Prim2SF.
Qed.

Lemma b64_all_below_max_spec (k : nat) :
  forall prefix : Uint63.int,
    (Uint63.to_Z prefix + 1) * 2 ^ Z.of_nat k <= Uint63.wB ->
    b64_all_below_max k prefix = true ->
    forall z,
      Uint63.to_Z prefix * 2 ^ Z.of_nat k <= z < (Uint63.to_Z prefix + 1) * 2 ^ Z.of_nat k ->
      b64_below_max (Uint63.of_Z z) = true.
Proof.
  induction k as [ | k IH ]; intros prefix Hbound Hall z Hz.
  - simpl in Hz, Hall. replace z with (Uint63.to_Z prefix) by lia.
    now rewrite Uint63.of_to_Z.
  - rewrite Nat2Z.inj_succ, Z.pow_succ_r in Hbound, Hz by lia.
    pose proof (Uint63.to_Z_bounded prefix) as Hp.
    assert (Hw : 0 < 2 ^ Z.of_nat k) by (apply Z.pow_pos_nonneg; lia).
    assert (H2 : Uint63.to_Z (Uint63.add prefix prefix) = 2 * Uint63.to_Z prefix).
    { rewrite Uint63.add_spec, Z.mod_small; nia. }
    assert (H3 : Uint63.to_Z (Uint63.add (Uint63.add prefix prefix) 1%uint63)
                 = 2 * Uint63.to_Z prefix + 1).
    { rewrite Uint63.add_spec, H2. change (Uint63.to_Z 1%uint63) with 1.
      rewrite Z.mod_small; nia. }
    cbn [b64_all_below_max] in Hall. apply andb_true_iff in Hall. destruct Hall as [Hl Hr].
    destruct (Z_lt_le_dec z ((2 * Uint63.to_Z prefix + 1) * 2 ^ Z.of_nat k)) as [Hlt | Hge].
    + apply (IH (Uint63.add prefix prefix)); rewrite ?H2; try assumption; nia.
    + apply (IH (Uint63.add (Uint63.add prefix prefix) 1%uint63)); rewrite ?H3;
        try assumption; nia.
Qed.

(** Every size below 24 * 2^20 bytes, by evaluation: those below 2^24, and
    those from 2^24 on, below 2^24 + 2^23. *)
Lemma b64_all_sizes_below_max :
  b64_all_below_max 24 0%uint63 = true /\ b64_all_below_max 23 2%uint63 = true.
Proof. split; vm_compute; reflexivity. Qed.

Lemma b64_size_below_max (audio_size : Z) :
  0 <= audio_size < 24 * 1024 * 1024 ->
  b64_below_max (Uint63.of_Z audio_size) = true.
Proof.
  intros Hsize. destruct b64_all_sizes_below_max as [Hlow Hhigh].
  destruct (Z_lt_le_dec audio_size (2 ^ 24)) as [Hlt | Hge].
  - apply (b64_all_below_max_spec 24 0%uint63); [ vm_compute; discriminate | assumption | ].
    change (Uint63.to_Z 0%uint63) with 0. lia.
  - apply (b64_all_below_max_spec 23 2%uint63); [ vm_compute; discriminate | assumption | ].
    change (Uint63.to_Z 2%uint63) with 2. lia.
Qed.

Lemma b64_plan_small (audio_size : Z) (duration : float) :
  0 <= audio_size < 24 * 1024 * 1024 ->
  plan audio_size duration = Ok None.
Proof.
  intros Hsize. pose proof (b64_size_below_max audio_size Hsize) as Htest.
  unfold b64_below_max in Htest.
  rewrite <- b64_of_int_of_uint63, Uint63.of_Z_spec, Z.mod_small in Htest
    by (change Uint63.wB with 9223372036854775808; lia).
  unfold plan, audio_size_mb. cbn [truediv of_int binary64]. unfold b64_truediv.
  change (b64_of_int 1024) with 1024%float.
  change (PrimFloat.eqb 1024 PrimFloat.zero) with false. cbn [bind flt binary64].
  change (b64_of_int MAX_FILE_SIZE_MB) with 24%float.
  now rewrite Htest.
Qed.

(** ** Small files are sent whole (C5) *)

(** The single-file branch of both routes, on any floats. *)
Lemma single_file_routes {F : Type} `{Float F}
      (ffmpeg : Z -> Z -> Z -> py bool) (transcribe_audio_file : path -> py (groq_result F))
      (audio_size : Z) (duration : F) :
  plan audio_size duration = Ok None ->
  transcribe_video ffmpeg transcribe_audio_file audio_size duration
  = ([groq_transcribe audio_file],
     groq_result <- transcribe_audio_file audio_file ;;
     convert_groq_to_youtube_format groq_result)
  /\ upload_transcribe ffmpeg transcribe_audio_file audio_size duration
     = ([groq_transcribe audio_file],
        transcript <- transcribe_audio_file audio_file ;; Ok (inl transcript)).
Proof.
  intros Hplan. unfold transcribe_video, upload_transcribe.
  rewrite Hplan, !io_bind_lift_ok. unfold act, lift, io_bind.
  destruct (transcribe_audio_file audio_file) as [r | e]; split; reflexivity.
Qed.

(** C5: an audio file of fewer than 24 * 1024 * 1024 bytes is never
    chunked, whatever its duration: the size test takes the single-file
    branch ([plan] returns [None]), and each route calls ffmpeg for no
    chunk and the Groq API exactly once, on the whole file.  In exact
    arithmetic, and in binary64 (for the sizes a file can have, from 0
    on). *)
Theorem small_audio_single_file :
  (forall (ffmpeg : Z -> Z -> Z -> py bool)
          (transcribe_audio_file : path -> py (groq_result Q))
          (audio_size : Z) (duration : Q),
      audio_size < 24 * 1024 * 1024 ->
      plan audio_size duration = Ok None
      /\ transcribe_video ffmpeg transcribe_audio_file audio_size duration
         = ([groq_transcribe audio_file],
            groq_result <- transcribe_audio_file audio_file ;;
            convert_groq_to_youtube_format groq_result)
      /\ upload_transcribe ffmpeg transcribe_audio_file audio_size duration
         = ([groq_transcribe audio_file],
            transcript <- transcribe_audio_file audio_file ;; Ok (inl transcript)))
  /\ (forall (ffmpeg : Z -> Z -> Z -> py bool)
             (transcribe_audio_file : path -> py (groq_result float))
             (audio_size : Z) (duration : float),
         0 <= audio_size < 24 * 1024 * 1024 ->
         plan audio_size duration = Ok None
         /\ transcribe_video ffmpeg transcribe_audio_file audio_size duration
            = ([groq_transcribe audio_file],
               groq_result <- transcribe_audio_file audio_file ;;
               convert_groq_to_youtube_format groq_result)
         /\ upload_transcribe ffmpeg transcribe_audio_file audio_size duration
            = ([groq_transcribe audio_file],
               transcript <- transcribe_audio_file audio_file ;; Ok (inl transcript))).
Proof.
  split; intros ffmpeg transcribe_audio_file audio_size duration Hsize.
  - assert (Hplan : plan audio_size duration = Ok None).
    { rewrite plan_exact.
      now rewrite (proj2 (Qltb_lt _ _) (proj2 (megabytes_lt_max audio_size) Hsize)). }
    split; [ exact Hplan | now apply single_file_routes ].
  - pose proof (b64_plan_small audio_size duration Hsize) as Hplan.
    split; [ exact Hplan | now apply single_file_routes ].
Qed.

Lemma small_audio_single_file_witness :
  plan (F := Q) 5242880 300%Q = Ok None.
Proof.
  apply (proj1 small_audio_single_file ffmpeg_succeeds groq_answers_text 5242880 300%Q).
  reflexivity.
Defined.

(** ** A chunk duration of zero (C1) *)

(** C1, counterexample: 48 MB of audio lasting 1.5 s.  Chunking is
    required, [chunk_duration = floor(24 / (48 / 1.5)) = floor(0.75) = 0],
    and the next line, [duration / chunk_duration], divides by zero: the
    run ends with Python's [ZeroDivisionError], in exact arithmetic and in
    binary64.  The source has no other error for it. *)
Lemma zero_chunk_duration_divides_by_zero :
  flt (megabytes 50331648) (of_int MAX_FILE_SIZE_MB) = false
  /\ Qfloor (inject_Z MAX_FILE_SIZE_MB / (megabytes 50331648 / (3 # 2))) = 0
  /\ plan (F := Q) 50331648 (3 # 2)%Q = Raise ZeroDivisionError
  /\ plan (F := float) 50331648 1.5%float = Raise ZeroDivisionError.
Proof.
  repeat split; vm_compute; reflexivity.
Qed.

Lemma plan_exact_chunking (audio_size : Z) (duration : Q) :
  24 * 1024 * 1024 <= audio_size ->
  plan audio_size duration
  = (p <- chunk_plan (megabytes audio_size) duration ;; Ok (Some p))
  /\ (0 < megabytes audio_size)%Q.
Proof.
  intros Hsize.
  assert (Hmb : (inject_Z MAX_FILE_SIZE_MB <= megabytes audio_size)%Q).
  { apply Qnot_lt_le. rewrite megabytes_lt_max. lia. }
  split.
  - rewrite plan_exact. now rewrite (proj2 (Qltb_ge _ _) Hmb).
  - apply Qlt_le_trans with (inject_Z MAX_FILE_SIZE_MB); [ reflexivity | assumption ].
Qed.

(** C1, amended: when chunking is required, the duration is positive and
    the computed [chunk_duration] is [<= 0], the run ends with Python's
    [ZeroDivisionError], raised by [duration / chunk_duration]: no pair
    [(chunk_duration, num_chunks)] is produced, and neither route has
    called ffmpeg or the Groq API.  In exact arithmetic, and in binary64
    (there with the intermediate values of the run named). *)
Theorem zero_chunk_duration_raises :
  (forall (ffmpeg : Z -> Z -> Z -> py bool)
          (transcribe_audio_file : path -> py (groq_result Q))
          (audio_size : Z) (duration : Q),
      24 * 1024 * 1024 <= audio_size ->
      (0 < duration)%Q ->
      Qfloor (inject_Z MAX_FILE_SIZE_MB / (megabytes audio_size / duration)) <= 0 ->
      plan audio_size duration = Raise ZeroDivisionError
      /\ transcribe_video ffmpeg transcribe_audio_file audio_size duration
         = ([], Raise ZeroDivisionError)
      /\ upload_transcribe ffmpeg transcribe_audio_file audio_size duration
         = ([], Raise ZeroDivisionError))
  /\ (forall (ffmpeg : Z -> Z -> Z -> py bool)
             (transcribe_audio_file : path -> py (groq_result float))
             (audio_size : Z) (duration mb mb_per_second q : float) (chunk_duration : Z),
         audio_size_mb audio_size = Ok mb ->
         flt mb (of_int MAX_FILE_SIZE_MB) = false ->
         flt (of_int 0) duration = true ->
         truediv mb duration = Ok mb_per_second ->
         truediv (of_int MAX_FILE_SIZE_MB) mb_per_second = Ok q ->
         math_floor q = Ok chunk_duration ->
         chunk_duration <= 0 ->
         plan audio_size duration = Raise ZeroDivisionError
         /\ transcribe_video ffmpeg transcribe_audio_file audio_size duration
            = ([], Raise ZeroDivisionError)
         /\ upload_transcribe ffmpeg transcribe_audio_file audio_size duration
            = ([], Raise ZeroDivisionError)).
Proof.
  split.
  - intros ffmpeg transcribe_audio_file audio_size duration Hsize Hd Hcd.
    destruct (plan_exact_chunking audio_size duration Hsize) as [Hplan Hmb].
    assert (Hraise : plan audio_size duration = Raise ZeroDivisionError).
    { rewrite Hplan, chunk_plan_exact_zero; auto using Qlt_le_weak. }
    split; [ exact Hraise | ].
    unfold transcribe_video, upload_transcribe. rewrite Hraise. split; reflexivity.
  - intros ffmpeg transcribe_audio_file audio_size duration mb mb_per_second q
           chunk_duration Hmb Hlt Hd H1 H2 H3 Hcd.
    pose proof (b64_chunk_duration_nonneg _ _ _ _ _ Hlt Hd H1 H2 H3) as H0.
    assert (chunk_duration = 0) by lia. subst chunk_duration.
    assert (Hraise : plan audio_size duration = Raise ZeroDivisionError).
    { unfold plan. rewrite Hmb. cbn [bind]. rewrite Hlt.
      unfold chunk_plan. rewrite H1. cbn [bind]. rewrite H2. cbn [bind].
      rewrite H3. reflexivity. }
    split; [ exact Hraise | ].
    unfold transcribe_video, upload_transcribe. rewrite Hraise. split; reflexivity.
Qed.

Lemma zero_chunk_duration_raises_witness :
  plan (F := Q) 50331648 (3 # 2)%Q = Raise ZeroDivisionError.
Proof.
  apply (proj1 zero_chunk_duration_raises ffmpeg_succeeds groq_answers_text
               50331648 (3 # 2)%Q).
  - lia.
  - reflexivity.
  - vm_compute. discriminate.
Defined.

(** ** The pair [chunk_duration], [num_chunks] (C4) *)

Lemma inject_Z_pos (z : Z) : 1 <= z -> (0 < inject_Z z)%Q.
Proof.
  intros Hz. change 0%Q with (inject_Z 0). rewrite <- Zlt_Qlt. lia.
Qed.

Lemma plan_exact_some_inv (audio_size : Z) (duration : Q) (chunk_duration num_chunks : Z) :
  plan audio_size duration = Ok (Some (chunk_duration, num_chunks)) ->
  (inject_Z MAX_FILE_SIZE_MB <= megabytes audio_size)%Q
  /\ chunk_plan (megabytes audio_size) duration = Ok (chunk_duration, num_chunks).
Proof.
  rewrite plan_exact.
  destruct (Qltb (megabytes audio_size) (inject_Z MAX_FILE_SIZE_MB)) eqn:Hlt;
    [ discriminate | ].
  destruct (chunk_plan (megabytes audio_size) duration) as [ p | e ]; cbn [bind];
    [ | discriminate ].
  intros Heq. injection Heq as ->. split; [ now apply Qltb_ge | reflexivity ].
Qed.

(** A [chunk_duration] of at least 1 gives the pair. *)
Lemma chunk_plan_exact_ok (mb duration : Q) :
  (0 < mb)%Q -> (0 < duration)%Q ->
  1 <= Qfloor (inject_Z MAX_FILE_SIZE_MB / (mb / duration)) ->
  chunk_plan mb duration
  = Ok (Qfloor (inject_Z MAX_FILE_SIZE_MB / (mb / duration)),
        Qceiling (duration
                  / inject_Z (Qfloor (inject_Z MAX_FILE_SIZE_MB / (mb / duration))))).
Proof.
  intros Hmb Hd Hcd. rewrite chunk_plan_exact. unfold Qtruediv.
  assert (Hd0 : Qeq_bool duration 0 = false).
  { apply not_true_is_false. intros E. apply Qeq_bool_eq in E.
    rewrite E in Hd. discriminate. }
  assert (Hr : Qeq_bool (mb / duration) 0 = false).
  { apply not_true_is_false. intros E. apply Qeq_bool_eq in E.
    assert (Hpos : (0 < mb / duration)%Q)
      by (apply Qlt_shift_div_l; [ assumption | now rewrite Qmult_0_l ]).
    rewrite E in Hpos. discriminate. }
  rewrite Hd0. cbn [bind]. rewrite Hr. cbn [bind].
  remember (Qfloor (inject_Z MAX_FILE_SIZE_MB / (mb / duration))) as cd eqn:Hcdeq.
  assert (Hc : Qeq_bool (inject_Z cd) 0 = false).
  { apply not_true_is_false. intros E. apply Qeq_bool_eq in E.
    pose proof (inject_Z_pos cd Hcd) as Hpos. rewrite E in Hpos. discriminate. }
  rewrite Hc. reflexivity.
Qed.

(** C4: when chunking is required and the duration is positive, every
    pair the chunking branch produces has [chunk_duration >= 1] and
    [num_chunks = ceil(duration / chunk_duration)], in exact arithmetic
    and in binary64; and in exact arithmetic it does produce the pair
    whenever [floor(24 / (audio_size_mb / duration))] is at least 1. *)
Theorem chunk_plan_invariant :
  (forall (audio_size : Z) (duration : Q),
      24 * 1024 * 1024 <= audio_size ->
      (0 < duration)%Q ->
      (forall chunk_duration num_chunks,
          plan audio_size duration = Ok (Some (chunk_duration, num_chunks)) ->
          1 <= chunk_duration
          /\ num_chunks = Qceiling (duration / inject_Z chunk_duration))
      /\ (1 <= Qfloor (inject_Z MAX_FILE_SIZE_MB / (megabytes audio_size / duration)) ->
          exists chunk_duration num_chunks,
            plan audio_size duration = Ok (Some (chunk_duration, num_chunks))))
  /\ (forall (audio_size : Z) (duration : float) (chunk_duration num_chunks : Z),
         flt (of_int 0) duration = true ->
         plan audio_size duration = Ok (Some (chunk_duration, num_chunks)) ->
         1 <= chunk_duration
         /\ exists r,
             truediv duration (of_int chunk_duration) = Ok r
             /\ math_ceil r = Ok num_chunks).
Proof.
  split.
  - intros audio_size duration Hsize Hd.
    destruct (plan_exact_chunking audio_size duration Hsize) as [Hchunk Hmb].
    split.
    + intros chunk_duration num_chunks Hplan.
      apply plan_exact_some_inv in Hplan. destruct Hplan as [_ Hcp].
      apply chunk_plan_exact_inv in Hcp. destruct Hcp as [_ [Hcd [Hnz Hn]]].
      split; [ | exact Hn ].
      assert (Hpos : (0 <= inject_Z MAX_FILE_SIZE_MB
                           / (megabytes audio_size / duration))%Q).
      { apply Qmult_le_0_compat; [ discriminate | ].
        apply Qinv_le_0_compat. apply Qmult_le_0_compat.
        - now apply Qlt_le_weak.
        - apply Qinv_le_0_compat. now apply Qlt_le_weak. }
      apply Qfloor_resp_le in Hpos. change (Qfloor 0) with 0 in Hpos.
      rewrite <- Hcd in Hpos. lia.
    + intros Hcd. rewrite Hchunk, chunk_plan_exact_ok by assumption.
      eexists. eexists. reflexivity.
  - intros audio_size duration chunk_duration num_chunks Hd Hplan.
    apply plan_some_inv in Hplan. destruct Hplan as [mb [_ [Hlt Hcp]]].
    exact (b64_chunk_plan_inv mb duration chunk_duration num_chunks Hlt Hd Hcp).
Qed.

Lemma chunk_plan_invariant_witness :
  1 <= 288 /\ 3 = Qceiling (600 / inject_Z 288).
Proof.
  refine (proj1 (proj1 chunk_plan_invariant 52428800 600%Q _ _) 288 3 _).
  - lia.
  - reflexivity.
  - vm_compute. reflexivity.
Defined.

(** ** The chunks cover the audio (C10) *)







(** ** Fifty megabytes, ten minutes (C9) *)

(** C9: 50 MB (52428800 bytes) of audio lasting 600 s is chunked, with
    [chunk_duration = 288] and [num_chunks = 3], in exact arithmetic and
    in binary64; and, ffmpeg and the Groq API succeeding, each route
    extracts exactly three chunks, at 0, 288 and 576 s, each for 288 s,
    one after the other. *)
Theorem fifty_megabytes_ten_minutes
        (ffmpeg : Z -> Z -> Z -> py bool)
        (transcribe_audio_file : path -> py (groq_result float)) :
  (forall i start_time chunk_duration, ffmpeg i start_time chunk_duration = Ok true) ->
  (forall f, exists r, transcribe_audio_file f = Ok r) ->
  plan (F := Q) 52428800 600%Q = Ok (Some (288, 3))
  /\ plan (F := float) 52428800 600%float = Ok (Some (288, 3))
  /\ fst (transcribe_video ffmpeg transcribe_audio_file 52428800 600%float)
     = [ffmpeg_extract 0 0 288; groq_transcribe (chunk_file 0); os_remove (chunk_file 0);
        ffmpeg_extract 1 288 288; groq_transcribe (chunk_file 1); os_remove (chunk_file 1);
        ffmpeg_extract 2 576 288; groq_transcribe (chunk_file 2); os_remove (chunk_file 2)]
  /\ fst (upload_transcribe ffmpeg transcribe_audio_file 52428800 600%float)
     = [ffmpeg_extract 0 0 288; groq_transcribe (chunk_file 0); os_remove (chunk_file 0);
        ffmpeg_extract 1 288 288; groq_transcribe (chunk_file 1); os_remove (chunk_file 1);
        ffmpeg_extract 2 576 288; groq_transcribe (chunk_file 2); os_remove (chunk_file 2)].
Proof.
  intros Hffmpeg Hgroq.
  assert (Hplan : plan (F := float) 52428800 600%float = Ok (Some (288, 3)))
    by (vm_compute; reflexivity).
  split; [ vm_compute; reflexivity | ].
  split; [ exact Hplan | ].
  exact (chunked_routes_trace ffmpeg transcribe_audio_file Hffmpeg Hgroq _ _ _ _ Hplan).
Qed.

Lemma fifty_megabytes_ten_minutes_witness :
  plan (F := float) 52428800 600%float = Ok (Some (288, 3)).
Proof.
  refine (proj1 (proj2 (fifty_megabytes_ten_minutes ffmpeg_succeeds groq_answers_text _ _))).
  - reflexivity.
  - intros f. eexists. reflexivity.
Defined.

(** * Further properties *)

(** ** The merger: how it composes *)

Lemma for_append_from {A E : Type} (f : A -> py E) (xs : list A) :
  forall acc,
    for_ xs (fun x acc => e <- f x ;; Ok (acc ++ [e])) acc
    = (es <- for_ xs (fun x acc => e <- f x ;; Ok (acc ++ [e])) [] ;; Ok (acc ++ es)).
Proof.
  induction xs as [ | x xs IH ]; intros acc; simpl.
  - now rewrite app_nil_r.
  - destruct (f x) as [ e | err ]; simpl; [ | reflexivity ].
    rewrite IH, (IH [e]).
    destruct (for_ xs _ []) as [ es | err ]; simpl; [ | reflexivity ].
    now rewrite <- app_assoc.
Qed.

Section MergeFrom.

Context {F : Type} `{Float F}.

Lemma merge_item_from (it : item F) (evs : list event) :
  merge_item it evs = (es <- merge_item it [] ;; Ok (evs ++ es)).
Proof.
  unfold merge_item.
  destruct (r_segments (result it)) as [ segments | ]; [ | destruct (r_text (result it)) ].
  - apply for_append_from.
  - destruct (py_int _) as [ t | ]; reflexivity.
  - simpl. now rewrite app_nil_r.
Qed.

Lemma for_merge_item_from (its : list (item F)) :
  forall evs,
    for_ its merge_item evs = (es <- for_ its merge_item [] ;; Ok (evs ++ es)).
Proof.
  induction its as [ | it its IH ]; intros evs; simpl.
  - now rewrite app_nil_r.
  - rewrite (merge_item_from it evs).
    destruct (merge_item it []) as [ es1 | err ]; simpl; [ | reflexivity ].
    rewrite IH, (IH es1).
    destruct (for_ its merge_item []) as [ es2 | err ]; simpl; [ | reflexivity ].
    now rewrite app_assoc.
Qed.

Lemma merge_item_without_events (it : item F) (evs : list event) :
  has_events it = false -> merge_item it evs = Ok evs.
Proof.
  unfold has_events, merge_item.
  destruct (r_segments (result it)) as [ [ | s segments ] | ];
    [ | discriminate | destruct (r_text (result it)); [ discriminate | ] ]; reflexivity.
Qed.

End MergeFrom.

(** X1: merging a list of fragments gives the events of its first part
    followed by the events of the rest: [merge_transcripts (before ++
    after)] returns the events that [merge_transcripts before] returns
    followed by those that [merge_transcripts after] returns, and raises
    what the first of the two to fail raises.  On any floats. *)
Theorem merge_transcripts_app {F : Type} `{Float F} (before after : list (item F)) :
  merge_transcripts (before ++ after)
  = (t1 <- merge_transcripts before ;;
     t2 <- merge_transcripts after ;;
     Ok {| events := events t1 ++ events t2 |}).
Proof.
  unfold merge_transcripts. rewrite for_app.
  destruct (for_ before merge_item []) as [ e1 | err ]; simpl; [ | reflexivity ].
  rewrite for_merge_item_from.
  destruct (for_ after merge_item []) as [ e2 | err ]; reflexivity.
Qed.

(** X2: a fragment for which no event is appended (an empty ['segments']
    list, with or without a text, or neither ['segments'] nor ['text'])
    can be left out of the input: the result is the same, events and
    exception.  On any floats. *)
Theorem merge_transcripts_skips_empty {F : Type} `{Float F} (transcripts : list (item F)) :
  merge_transcripts (filter has_events transcripts) = merge_transcripts transcripts.
Proof.
  unfold merge_transcripts. f_equal.
  generalize (@nil event).
  induction transcripts as [ | it its IH ]; intros evs; simpl; [ reflexivity | ].
  destruct (has_events it) eqn:Hit; simpl.
  - destruct (merge_item it evs); simpl; [ apply IH | reflexivity ].
  - rewrite (merge_item_without_events it evs Hit). simpl. apply IH.
Qed.








(** Without the precondition: a segment that starts before 0. *)
Example delay_of_negative_start :
  merge_transcripts (F := Q)
    [{| result := {| r_segments := Some [{| seg_start := (-1 # 2)%Q; seg_end := 2%Q;
                                            seg_text := "a" |}];
                     r_text := None |};
        startTime := 0%Q |}]
  = Ok {| events := [{| tStartMs := -500; dDurationMs := 2500; segs := [{| utf8 := "a" |}] |}] |}.
Proof. vm_compute. reflexivity. Qed.




(** ** Step 4 in exact arithmetic: what the pair means *)







(** ** The routes in any world *)



Section AnyWorld.

Context {F : Type} `{Float F}.

Variable ffmpeg : Z -> Z -> Z -> py bool.
Variable transcribe_audio_file : path -> py (groq_result F).

(** One iteration of [transcribe_video]'s loop, by what ffmpeg and the
    Groq API answer. *)
Lemma transcribe_video_chunk_cases (chunk_duration i : Z) (transcripts : list (item F)) :
  transcribe_video_chunk ffmpeg transcribe_audio_file chunk_duration i transcripts
  = match ffmpeg i (i * chunk_duration) chunk_duration with
    | Raise e => ([ffmpeg_extract i (i * chunk_duration) chunk_duration], Raise e)
    | Ok false =>
        ([ffmpeg_extract i (i * chunk_duration) chunk_duration],
         Raise (Exception (failed_to_create_chunk (i + 1))))
    | Ok true =>
        match transcribe_audio_file (chunk_file i) with
        | Raise e =>
            ([ffmpeg_extract i (i * chunk_duration) chunk_duration;
              groq_transcribe (chunk_file i)], Raise e)
        | Ok r =>
            (chunk_actions chunk_duration i,
             Ok (transcripts ++ [{| result := r; startTime := of_int (i * chunk_duration) |}]))
        end
    end.
Proof.
  unfold transcribe_video_chunk.
  destruct (ffmpeg i (i * chunk_duration) chunk_duration) as [ [ | ] | e ]; try reflexivity.
  destruct (transcribe_audio_file (chunk_file i)) as [ r | e ]; reflexivity.
Qed.

Lemma upload_transcribe_chunk_cases (chunk_duration i : Z) (transcripts : list (item F)) :
  upload_transcribe_chunk ffmpeg transcribe_audio_file chunk_duration i transcripts
  = match ffmpeg i (i * chunk_duration) chunk_duration with
    | Raise e => ([ffmpeg_extract i (i * chunk_duration) chunk_duration], Raise e)
    | Ok false =>
        ([ffmpeg_extract i (i * chunk_duration) chunk_duration], Raise FileNotFoundError)
    | Ok true =>
        match transcribe_audio_file (chunk_file i) with
        | Raise e =>
            ([ffmpeg_extract i (i * chunk_duration) chunk_duration;
              groq_transcribe (chunk_file i)], Raise e)
        | Ok r =>
            (chunk_actions chunk_duration i,
             Ok (transcripts ++ [{| result := r; startTime := of_int (i * chunk_duration) |}]))
        end
    end.
Proof.
  unfold upload_transcribe_chunk.
  destruct (ffmpeg i (i * chunk_duration) chunk_duration) as [ [ | ] | e ]; try reflexivity.
  destruct (transcribe_audio_file (chunk_file i)) as [ r | e ]; reflexivity.
Qed.

(** The two loops do the same to the world, and return the same
    fragments when they return. *)
Lemma chunk_loops_agree (chunk_duration : Z) (xs : list Z) :
  forall transcripts,
    let video := io_for xs (transcribe_video_chunk ffmpeg transcribe_audio_file chunk_duration)
                        transcripts in
    let upload := io_for xs (upload_transcribe_chunk ffmpeg transcribe_audio_file chunk_duration)
                         transcripts in
    fst upload = fst video
    /\ forall ts, snd video = Ok ts <-> snd upload = Ok ts.
Proof.
  induction xs as [ | i xs IH ]; intros transcripts; cbn zeta.
  - split; [ reflexivity | intros ts; reflexivity ].
  - cbn [io_for]. rewrite transcribe_video_chunk_cases, upload_transcribe_chunk_cases.
    destruct (ffmpeg i (i * chunk_duration) chunk_duration) as [ [ | ] | e ]; cbn [io_bind fst snd].
    + destruct (transcribe_audio_file (chunk_file i)) as [ r | e ]; cbn [io_bind fst snd].
      * specialize (IH (transcripts
                          ++ [{| result := r; startTime := of_int (i * chunk_duration) |}])).
        cbn zeta in IH. destruct IH as [Htrace Hres].
        destruct (io_for xs (transcribe_video_chunk _ _ _) _) as [tv rv].
        destruct (io_for xs (upload_transcribe_chunk _ _ _) _) as [tu ru].
        cbn [fst snd] in *. now subst tu.
      * split; [ reflexivity | intros ts; split; discriminate ].
    + split; [ reflexivity | intros ts; split; discriminate ].
    + split; [ reflexivity | intros ts; split; discriminate ].
Qed.

(** Every action of the loop belongs to the iteration of a chunk, and
    comes after what it needs in that iteration. *)
Lemma transcribe_video_loop_actions (chunk_duration num_chunks : Z) (xs : list Z) :
  (forall i, In i xs -> 0 <= i < num_chunks) ->
  forall transcripts a,
    In a (fst (io_for xs (transcribe_video_chunk ffmpeg transcribe_audio_file chunk_duration)
                      transcripts)) ->
    chunk_action_allowed ffmpeg transcribe_audio_file chunk_duration num_chunks a.
Proof.
  induction xs as [ | i xs IH ]; intros Hxs transcripts a; [ intros [] | ].
  assert (Hi : 0 <= i < num_chunks) by (apply Hxs; now left).
  assert (Hxs' : forall j, In j xs -> 0 <= j < num_chunks) by (intros j Hj; apply Hxs; now right).
  cbn [io_for]. rewrite transcribe_video_chunk_cases.
  destruct (ffmpeg i (i * chunk_duration) chunk_duration) as [ [ | ] | e ] eqn:Hff;
    cbn [io_bind fst].
  - destruct (transcribe_audio_file (chunk_file i)) as [ r | e ] eqn:Hgr; cbn [io_bind fst].
    + destruct (io_for xs _ _) as [t res] eqn:Hloop. cbn [fst].
      intros Hin. apply in_app_or in Hin. destruct Hin as [Hin | Hin].
      * exists i. split; [ assumption | ].
        destruct Hin as [<- | [<- | [<- | []]]]; [ now left | right; left; now split | ].
        right; right. repeat split; [ assumption | now exists r ].
      * apply (IH Hxs' (transcripts
                          ++ [{| result := r; startTime := of_int (i * chunk_duration) |}])).
        now rewrite Hloop.
    + intros [<- | [<- | []]]; exists i; (split; [ assumption | ]);
        [ now left | right; left; now split ].
  - intros [<- | []]. exists i. split; [ assumption | now left ].
  - intros [<- | []]. exists i. split; [ assumption | now left ].
Qed.


End AnyWorld.

(** With a plan to chunk, the routes are their loops and the merger. *)
Lemma transcribe_video_chunking {F : Type} `{Float F}
      (ffmpeg : Z -> Z -> Z -> py bool) (transcribe_audio_file : path -> py (groq_result F))
      (audio_size : Z) (duration : F) (chunk_duration num_chunks : Z) :
  plan audio_size duration = Ok (Some (chunk_duration, num_chunks)) ->
  transcribe_video ffmpeg transcribe_audio_file audio_size duration
  = io_bind (io_for (range num_chunks)
                    (transcribe_video_chunk ffmpeg transcribe_audio_file chunk_duration) [])
            (fun transcripts => lift (merge_transcripts transcripts)).
Proof.
  intros Hplan. unfold transcribe_video. now rewrite Hplan, io_bind_lift_ok.
Qed.

Lemma upload_transcribe_chunking {F : Type} `{Float F}
      (ffmpeg : Z -> Z -> Z -> py bool) (transcribe_audio_file : path -> py (groq_result F))
      (audio_size : Z) (duration : F) (chunk_duration num_chunks : Z) :
  plan audio_size duration = Ok (Some (chunk_duration, num_chunks)) ->
  upload_transcribe ffmpeg transcribe_audio_file audio_size duration
  = io_bind (io_for (range num_chunks)
                    (upload_transcribe_chunk ffmpeg transcribe_audio_file chunk_duration) [])
            (fun transcripts =>
               io_bind (lift (merge_transcripts transcripts))
                       (fun transcript => lift (Ok (inr transcript)))).
Proof.
  intros Hplan. unfold upload_transcribe. now rewrite Hplan, io_bind_lift_ok.
Qed.

(** A plan that raises ends a route before it does anything. *)
Lemma routes_without_plan {F : Type} `{Float F}
      (ffmpeg : Z -> Z -> Z -> py bool) (transcribe_audio_file : path -> py (groq_result F))
      (audio_size : Z) (duration : F) (e : exn) :
  plan audio_size duration = Raise e ->
  transcribe_video ffmpeg transcribe_audio_file audio_size duration = ([], Raise e)
  /\ upload_transcribe ffmpeg transcribe_audio_file audio_size duration = ([], Raise e).
Proof.
  intros Hplan. unfold transcribe_video, upload_transcribe. rewrite Hplan. now split.
Qed.

Lemma io_bind_lift_snd {A B : Type} (m : io A) (f : A -> py B) :
  snd (io_bind m (fun a => lift (f a))) = bind (snd m) f.
Proof.
  destruct m as [t [a | e]]; reflexivity.
Qed.

(** X8: from the size test on, and with the same answers from ffmpeg and
    the Groq API, [upload_transcribe] and [transcribe_video] do the same
    chunk extractions, Groq calls and removals in the same order,
    whatever fails; and when chunks are planned, one of them returns a
    transcript exactly when the other returns the same one.  On any
    floats. *)
Theorem routes_same_actions {F : Type} `{Float F}
        (ffmpeg : Z -> Z -> Z -> py bool) (transcribe_audio_file : path -> py (groq_result F))
        (audio_size : Z) (duration : F) :
  fst (upload_transcribe ffmpeg transcribe_audio_file audio_size duration)
  = fst (transcribe_video ffmpeg transcribe_audio_file audio_size duration)
  /\ forall chunk_duration num_chunks,
      plan audio_size duration = Ok (Some (chunk_duration, num_chunks)) ->
      forall transcript,
        snd (transcribe_video ffmpeg transcribe_audio_file audio_size duration) = Ok transcript
        <-> snd (upload_transcribe ffmpeg transcribe_audio_file audio_size duration)
            = Ok (inr transcript).
Proof.
  destruct (plan audio_size duration) as [ [ [chunk_duration num_chunks] | ] | e ] eqn:Hplan.
  - rewrite (transcribe_video_chunking _ _ _ _ _ _ Hplan),
      (upload_transcribe_chunking _ _ _ _ _ _ Hplan).
    destruct (chunk_loops_agree ffmpeg transcribe_audio_file chunk_duration
                                (range num_chunks) []) as [Htrace Hres].
    cbn zeta in Htrace, Hres.
    destruct (io_for (range num_chunks) (transcribe_video_chunk _ _ _) [])
      as [tv [tsv | ev]];
      destruct (io_for (range num_chunks) (upload_transcribe_chunk _ _ _) [])
      as [tu [tsu | eu]]; cbn [fst snd] in *; subst tu.
    + assert (Hts : tsu = tsv).
      { assert (Hv : Ok tsv = Ok tsv :> py (list (item F))) by reflexivity.
        apply Hres in Hv. now injection Hv. }
      subst tsu. cbn [io_bind lift].
      destruct (merge_transcripts tsv) as [ t | e ]; cbn [io_bind fst snd app].
      * split; [ reflexivity | ]. intros cd n Heq t'. split; intros Ht; now injection Ht as <-.
      * split; [ reflexivity | ]. intros cd n Heq t'. split; discriminate.
    + exfalso. assert (Hv : Ok tsv = Ok tsv :> py (list (item F))) by reflexivity.
      apply Hres in Hv. discriminate Hv.
    + exfalso. assert (Hu : Ok tsu = Ok tsu :> py (list (item F))) by reflexivity.
      apply Hres in Hu. discriminate Hu.
    + cbn [io_bind fst snd]. split; [ reflexivity | ].
      intros cd n Heq t'. split; discriminate.
  - destruct (single_file_routes ffmpeg transcribe_audio_file audio_size duration Hplan)
      as [-> ->].
    split; [ reflexivity | ]. intros cd n Heq. discriminate Heq.
  - destruct (routes_without_plan ffmpeg transcribe_audio_file audio_size duration e Hplan)
      as [-> ->].
    split; [ reflexivity | ]. intros cd n Heq. discriminate Heq.
Qed.

Lemma routes_same_actions_witness :
  snd (transcribe_video (F := float) ffmpeg_succeeds groq_answers_text 52428800 600%float)
  = Ok {| events := [] |}
  <-> snd (upload_transcribe (F := float) ffmpeg_succeeds groq_answers_text
                             52428800 600%float)
      = Ok (inr {| events := [] |}).
Proof.
  refine (proj2 (routes_same_actions ffmpeg_succeeds groq_answers_text 52428800 600%float)
                288 3 _ {| events := [] |}).
  vm_compute. reflexivity.
Defined.

(** With a plan to chunk, every action of a route is an action of its
    loop. *)
Lemma chunking_actions {F : Type} `{Float F}
      (ffmpeg : Z -> Z -> Z -> py bool) (transcribe_audio_file : path -> py (groq_result F))
      (audio_size : Z) (duration : F) (chunk_duration num_chunks : Z) (a : action) :
  plan audio_size duration = Ok (Some (chunk_duration, num_chunks)) ->
  In a (fst (transcribe_video ffmpeg transcribe_audio_file audio_size duration)) ->
  chunk_action_allowed ffmpeg transcribe_audio_file chunk_duration num_chunks a.
Proof.
  intros Hplan. rewrite (transcribe_video_chunking _ _ _ _ _ _ Hplan).
  rewrite io_bind_fst_silent by reflexivity.
  apply transcribe_video_loop_actions. intros i. apply In_range.
Qed.

(** X10: when chunks are planned, every action of either route is one on
    a chunk [i] of [range(num_chunks)], whatever ffmpeg and the Groq API
    answer: an extraction of [chunk_duration] seconds from
    [i * chunk_duration]; or a Groq call on the chunk, which ffmpeg has
    then created; or the removal of the chunk, which ffmpeg has then
    created and the Groq API has transcribed.  On any floats. *)
Theorem chunk_actions_in_order {F : Type} `{Float F}
        (ffmpeg : Z -> Z -> Z -> py bool) (transcribe_audio_file : path -> py (groq_result F))
        (audio_size : Z) (duration : F) (chunk_duration num_chunks : Z) (a : action) :
  plan audio_size duration = Ok (Some (chunk_duration, num_chunks)) ->
  In a (fst (transcribe_video ffmpeg transcribe_audio_file audio_size duration))
  \/ In a (fst (upload_transcribe ffmpeg transcribe_audio_file audio_size duration)) ->
  exists i,
    0 <= i < num_chunks
    /\ (a = ffmpeg_extract i (i * chunk_duration) chunk_duration
        \/ (a = groq_transcribe (chunk_file i)
            /\ ffmpeg i (i * chunk_duration) chunk_duration = Ok true)
        \/ (a = os_remove (chunk_file i)
            /\ ffmpeg i (i * chunk_duration) chunk_duration = Ok true
            /\ exists r, transcribe_audio_file (chunk_file i) = Ok r)).
Proof.
  intros Hplan Hin.
  apply (chunking_actions ffmpeg transcribe_audio_file audio_size duration _ _ a Hplan).
  destruct Hin as [Hin | Hin]; [ assumption | ].
  now rewrite (proj1 (routes_same_actions ffmpeg transcribe_audio_file audio_size duration))
    in Hin.
Qed.

Lemma chunk_actions_in_order_witness :
  exists i,
    0 <= i < 3
    /\ (groq_transcribe (chunk_file 1) = ffmpeg_extract i (i * 288) 288
        \/ (groq_transcribe (chunk_file 1) = groq_transcribe (chunk_file i)
            /\ ffmpeg_succeeds i (i * 288) 288 = Ok true)
        \/ (groq_transcribe (chunk_file 1) = os_remove (chunk_file i)
            /\ ffmpeg_succeeds i (i * 288) 288 = Ok true
            /\ exists r, groq_answers_text (F := float) (chunk_file i) = Ok r)).
Proof.
  apply (chunk_actions_in_order ffmpeg_succeeds groq_answers_text 52428800 600%float 288 3).
  - vm_compute. reflexivity.
  - left. vm_compute. tauto.
Defined.






Section FirstFailure.

Context {F : Type} `{Float F}.

Variable ffmpeg : Z -> Z -> Z -> py bool.
Variable transcribe_audio_file : path -> py (groq_result F).
Variable chunk_result : Z -> groq_result F.


Variables (audio_size : Z) (duration : F) (chunk_duration num_chunks : Z).

Hypothesis chunking : plan audio_size duration = Ok (Some (chunk_duration, num_chunks)).

(** The first [k] chunks are created and transcribed. *)
Variable k : Z.
Hypothesis ffmpeg_ok : forall i,
    0 <= i < k -> ffmpeg i (i * chunk_duration) chunk_duration = Ok true.
Hypothesis groq_ok : forall i,
    0 <= i < k -> transcribe_audio_file (chunk_file i) = Ok (chunk_result i).



End FirstFailure.








(** ** [mask_sensitive_data] *)

Ltac each_ascii c :=
  destruct c as [[ | ] [ | ] [ | ] [ | ] [ | ] [ | ] [ | ] [ | ]].

Section Masking.

Local Open Scope string_scope.
Local Open Scope nat_scope.

Example mask_url :
  mask_sensitive_data
    "http://127.0.0.1:8675/transcribe-video?url=https://youtu.be/x&groqApiKey=gsk_Ab12&API-Key=s3cr3t&language=en"
  = "http://127.0.0.1:8675/transcribe-video?url=https://youtu.be/x&groqApiKey=***MASKED***&API-Key=***MASKED***&language=en".
Proof. vm_compute. reflexivity. Qed.

(** What is not masked: the rest of a key that holds another character
    than a letter or a digit; a second key glued to a first one; a key
    under a name in another case. *)
Example mask_limits :
  mask_sensitive_data "?groqApiKey=gsk_abc-def&x=1" = "?groqApiKey=***MASKED***-def&x=1"
  /\ mask_sensitive_data "groqApiKey=gsk_XgroqApiKey=gsk_SECRET"
     = "groqApiKey=***MASKED***=gsk_SECRET"
  /\ mask_sensitive_data "?groqapikey=gsk_abc" = "?groqapikey=gsk_abc".
Proof. repeat split; vm_compute; reflexivity. Qed.

Lemma append_nil_r (s : string) : s ++ "" = s.
Proof. induction s as [ | c s IH ]; simpl; [ reflexivity | now rewrite IH ]. Qed.

Lemma append_assoc (a b c : string) : (a ++ b) ++ c = a ++ (b ++ c).
Proof. induction a as [ | x a IH ]; simpl; [ reflexivity | now rewrite IH ]. Qed.

Lemma length_append (a b : string) : String.length (a ++ b) = String.length a + String.length b.
Proof. induction a as [ | x a IH ]; simpl; [ reflexivity | now rewrite IH ]. Qed.

Lemma substring_append (a b : string) : substring 0 (String.length a) (a ++ b) = a.
Proof. induction a as [ | x a IH ]; simpl; [ now destruct b | now rewrite IH ]. Qed.

(** *** Runs *)

Lemma run_length_all (f : ascii -> bool) (k b : string) :
  all_in f k = true -> ends_run f b = true -> run_length f (k ++ b) = String.length k.
Proof.
  intros Hk Hb. induction k as [ | c k IH ]; simpl in *.
  - destruct b as [ | c b ]; [ reflexivity | ]. simpl in *.
    now destruct (f c).
  - apply andb_true_iff in Hk. destruct Hk as [Hc Hk]. rewrite Hc. now rewrite IH.
Qed.

Lemma run_length_le (f : ascii -> bool) (s : string) : run_length f s <= String.length s.
Proof.
  induction s as [ | c s IH ]; simpl; [ lia | ]. destruct (f c); lia.
Qed.

(** A run does not go past a character outside the class. *)
Lemma run_length_stops (f : ascii -> bool) (a b : string) :
  ends_run f b = true -> run_length f (a ++ b) = run_length f a.
Proof.
  intros Hb. induction a as [ | c a IH ]; simpl.
  - destruct b as [ | c b ]; [ reflexivity | ]. simpl in *. now destruct (f c).
  - now rewrite IH.
Qed.

(** *** Literals *)

Lemma skip_literal_length (p s rest : string) :
  skip_literal p s = Some rest -> String.length s = String.length p + String.length rest.
Proof.
  revert s. induction p as [ | a p IH ]; intros s; simpl.
  - intros Heq. now injection Heq as ->.
  - destruct s as [ | c s ]; [ discriminate | ].
    destruct (c =? a)%char; [ | discriminate ].
    intros Heq. apply IH in Heq. simpl. lia.
Qed.

Lemma skip_literal_ignorecase_length (p s rest : string) :
  skip_literal_ignorecase p s = Some rest ->
  String.length s = String.length p + String.length rest.
Proof.
  revert s. induction p as [ | a p IH ]; intros s; simpl.
  - intros Heq. now injection Heq as ->.
  - destruct s as [ | c s ]; [ discriminate | ].
    destruct (to_lower c =? a)%char; [ | discriminate ].
    intros Heq. apply IH in Heq. simpl. lia.
Qed.

(** *** [re.sub] *)

(** After a match, its characters are skipped. *)
Lemma re_sub_from_skip (match_at : string -> option (string * nat)) (m b : string) :
  re_sub_from match_at (String.length m) (m ++ b) = re_sub_from match_at 0 b.
Proof.
  induction m as [ | c m IH ]; simpl; [ | exact IH ].
  destruct b; reflexivity.
Qed.

Lemma re_sub_match (match_at : string -> option (string * nat))
      (c : ascii) (m b replacement : string) :
  match_at (String c m ++ b) = Some (replacement, S (String.length m)) ->
  re_sub match_at (String c m ++ b) = replacement ++ re_sub match_at b.
Proof.
  intros Hm. unfold re_sub. cbn [append re_sub_from]. cbn [append] in Hm. rewrite Hm.
  cbn [Nat.pred]. now rewrite re_sub_from_skip.
Qed.

Lemma re_sub_copy (match_at : string -> option (string * nat)) (c : ascii) (s : string) :
  match_at (String c s) = None ->
  re_sub match_at (String c s) = String c (re_sub match_at s).
Proof.
  intros Hm. unfold re_sub. cbn [re_sub_from]. now rewrite Hm.
Qed.

(** A text cut where no match can go across: the two parts are
    substituted on their own. *)
Lemma re_sub_from_app (match_at : string -> option (string * nat)) (b : string) :
  (forall c a, match_at (String c a ++ b) = match_at (String c a)) ->
  (forall s replacement matched,
      match_at s = Some (replacement, matched) -> 1 <= matched <= String.length s) ->
  forall a skip,
    skip <= String.length a ->
    re_sub_from match_at skip (a ++ b)
    = re_sub_from match_at skip a ++ re_sub_from match_at 0 b.
Proof.
  intros Hcut Hlen. induction a as [ | c a IH ]; intros skip Hskip.
  - simpl in *. replace skip with 0 by lia. reflexivity.
  - cbn [append re_sub_from]. destruct skip as [ | skip ].
    + specialize (Hcut c a). cbn [append] in Hcut. rewrite Hcut.
      destruct (match_at (String c a)) as [ [replacement matched] | ] eqn:Hm.
      * apply Hlen in Hm. simpl in Hm. rewrite IH by lia. now rewrite append_assoc.
      * rewrite IH by lia. reflexivity.
    + simpl in Hskip. apply IH. lia.
Qed.

Lemma re_sub_app (match_at : string -> option (string * nat)) (a b : string) :
  (forall c a, match_at (String c a ++ b) = match_at (String c a)) ->
  (forall s replacement matched,
      match_at s = Some (replacement, matched) -> 1 <= matched <= String.length s) ->
  re_sub match_at (a ++ b) = re_sub match_at a ++ re_sub match_at b.
Proof.
  intros Hcut Hlen. unfold re_sub. apply re_sub_from_app; [ assumption | assumption | lia ].
Qed.

(** *** Classes of characters *)

Lemma not_value_char_not_key_char (c : ascii) :
  is_value_char c = false -> is_groq_key_char c = false.
Proof. each_ascii c; vm_compute; congruence. Qed.

Lemma not_key_char_not_alnum (c : ascii) : is_groq_key_char c = false -> is_alnum c = false.
Proof. each_ascii c; vm_compute; congruence. Qed.

Lemma not_value_char_lower (c : ascii) : is_value_char c = false -> to_lower c = c.
Proof. each_ascii c; vm_compute; congruence. Qed.

Lemma not_value_char_not_joiner (c : ascii) : is_value_char c = false -> is_joiner c = false.
Proof. each_ascii c; vm_compute; congruence. Qed.

Lemma all_in_weaken (f g : ascii -> bool) (s : string) :
  (forall c, f c = true -> g c = true) -> all_in f s = true -> all_in g s = true.
Proof.
  intros Hfg. induction s as [ | c s IH ]; simpl; [ reflexivity | ].
  rewrite !andb_true_iff. intros [Hc Hs]. auto.
Qed.

Lemma ends_run_weaken (f g : ascii -> bool) (s : string) :
  (forall c, f c = false -> g c = false) -> ends_run f s = true -> ends_run g s = true.
Proof.
  intros Hfg. destruct s as [ | c s ]; simpl; [ reflexivity | ].
  rewrite !negb_true_iff. apply Hfg.
Qed.

Lemma all_in_app (f : ascii -> bool) (a b : string) :
  all_in f (a ++ b) = all_in f a && all_in f b.
Proof.
  induction a as [ | c a IH ]; simpl; [ reflexivity | ]. now rewrite IH, andb_assoc.
Qed.

(** *** Literals against a text that goes on *)

(** A literal made of characters of a class does not reach into a text
    that starts outside the class. *)
Lemma skip_literal_cut (f : ascii -> bool) (p s b : string) :
  all_in f p = true -> ends_run f b = true ->
  skip_literal p (s ++ b) = option_map (fun rest => rest ++ b) (skip_literal p s).
Proof.
  intros Hp Hb. revert s. induction p as [ | a p IH ]; intros s; simpl; [ reflexivity | ].
  simpl in Hp. apply andb_true_iff in Hp. destruct Hp as [Ha Hp].
  destruct s as [ | c s ]; simpl.
  - destruct b as [ | c b ]; [ reflexivity | ]. simpl in Hb.
    destruct (Ascii.eqb_spec c a) as [-> | _]; [ | reflexivity ].
    rewrite Ha in Hb. discriminate Hb.
  - destruct (c =? a)%char; [ now apply IH | reflexivity ].
Qed.

Lemma skip_literal_ignorecase_cut (f : ascii -> bool) (p s b : string) :
  all_in f p = true -> ends_run (fun c => f (to_lower c)) b = true ->
  skip_literal_ignorecase p (s ++ b)
  = option_map (fun rest => rest ++ b) (skip_literal_ignorecase p s).
Proof.
  intros Hp Hb. revert s. induction p as [ | a p IH ]; intros s; simpl; [ reflexivity | ].
  simpl in Hp. apply andb_true_iff in Hp. destruct Hp as [Ha Hp].
  destruct s as [ | c s ]; simpl.
  - destruct b as [ | c b ]; [ reflexivity | ]. simpl in Hb.
    destruct (Ascii.eqb_spec (to_lower c) a) as [E | _]; [ | reflexivity ].
    rewrite E, Ha in Hb. discriminate Hb.
  - destruct (to_lower c =? a)%char; [ now apply IH | reflexivity ].
Qed.

Lemma skip_literal_app (p s : string) : skip_literal p (p ++ s) = Some s.
Proof.
  induction p as [ | a p IH ]; simpl; [ reflexivity | ]. now rewrite Ascii.eqb_refl.
Qed.

Lemma skip_literal_ignorecase_app (w s : string) :
  skip_literal_ignorecase (ascii_lower w) (w ++ s) = Some s.
Proof.
  induction w as [ | c w IH ]; simpl; [ reflexivity | ]. now rewrite Ascii.eqb_refl.
Qed.

(** What a literal has skipped. *)
Lemma skip_literal_inv (p s rest : string) :
  skip_literal p s = Some rest -> s = p ++ rest.
Proof.
  revert s. induction p as [ | a p IH ]; intros s; simpl.
  - intros Heq. now injection Heq as ->.
  - destruct s as [ | c s ]; [ discriminate | ].
    destruct (Ascii.eqb_spec c a) as [-> | _]; [ | discriminate ].
    intros Heq. now rewrite (IH _ Heq).
Qed.

Lemma skip_literal_ignorecase_inv (p s rest : string) :
  skip_literal_ignorecase p s = Some rest ->
  exists w, s = w ++ rest /\ ascii_lower w = p.
Proof.
  revert s. induction p as [ | a p IH ]; intros s; simpl.
  - intros Heq. injection Heq as ->. now exists "".
  - destruct s as [ | c s ]; [ discriminate | ].
    destruct (Ascii.eqb_spec (to_lower c) a) as [<- | _]; [ | discriminate ].
    intros Heq. destruct (IH _ Heq) as [w [-> <-]]. now exists (String c w).
Qed.

Lemma substring_append_le (n : nat) (a b : string) :
  n <= String.length a -> substring 0 n (a ++ b) = substring 0 n a.
Proof.
  revert n. induction a as [ | c a IH ]; intros n Hn; simpl in *.
  - replace n with 0 by lia. now destruct b.
  - destruct n as [ | n ]; [ reflexivity | ]. simpl. rewrite IH by lia. reflexivity.
Qed.

(** *** The two patterns *)

Lemma match_groq_key_length (s replacement : string) (matched : nat) :
  match_groq_key s = Some (replacement, matched) -> 1 <= matched <= String.length s.
Proof.
  unfold match_groq_key.
  destruct (skip_literal "groqApiKey=gsk_" s) as [ key | ] eqn:Hkey; [ | discriminate ].
  apply skip_literal_length in Hkey. pose proof (run_length_le is_alnum key) as Hle.
  destruct (run_length is_alnum key =? 0); [ discriminate | ].
  intros Heq. injection Heq as _ <-. simpl in Hkey. lia.
Qed.

Lemma match_api_key_length (s replacement : string) (matched : nat) :
  match_api_key s = Some (replacement, matched) -> 1 <= matched <= String.length s.
Proof.
  unfold match_api_key. destruct s as [ | c s0 ]; [ discriminate | ].
  destruct (is_separator c); [ | discriminate ].
  destruct (skip_literal_ignorecase "api" s0) as [ s1 | ] eqn:H1; [ | discriminate ].
  apply skip_literal_ignorecase_length in H1.
  set (s2 := match s1 with
             | String j s' => if is_joiner j then s' else s1
             | "" => s1
             end).
  assert (H12 : String.length s2 <= String.length s1).
  { subst s2. destruct s1 as [ | j s' ]; [ lia | ]. destruct (is_joiner j); simpl; lia. }
  destruct (skip_literal_ignorecase "key=" s2) as [ value | ] eqn:H3; [ | discriminate ].
  apply skip_literal_ignorecase_length in H3.
  pose proof (run_length_le is_value_char value) as Hle.
  destruct (run_length is_value_char value =? 0) eqn:Hn; [ discriminate | ].
  apply Nat.eqb_neq in Hn.
  set (group1 := String.length (String c s0) - String.length value).
  assert (Hg : group1 = S (String.length s0) - String.length value) by reflexivity.
  clearbody group1.
  intros Heq. injection Heq as _ <-.
  change (String.length "api") with 3 in H1. change (String.length "key=") with 4 in H3.
  change (String.length (String c s0)) with (S (String.length s0)). lia.
Qed.

(** No match of the Groq key pattern goes across a character that a key
    cannot hold. *)
Lemma match_groq_key_cut (s b : string) :
  ends_run is_groq_key_char b = true -> match_groq_key (s ++ b) = match_groq_key s.
Proof.
  intros Hb. unfold match_groq_key.
  rewrite (skip_literal_cut is_groq_key_char) by (reflexivity || assumption).
  destruct (skip_literal "groqApiKey=gsk_" s) as [ key | ]; cbn [option_map]; [ | reflexivity ].
  rewrite run_length_stops; [ reflexivity | ].
  apply (ends_run_weaken is_groq_key_char); [ apply not_key_char_not_alnum | assumption ].
Qed.

(** No match of the api key pattern goes across a [&] or a white
    space. *)
Lemma match_api_key_cut (s b : string) :
  s <> "" -> ends_run is_value_char b = true -> match_api_key (s ++ b) = match_api_key s.
Proof.
  intros Hs Hb. destruct s as [ | c s0 ]; [ contradiction | clear Hs ].
  assert (Hb' : ends_run (fun c => is_value_char (to_lower c)) b = true).
  { destruct b as [ | x b ]; [ reflexivity | ]. simpl in *.
    apply negb_true_iff in Hb. now rewrite (not_value_char_lower x Hb), Hb. }
  unfold match_api_key. cbn [append].
  destruct (is_separator c); [ | reflexivity ].
  rewrite (skip_literal_ignorecase_cut is_value_char) by (reflexivity || assumption).
  destruct (skip_literal_ignorecase "api" s0) as [ s1 | ] eqn:H1; cbn [option_map];
    [ | reflexivity ].
  set (s2 := match s1 with
             | String j s' => if is_joiner j then s' else s1
             | "" => s1
             end).
  assert (H2 : match s1 ++ b with
               | String j s' => if is_joiner j then s' else s1 ++ b
               | "" => s1 ++ b
               end = s2 ++ b).
  { subst s2. destruct s1 as [ | j s' ]; cbn [append].
    - destruct b as [ | x b ]; [ reflexivity | ]. simpl in Hb.
      apply negb_true_iff in Hb. now rewrite (not_value_char_not_joiner x Hb).
    - now destruct (is_joiner j). }
  rewrite H2.
  rewrite (skip_literal_ignorecase_cut is_value_char) by (reflexivity || assumption).
  destruct (skip_literal_ignorecase "key=" s2) as [ value | ] eqn:H3; cbn [option_map];
    [ | reflexivity ].
  rewrite run_length_stops by assumption.
  apply skip_literal_ignorecase_length in H1, H3.
  assert (H12 : String.length s2 <= String.length s1).
  { subst s2. destruct s1 as [ | j s' ]; [ lia | ]. destruct (is_joiner j); simpl; lia. }
  destruct (run_length is_value_char value =? 0); [ reflexivity | ].
  change (String c (s0 ++ b)) with (String c s0 ++ b).
  rewrite !length_append.
  replace (String.length (String c s0) + String.length b
           - (String.length value + String.length b))
    with (String.length (String c s0) - String.length value) by lia.
  rewrite substring_append_le by lia. reflexivity.
Qed.

Lemma mask_sensitive_data_eq (text : string) :
  mask_sensitive_data text = re_sub match_api_key (re_sub match_groq_key text).
Proof.
  unfold mask_sensitive_data. destruct (String.eqb_spec text "") as [-> | _]; reflexivity.
Qed.

Lemma re_sub_groq_key_cut (a b : string) :
  ends_run is_groq_key_char b = true ->
  re_sub match_groq_key (a ++ b) = re_sub match_groq_key a ++ re_sub match_groq_key b.
Proof.
  intros Hb. apply re_sub_app.
  - intros c s. now apply match_groq_key_cut.
  - apply match_groq_key_length.
Qed.

Lemma re_sub_api_key_cut (a b : string) :
  ends_run is_value_char b = true ->
  re_sub match_api_key (a ++ b) = re_sub match_api_key a ++ re_sub match_api_key b.
Proof.
  intros Hb. apply re_sub_app.
  - intros c s. now apply match_api_key_cut.
  - apply match_api_key_length.
Qed.

(** A Groq key match starts with a [g], an api key match with [&] or [?]. *)
Lemma match_groq_key_first (c : ascii) (s : string) :
  (c =? "g")%char = false -> match_groq_key (String c s) = None.
Proof.
  intros Hc. unfold match_groq_key. cbn [skip_literal]. now rewrite Hc.
Qed.

Lemma match_api_key_first (c : ascii) (s : string) :
  is_separator c = false -> match_api_key (String c s) = None.
Proof.
  intros Hc. unfold match_api_key. now rewrite Hc.
Qed.

Lemma not_key_char_not_g (c : ascii) : is_groq_key_char c = false -> (c =? "g")%char = false.
Proof. each_ascii c; vm_compute; congruence. Qed.

Lemma space_not_separator (c : ascii) : is_space c = true -> is_separator c = false.
Proof. each_ascii c; vm_compute; congruence. Qed.

(** No match of either pattern goes across a [&] or a white space. *)
Lemma mask_sensitive_data_cut (a b : string) (c : ascii) :
  is_value_char c = false ->
  mask_sensitive_data (a ++ String c b)
  = mask_sensitive_data a ++ mask_sensitive_data (String c b).
Proof.
  intros Hc. rewrite !mask_sensitive_data_eq.
  pose proof (not_value_char_not_key_char c Hc) as Hkey.
  rewrite re_sub_groq_key_cut by (cbn; now rewrite Hkey).
  rewrite (re_sub_copy match_groq_key c b)
    by (apply match_groq_key_first; now apply not_key_char_not_g).
  apply re_sub_api_key_cut. cbn. now rewrite Hc.
Qed.

(** *** What [re.sub] keeps *)

Lemma re_sub_from_all_in (f : ascii -> bool) (match_at : string -> option (string * nat)) :
  (forall s replacement matched,
      match_at s = Some (replacement, matched) -> all_in f replacement = true) ->
  forall s skip, all_in f s = true -> all_in f (re_sub_from match_at skip s) = true.
Proof.
  intros Hrep. induction s as [ | c s IH ]; intros skip Hs; [ reflexivity | ].
  simpl in Hs. apply andb_true_iff in Hs. destruct Hs as [Hc Hs].
  cbn [re_sub_from]. destruct skip as [ | skip ]; [ | now apply IH ].
  destruct (match_at (String c s)) as [ [replacement matched] | ] eqn:Hm.
  - rewrite all_in_app, (Hrep _ _ _ Hm). now apply IH.
  - simpl. rewrite Hc. now apply IH.
Qed.

Lemma match_groq_key_replacement (s replacement : string) (matched : nat) :
  match_groq_key s = Some (replacement, matched) -> replacement = "groqApiKey=" ++ MASKED.
Proof.
  unfold match_groq_key. destruct (skip_literal _ s) as [ key | ]; [ | discriminate ].
  destruct (run_length is_alnum key =? 0); [ discriminate | ].
  intros Heq. now injection Heq as <- _.
Qed.

Lemma re_sub_groq_key_value (v : string) :
  all_in is_value_char v = true -> all_in is_value_char (re_sub match_groq_key v) = true.
Proof.
  apply re_sub_from_all_in. intros s replacement matched Hm.
  now rewrite (match_groq_key_replacement _ _ _ Hm).
Qed.

Lemma re_sub_groq_key_nonempty (v : string) : v <> "" -> re_sub match_groq_key v <> "".
Proof.
  destruct v as [ | c v ]; [ contradiction | intros _ ].
  unfold re_sub. cbn [re_sub_from].
  destruct (match_groq_key (String c v)) as [ [replacement matched] | ] eqn:Hm;
    [ | discriminate ].
  rewrite (match_groq_key_replacement _ _ _ Hm). discriminate.
Qed.

Lemma re_sub_groq_key_ends_run (b : string) :
  ends_run is_value_char b = true -> ends_run is_value_char (re_sub match_groq_key b) = true.
Proof.
  destruct b as [ | c b ]; [ reflexivity | ]. cbn [ends_run]. intros Hc.
  apply negb_true_iff in Hc.
  rewrite re_sub_copy.
  - cbn. now rewrite Hc.
  - apply match_groq_key_first, not_key_char_not_g. now apply not_value_char_not_key_char.
Qed.

(** *** A text without [=] *)

Lemma all_in_is_not_app (x : ascii) (a b : string) :
  all_in (is_not x) (a ++ String x b) = false.
Proof.
  induction a as [ | c a IH ]; simpl.
  - unfold is_not. now rewrite Ascii.eqb_refl.
  - rewrite IH. apply andb_false_r.
Qed.

Lemma match_groq_key_has_equals (s : string) :
  all_in (is_not "=") s = true -> match_groq_key s = None.
Proof.
  intros Hs. unfold match_groq_key.
  destruct (skip_literal "groqApiKey=gsk_" s) as [ key | ] eqn:Hkey; [ | reflexivity ].
  apply skip_literal_inv in Hkey. subst s.
  change ("groqApiKey=gsk_" ++ key) with ("groqApiKey" ++ String "=" ("gsk_" ++ key)) in Hs.
  rewrite all_in_is_not_app in Hs. discriminate Hs.
Qed.

(** Two ways to cut one text, each before a character that the other
    part before the cut does not hold: the same cut. *)
Lemma cut_unique (x y : ascii) (w a t u : string) :
  w ++ String x t = a ++ String y u ->
  all_in (is_not x) a = true -> all_in (is_not y) w = true -> x = y.
Proof.
  revert a. induction w as [ | c w IH ]; intros a Heq Ha Hw.
  - destruct a as [ | d a ]; simpl in *.
    + now injection Heq.
    + injection Heq as <- _. apply andb_true_iff in Ha. destruct Ha as [Hx _].
      unfold is_not in Hx. now rewrite Ascii.eqb_refl in Hx.
  - destruct a as [ | d a ]; simpl in *.
    + injection Heq as -> _. apply andb_true_iff in Hw. destruct Hw as [Hy _].
      unfold is_not in Hy. now rewrite Ascii.eqb_refl in Hy.
    + injection Heq as <- Heq.
      apply andb_true_iff in Ha, Hw. destruct Ha as [_ Ha]. destruct Hw as [_ Hw].
      now apply (IH a).
Qed.

Lemma lower_not_question (p w : string) :
  ascii_lower w = p -> all_in (is_not "?") p = true -> all_in (is_not "?") w = true.
Proof.
  intros <-. induction w as [ | c w IH ]; simpl; [ reflexivity | ].
  rewrite !andb_true_iff. intros [Hc Hw]. split; [ | now apply IH ].
  revert Hc. clear. each_ascii c; vm_compute; congruence.
Qed.

(** A match of the api key pattern: a separator, a name without [?],
    an [=], and the value. *)
Lemma match_api_key_inv (s replacement : string) (matched : nat) :
  match_api_key s = Some (replacement, matched) ->
  exists c name value,
    s = String c (name ++ String "=" value) /\ all_in (is_not "?") name = true.
Proof.
  unfold match_api_key. destruct s as [ | c s0 ]; [ discriminate | ].
  destruct (is_separator c); [ | discriminate ].
  destruct (skip_literal_ignorecase "api" s0) as [ s1 | ] eqn:H1; [ | discriminate ].
  apply skip_literal_ignorecase_inv in H1. destruct H1 as [api [-> Hapi]].
  set (s2 := match s1 with
             | String j s' => if is_joiner j then s' else s1
             | "" => s1
             end).
  assert (Hj : exists joiner, s1 = joiner ++ s2 /\ all_in (is_not "?") joiner = true).
  { subst s2. destruct s1 as [ | j s' ]; [ now exists "" | ].
    destruct (is_joiner j) eqn:Hj; [ | now exists "" ].
    exists (String j ""). split; [ reflexivity | ].
    revert Hj. clear. each_ascii j; vm_compute; congruence. }
  clearbody s2. destruct Hj as [joiner [-> Hjoiner]].
  destruct (skip_literal_ignorecase "key=" s2) as [ value | ] eqn:H3; [ | discriminate ].
  intros _.
  change "key=" with (String "k" (String "e" (String "y" (String "=" "")))) in H3.
  cbn [skip_literal_ignorecase] in H3.
  destruct s2 as [ | k1 [ | k2 [ | k3 [ | k4 rest ] ] ] ]; try discriminate H3;
    try (destruct (to_lower k1 =? "k")%char; discriminate H3);
    try (destruct (to_lower k1 =? "k")%char; [ | discriminate H3 ];
         destruct (to_lower k2 =? "e")%char; discriminate H3);
    try (destruct (to_lower k1 =? "k")%char; [ | discriminate H3 ];
         destruct (to_lower k2 =? "e")%char; [ | discriminate H3 ];
         destruct (to_lower k3 =? "y")%char; discriminate H3).
  destruct (Ascii.eqb_spec (to_lower k1) "k") as [E1 | _]; [ | discriminate H3 ].
  destruct (Ascii.eqb_spec (to_lower k2) "e") as [E2 | _]; [ | discriminate H3 ].
  destruct (Ascii.eqb_spec (to_lower k3) "y") as [E3 | _]; [ | discriminate H3 ].
  destruct (Ascii.eqb_spec (to_lower k4) "=") as [E4 | _]; [ | discriminate H3 ].
  assert (k4 = "="%char) by (revert E4; clear; each_ascii k4; vm_compute; congruence).
  subst k4.
  exists c, (api ++ joiner ++ String k1 (String k2 (String k3 ""))), rest.
  split.
  - now rewrite !append_assoc.
  - rewrite !all_in_app, Hjoiner, (lower_not_question "api" api Hapi) by reflexivity.
    rewrite (lower_not_question "key" (String k1 (String k2 (String k3 ""))))
      by (simpl; congruence || reflexivity).
    reflexivity.
Qed.

Lemma match_api_key_has_equals (s : string) :
  all_in (is_not "=") s = true -> match_api_key s = None.
Proof.
  intros Hs. destruct (match_api_key s) as [ [replacement matched] | ] eqn:Hm;
    [ | reflexivity ].
  apply match_api_key_inv in Hm. destruct Hm as [c [name [value [-> _]]]].
  change (String c (name ++ String "=" value))
    with (String c name ++ String "=" value) in Hs.
  rewrite all_in_is_not_app in Hs. discriminate Hs.
Qed.

(** A text without [=] is copied. *)
Lemma re_sub_without_equals (match_at : string -> option (string * nat)) :
  (forall s, all_in (is_not "=") s = true -> match_at s = None) ->
  forall s, all_in (is_not "=") s = true -> re_sub match_at s = s.
Proof.
  intros Hnone. induction s as [ | c s IH ]; intros Hs; [ reflexivity | ].
  rewrite re_sub_copy by now apply Hnone.
  simpl in Hs. apply andb_true_iff in Hs. destruct Hs as [_ Hs]. now rewrite IH.
Qed.

(** A text without [=] that a [?] follows is copied, too. *)
Lemma re_sub_api_key_before_question (a y : string) :
  all_in (is_not "=") a = true ->
  re_sub match_api_key (a ++ String "?" y) = a ++ re_sub match_api_key (String "?" y).
Proof.
  induction a as [ | c a IH ]; intros Ha; [ reflexivity | ].
  simpl in Ha. apply andb_true_iff in Ha. destruct Ha as [Hc Ha].
  cbn [append]. rewrite re_sub_copy; [ now rewrite IH | ].
  destruct (match_api_key (String c (a ++ String "?" y))) as [ [replacement matched] | ]
    eqn:Hm; [ exfalso | reflexivity ].
  apply match_api_key_inv in Hm. destruct Hm as [c' [name [value [Heq Hname]]]].
  injection Heq as _ Heq. symmetry in Heq.
  pose proof (cut_unique "=" "?" name a value y Heq Ha Hname) as E. discriminate E.
Qed.

(** The Groq key pattern on a key that ends where [b] starts. *)
Lemma re_sub_groq_key_hit (k b : string) :
  all_in is_alnum k = true -> k <> "" -> ends_run is_alnum b = true ->
  re_sub match_groq_key ("groqApiKey=gsk_" ++ k ++ b)
  = "groqApiKey=" ++ MASKED ++ re_sub match_groq_key b.
Proof.
  intros Hk Hk0 Hb.
  assert (Hm : match_groq_key ("groqApiKey=gsk_" ++ k ++ b)
               = Some ("groqApiKey=" ++ MASKED, 15 + String.length k)).
  { unfold match_groq_key. rewrite skip_literal_app, run_length_all by assumption.
    destruct k; [ contradiction | reflexivity ]. }
  rewrite <- append_assoc in Hm |- *.
  change ("groqApiKey=gsk_" ++ k) with (String "g" ("roqApiKey=gsk_" ++ k)) in Hm |- *.
  rewrite (re_sub_match match_groq_key "g" ("roqApiKey=gsk_" ++ k) b
                        ("groqApiKey=" ++ MASKED)).
  - now rewrite append_assoc.
  - rewrite Hm. rewrite length_append. reflexivity.
Qed.

(** The api key pattern does not see a masked Groq key. *)
Lemma re_sub_api_key_masked_groq_key (c : ascii) (y : string) :
  re_sub match_api_key (String c ("groqApiKey=" ++ MASKED ++ y))
  = String c ("groqApiKey=" ++ MASKED ++ re_sub match_api_key y).
Proof.
  assert (Hfirst : match_api_key (String c ("groqApiKey=" ++ MASKED ++ y)) = None).
  { unfold match_api_key. destruct (is_separator c); reflexivity. }
  rewrite re_sub_copy by exact Hfirst.
  cbn [append MASKED].
  repeat (rewrite re_sub_copy by reflexivity). reflexivity.
Qed.

Lemma ascii_lower_app (a b : string) : ascii_lower (a ++ b) = ascii_lower a ++ ascii_lower b.
Proof. induction a as [ | c a IH ]; simpl; [ reflexivity | now rewrite IH ]. Qed.

Lemma lower_k_not_joiner (key rest : string) :
  ascii_lower key = "key" ->
  match key ++ rest with
  | String j s' => if is_joiner j then s' else key ++ rest
  | "" => key ++ rest
  end = key ++ rest.
Proof.
  destruct key as [ | k1 key ]; [ discriminate | ]. cbn [ascii_lower append].
  intros Heq. injection Heq as Hk _.
  replace (is_joiner k1) with false; [ reflexivity | ].
  revert Hk. clear. each_ascii k1; vm_compute; congruence.
Qed.

(** The api key pattern on a parameter whose value ends where [b]
    starts. *)
Lemma re_sub_api_key_hit (c : ascii) (api joiner key v b : string) :
  is_separator c = true ->
  ascii_lower api = "api" ->
  joiner = "" \/ joiner = "_" \/ joiner = "-" ->
  ascii_lower key = "key" ->
  all_in is_value_char v = true -> v <> "" -> ends_run is_value_char b = true ->
  re_sub match_api_key (String c (api ++ joiner ++ key ++ "=" ++ v ++ b))
  = String c (api ++ joiner ++ key ++ "=") ++ MASKED ++ re_sub match_api_key b.
Proof.
  intros Hc Hapi Hjoiner Hkey Hv Hv0 Hb.
  set (name := api ++ joiner ++ key ++ "=").
  assert (Hs : String c (api ++ joiner ++ key ++ "=" ++ v ++ b)
               = String c (name ++ v) ++ b).
  { subst name. cbn [append]. now rewrite !append_assoc. }
  assert (H1 : skip_literal_ignorecase "api" (api ++ joiner ++ key ++ "=" ++ v ++ b)
               = Some (joiner ++ key ++ "=" ++ v ++ b)).
  { rewrite <- Hapi at 1. apply skip_literal_ignorecase_app. }
  assert (H2 : match joiner ++ key ++ "=" ++ v ++ b with
               | String j s' => if is_joiner j then s' else joiner ++ key ++ "=" ++ v ++ b
               | "" => joiner ++ key ++ "=" ++ v ++ b
               end = key ++ "=" ++ v ++ b).
  { destruct Hjoiner as [-> | [-> | ->]]; [ | reflexivity | reflexivity ].
    cbn [append]. now apply lower_k_not_joiner. }
  assert (H3 : skip_literal_ignorecase "key=" (key ++ "=" ++ v ++ b) = Some (v ++ b)).
  { rewrite <- (append_assoc key "=").
    replace "key=" with (ascii_lower (key ++ "=")) by (now rewrite ascii_lower_app, Hkey).
    apply skip_literal_ignorecase_app. }
  assert (Hm : match_api_key (String c (name ++ v) ++ b)
               = Some (String c name ++ MASKED, S (String.length (name ++ v)))).
  { rewrite <- Hs. unfold match_api_key. rewrite Hc, H1. cbv zeta. rewrite H2, H3.
    rewrite run_length_all by assumption.
    destruct (String.length v =? 0) eqn:Hlen.
    { apply Nat.eqb_eq in Hlen. destruct v; [ contradiction | discriminate Hlen ]. }
    rewrite Hs.
    assert (Hg : String.length (String c (name ++ v) ++ b) - String.length (v ++ b)
                 = String.length (String c name)).
    { cbn [append String.length]. rewrite !length_append. lia. }
    rewrite Hg. f_equal. f_equal.
    - cbn [append]. rewrite !append_assoc.
      change (String c (name ++ v ++ b)) with (String c name ++ (v ++ b)).
      now rewrite substring_append.
    - cbn [String.length]. rewrite length_append. lia. }
  rewrite Hs.
  rewrite (re_sub_match match_api_key c (name ++ v) b (String c name ++ MASKED) Hm).
  now rewrite append_assoc.
Qed.

(** A Groq key match starts with a [g]. *)
Lemma re_sub_groq_key_copy (w y : string) :
  all_in (is_not "g") w = true ->
  re_sub match_groq_key (w ++ y) = w ++ re_sub match_groq_key y.
Proof.
  induction w as [ | c w IH ]; intros Hw; [ reflexivity | ].
  simpl in Hw. apply andb_true_iff in Hw. destruct Hw as [Hc Hw].
  cbn [append]. rewrite re_sub_copy.
  - now rewrite IH.
  - apply match_groq_key_first. unfold is_not in Hc. now apply negb_true_iff in Hc.
Qed.

(** X14: no match of either pattern goes across a [&] or a white space:
    the masked text of [a ++ c ++ b], for such a character [c], is the
    masked text of [a] followed by the masked text of [c ++ b]. *)
Theorem mask_sensitive_data_apart (a b : string) (c : ascii) :
  (c =? "&")%char || is_space c = true ->
  mask_sensitive_data (a ++ String c b)
  = mask_sensitive_data a ++ mask_sensitive_data (String c b).
Proof.
  intros Hc. apply mask_sensitive_data_cut. unfold is_value_char. now rewrite Hc.
Qed.

Lemma mask_sensitive_data_apart_witness :
  mask_sensitive_data ("/transcribe-video?url=x" ++ String "&" "groqApiKey=gsk_1")
  = mask_sensitive_data "/transcribe-video?url=x"
    ++ mask_sensitive_data (String "&" "groqApiKey=gsk_1").
Proof.
  apply mask_sensitive_data_apart. reflexivity.
Defined.

(** X15: a parameter [groqApiKey=gsk_k], with a key [k] of letters and
    digits that ends where [b] starts (nothing, or another character
    than a letter or a digit), comes out as [groqApiKey=***MASKED***],
    whatever [k] is: after a [&] with any text [a] before it, and after
    a [?] with a text [a] without [=] before it.  What follows the key
    is masked on its own. *)
Theorem mask_sensitive_data_hides_groq_key (k b : string) :
  all_in is_alnum k = true -> k <> "" -> ends_run is_alnum b = true ->
  (forall a,
      mask_sensitive_data (a ++ "&groqApiKey=gsk_" ++ k ++ b)
      = mask_sensitive_data a ++ "&groqApiKey=" ++ MASKED ++ mask_sensitive_data b)
  /\ (forall a,
         all_in (is_not "=") a = true ->
         mask_sensitive_data (a ++ "?groqApiKey=gsk_" ++ k ++ b)
         = a ++ "?groqApiKey=" ++ MASKED ++ mask_sensitive_data b).
Proof.
  intros Hk Hk0 Hb. split.
  - intros a.
    change ("&groqApiKey=gsk_" ++ k ++ b) with (String "&" ("groqApiKey=gsk_" ++ k ++ b)).
    rewrite mask_sensitive_data_cut by reflexivity.
    f_equal. rewrite !mask_sensitive_data_eq.
    rewrite re_sub_copy by reflexivity.
    rewrite (re_sub_groq_key_hit k b Hk Hk0 Hb).
    exact (re_sub_api_key_masked_groq_key "&" _).
  - intros a Ha.
    change ("?groqApiKey=gsk_" ++ k ++ b) with (String "?" ("groqApiKey=gsk_" ++ k ++ b)).
    rewrite !mask_sensitive_data_eq.
    rewrite re_sub_groq_key_cut by reflexivity.
    rewrite (re_sub_without_equals _ match_groq_key_has_equals a Ha).
    rewrite re_sub_copy by reflexivity.
    rewrite (re_sub_groq_key_hit k b Hk Hk0 Hb).
    rewrite re_sub_api_key_before_question by assumption.
    f_equal; exact (re_sub_api_key_masked_groq_key "?" _).
Qed.

Lemma mask_sensitive_data_hides_groq_key_witness :
  mask_sensitive_data ("/transcribe-video?url=x" ++ "&groqApiKey=gsk_" ++ "Ab12" ++ "&language=en")
  = mask_sensitive_data "/transcribe-video?url=x"
    ++ "&groqApiKey=" ++ MASKED ++ mask_sensitive_data "&language=en".
Proof.
  refine (proj1 (mask_sensitive_data_hides_groq_key "Ab12" "&language=en" _ _ _) _).
  - reflexivity.
  - discriminate.
  - reflexivity.
Defined.

(** X16: a parameter named [api], then [_] or [-] or nothing, then
    [key], in any case, with a value [v] that is not empty, holds no [&]
    and no white space and ends where [b] starts (nothing, or a [&] or a
    white space), comes out with [***MASKED***] for its value, whatever
    [v] is: after a [&] with any text [a] before it, and after a [?]
    with a text [a] without [=] before it. *)
Theorem mask_sensitive_data_hides_api_key (api joiner key v b : string) :
  ascii_lower api = "api" ->
  joiner = "" \/ joiner = "_" \/ joiner = "-" ->
  ascii_lower key = "key" ->
  all_in is_value_char v = true -> v <> "" -> ends_run is_value_char b = true ->
  (forall a,
      mask_sensitive_data (a ++ "&" ++ api ++ joiner ++ key ++ "=" ++ v ++ b)
      = mask_sensitive_data a
        ++ "&" ++ api ++ joiner ++ key ++ "=" ++ MASKED ++ mask_sensitive_data b)
  /\ (forall a,
         all_in (is_not "=") a = true ->
         mask_sensitive_data (a ++ "?" ++ api ++ joiner ++ key ++ "=" ++ v ++ b)
         = a ++ "?" ++ api ++ joiner ++ key ++ "=" ++ MASKED ++ mask_sensitive_data b).
Proof.
  intros Hapi Hjoiner Hkey Hv Hv0 Hb.
  set (name := api ++ joiner ++ key ++ "=").
  assert (Hname : forall y, api ++ joiner ++ key ++ "=" ++ y = name ++ y).
  { intros y. subst name. now rewrite !append_assoc. }
  assert (Hg : all_in (is_not "g") name = true).
  { assert (Hlow : forall p w, ascii_lower w = p -> all_in (is_not "g") p = true ->
                               all_in (is_not "g") w = true).
    { intros p w <-. clear. induction w as [ | c w IH ]; simpl; [ reflexivity | ].
      rewrite !andb_true_iff. intros [Hc Hw]. split; [ | now apply IH ].
      revert Hc. clear. each_ascii c; vm_compute; congruence. }
    subst name. rewrite !all_in_app.
    rewrite (Hlow "api" api Hapi), (Hlow "key" key Hkey) by reflexivity.
    destruct Hjoiner as [-> | [-> | ->]]; reflexivity. }
  assert (Hgroq : re_sub match_groq_key (name ++ v ++ b)
                  = name ++ re_sub match_groq_key v ++ re_sub match_groq_key b).
  { rewrite re_sub_groq_key_copy by assumption. f_equal. apply re_sub_groq_key_cut.
    apply (ends_run_weaken is_value_char); [ apply not_value_char_not_key_char | assumption ]. }
  assert (Hapi_hit : forall c,
             is_separator c = true ->
             re_sub match_api_key
                    (String c (name ++ re_sub match_groq_key v ++ re_sub match_groq_key b))
             = String c name ++ MASKED
               ++ re_sub match_api_key (re_sub match_groq_key b)).
  { intros c Hc. subst name. rewrite !append_assoc.
    rewrite (re_sub_api_key_hit c api joiner key); try assumption.
    - now rewrite ?append_assoc.
    - now apply re_sub_groq_key_value.
    - now apply re_sub_groq_key_nonempty.
    - now apply re_sub_groq_key_ends_run. }
  split.
  - intros a. rewrite !Hname.
    change ("&" ++ name ++ v ++ b) with (String "&" (name ++ v ++ b)).
    rewrite mask_sensitive_data_cut by reflexivity.
    f_equal. rewrite !mask_sensitive_data_eq.
    rewrite re_sub_copy by reflexivity. rewrite Hgroq.
    now rewrite Hapi_hit.
  - intros a Ha. rewrite !Hname.
    change ("?" ++ name ++ v ++ b) with (String "?" (name ++ v ++ b)).
    rewrite !mask_sensitive_data_eq.
    rewrite re_sub_groq_key_cut by reflexivity.
    rewrite (re_sub_without_equals _ match_groq_key_has_equals a Ha).
    rewrite re_sub_copy by reflexivity. rewrite Hgroq.
    rewrite re_sub_api_key_before_question by assumption.
    now rewrite Hapi_hit.
Qed.

Lemma mask_sensitive_data_hides_api_key_witness :
  mask_sensitive_data ("/get?url=x" ++ "&" ++ "API" ++ "-" ++ "Key" ++ "=" ++ "s3cr3t" ++ "&n=1")
  = mask_sensitive_data "/get?url=x"
    ++ "&" ++ "API" ++ "-" ++ "Key" ++ "=" ++ MASKED ++ mask_sensitive_data "&n=1".
Proof.
  refine (proj1 (mask_sensitive_data_hides_api_key "API" "-" "Key" "s3cr3t" "&n=1"
                   _ _ _ _ _ _) _).
  - reflexivity.
  - right. right. reflexivity.
  - reflexivity.
  - reflexivity.
  - discriminate.
  - reflexivity.
Defined.

(** X17: a text without the character [=] is returned as it is. *)
Theorem mask_sensitive_data_without_equals (text : string) :
  all_in (is_not "=") text = true -> mask_sensitive_data text = text.
Proof.
  intros Ht. rewrite mask_sensitive_data_eq.
  rewrite (re_sub_without_equals _ match_groq_key_has_equals text Ht).
  apply (re_sub_without_equals _ match_api_key_has_equals text Ht).
Qed.

Lemma mask_sensitive_data_without_equals_witness :
  mask_sensitive_data "https://youtu.be/dQw4w9WgXcQ?t" = "https://youtu.be/dQw4w9WgXcQ?t".
Proof.
  apply mask_sensitive_data_without_equals. reflexivity.
Defined.

(** *** What a match is made of *)

(** The longest run at the start of a text. *)
Lemma run_length_split (f : ascii -> bool) (s : string) :
  exists v b,
    s = v ++ b /\ all_in f v = true /\ ends_run f b = true
    /\ run_length f s = String.length v.
Proof.
  induction s as [ | c s [v [b [-> [Hv [Hb Hlen]]]]] ].
  - exists "", "". now repeat split.
  - simpl. destruct (f c) eqn:Hc.
    + exists (String c v), b. simpl. rewrite Hc, Hv, Hlen. now repeat split.
    + exists "", (String c (v ++ b)). simpl. rewrite Hc. now repeat split.
Qed.

Lemma match_groq_key_inv (s replacement : string) (matched : nat) :
  match_groq_key s = Some (replacement, matched) ->
  exists d rest,
    s = "groqApiKey=gsk_" ++ String d rest /\ is_alnum d = true
    /\ replacement = "groqApiKey=" ++ MASKED.
Proof.
  unfold match_groq_key.
  destruct (skip_literal "groqApiKey=gsk_" s) as [ key | ] eqn:Hkey; [ | discriminate ].
  apply skip_literal_inv in Hkey. subst s.
  destruct key as [ | d rest ]; [ discriminate | ]. cbn [run_length].
  destruct (is_alnum d) eqn:Hd; [ | discriminate ].
  intros Heq. injection Heq as <- _. now exists d, rest.
Qed.

Lemma match_groq_key_hit (d rest : string) (c : ascii) :
  is_alnum c = true -> match_groq_key ("groqApiKey=gsk_" ++ String c rest) <> None.
Proof.
  intros Hc. unfold match_groq_key. rewrite skip_literal_app. cbn [run_length].
  rewrite Hc. discriminate.
Qed.

Lemma lower_eq_is_eq (c : ascii) : to_lower c = "="%char -> c = "="%char.
Proof. each_ascii c; vm_compute; congruence. Qed.

Lemma joiner_cases (j : ascii) : is_joiner j = true -> j = "_"%char \/ j = "-"%char.
Proof. each_ascii j; vm_compute; intros E; try discriminate E; auto. Qed.

(** A match of the api key pattern: a separator, the name, [=], the
    longest run of the value's characters. *)
Lemma match_api_key_inv_full (s replacement : string) (matched : nat) :
  match_api_key s = Some (replacement, matched) ->
  exists c api joiner key v b,
    s = String c (api ++ joiner ++ key ++ "=" ++ v ++ b)
    /\ is_separator c = true
    /\ ascii_lower api = "api"
    /\ (joiner = "" \/ joiner = "_" \/ joiner = "-")
    /\ ascii_lower key = "key"
    /\ all_in is_value_char v = true /\ v <> "" /\ ends_run is_value_char b = true
    /\ replacement = String c (api ++ joiner ++ key ++ "=") ++ MASKED
    /\ matched = S (String.length (api ++ joiner ++ key ++ "=" ++ v)).
Proof.
  unfold match_api_key. destruct s as [ | c s0 ]; [ discriminate | ].
  destruct (is_separator c) eqn:Hc; [ | discriminate ].
  destruct (skip_literal_ignorecase "api" s0) as [ s1 | ] eqn:H1; [ | discriminate ].
  apply skip_literal_ignorecase_inv in H1. destruct H1 as [api [-> Hapi]].
  set (s2 := match s1 with
             | String j s' => if is_joiner j then s' else s1
             | "" => s1
             end).
  assert (Hj : exists joiner,
             s1 = joiner ++ s2 /\ (joiner = "" \/ joiner = "_" \/ joiner = "-")).
  { subst s2. destruct s1 as [ | j s' ]; [ exists ""; auto | ].
    destruct (is_joiner j) eqn:Hj; [ | exists ""; auto ].
    destruct (joiner_cases j Hj) as [-> | ->]; [ exists "_" | exists "-" ]; auto. }
  clearbody s2. destruct Hj as [joiner [-> Hjoiner]].
  destruct (skip_literal_ignorecase "key=" s2) as [ value | ] eqn:H3; [ | discriminate ].
  apply skip_literal_ignorecase_inv in H3. destruct H3 as [w [-> Hw]].
  destruct w as [ | k1 [ | k2 [ | k3 [ | k4 [ | k5 w ] ] ] ] ]; try discriminate Hw.
  cbn [ascii_lower] in Hw. injection Hw as Hk1 Hk2 Hk3 Hk4.
  apply lower_eq_is_eq in Hk4. subst k4.
  destruct (run_length_split is_value_char value) as [v [b [-> [Hv [Hb Hlen]]]]].
  rewrite Hlen.
  destruct (String.length v =? 0) eqn:Hv0; [ discriminate | ].
  set (key := String k1 (String k2 (String k3 ""))).
  assert (Heq : String c (api ++ joiner ++ String k1 (String k2 (String k3 (String "=" "")))
                            ++ v ++ b)
                = String c (api ++ joiner ++ key ++ "=") ++ (v ++ b)).
  { subst key. cbn [append]. now rewrite !append_assoc. }
  rewrite Heq.
  assert (Hg : String.length (String c (api ++ joiner ++ key ++ "=") ++ (v ++ b))
               - String.length (v ++ b)
               = String.length (String c (api ++ joiner ++ key ++ "="))).
  { rewrite length_append. lia. }
  rewrite Hg, substring_append.
  intros Hres. injection Hres as <- <-.
  exists c, api, joiner, key, v, b.
  repeat split; try assumption.
  - cbn [append]. now rewrite !append_assoc.
  - subst key. cbn [ascii_lower]. now rewrite Hk1, Hk2, Hk3.
  - intros ->. discriminate Hv0.
  - cbn [String.length]. rewrite !length_append. subst key. cbn [String.length]. lia.
Qed.

(** The api key pattern where a parameter starts. *)
Lemma match_api_key_hit (c d : ascii) (api joiner key rest : string) :
  is_separator c = true ->
  ascii_lower api = "api" ->
  joiner = "" \/ joiner = "_" \/ joiner = "-" ->
  ascii_lower key = "key" ->
  is_value_char d = true ->
  match_api_key (String c (api ++ joiner ++ key ++ "=" ++ String d rest)) <> None.
Proof.
  intros Hc Hapi Hjoiner Hkey Hd. unfold match_api_key. rewrite Hc.
  rewrite <- Hapi at 1. rewrite skip_literal_ignorecase_app. cbv zeta.
  assert (H2 : match joiner ++ key ++ "=" ++ String d rest with
               | String j s' => if is_joiner j then s' else joiner ++ key ++ "=" ++ String d rest
               | "" => joiner ++ key ++ "=" ++ String d rest
               end = key ++ "=" ++ String d rest).
  { destruct Hjoiner as [-> | [-> | ->]]; [ | reflexivity | reflexivity ].
    cbn [append]. now apply lower_k_not_joiner. }
  rewrite H2. rewrite <- (append_assoc key "=").
  replace "key=" with (ascii_lower (key ++ "=")) by (now rewrite ascii_lower_app, Hkey).
  rewrite skip_literal_ignorecase_app. cbn [run_length]. rewrite Hd. discriminate.
Qed.

(** *** From the substituted text back to the text *)

Section Back.

Variable match_at : string -> option (string * nat).

(** A replacement starts with the character its match starts with. *)
Hypothesis first_kept : forall c s replacement matched,
    match_at (String c s) = Some (replacement, matched) ->
    exists r, replacement = String c r.

Lemma re_sub_first_inv (y z : string) (c : ascii) :
  re_sub match_at y = String c z -> exists y', y = String c y'.
Proof.
  destruct y as [ | d y ]; [ discriminate | ]. unfold re_sub. cbn [re_sub_from].
  destruct (match_at (String d y)) as [ [replacement matched] | ] eqn:Hm.
  - destruct (first_kept _ _ _ _ Hm) as [r ->]. cbn [append].
    intros Heq. injection Heq as -> _. now exists y.
  - intros Heq. injection Heq as -> _. now exists y.
Qed.

(** The characters of the class [f] start no match. *)
Variable f : ascii -> bool.
Hypothesis no_start : forall c s, f c = true -> match_at (String c s) = None.

Lemma re_sub_prefix_inv (w : string) :
  all_in f w = true ->
  forall y z,
    re_sub match_at y = w ++ z -> exists y', y = w ++ y' /\ re_sub match_at y' = z.
Proof.
  induction w as [ | c w IH ]; intros Hw y z Heq; [ now exists y | ].
  simpl in Hw. apply andb_true_iff in Hw. destruct Hw as [Hc Hw].
  cbn [append] in Heq. destruct (re_sub_first_inv _ _ _ Heq) as [y0 ->].
  rewrite re_sub_copy in Heq by now apply no_start.
  injection Heq as Heq. destruct (IH Hw _ _ Heq) as [y' [-> Hy']].
  now exists y'.
Qed.

End Back.

Lemma match_groq_key_first_kept (c : ascii) (s replacement : string) (matched : nat) :
  match_groq_key (String c s) = Some (replacement, matched) ->
  exists r, replacement = String c r.
Proof.
  intros Hm. apply match_groq_key_inv in Hm. destruct Hm as [d [rest [Heq [_ ->]]]].
  cbn [append] in Heq. injection Heq as -> _. now eexists.
Qed.

Lemma match_api_key_first_kept (c : ascii) (s replacement : string) (matched : nat) :
  match_api_key (String c s) = Some (replacement, matched) ->
  exists r, replacement = String c r.
Proof.
  intros Hm. apply match_api_key_inv_full in Hm.
  destruct Hm as (c' & api & joiner & key & v & b & Heq & _ & _ & _ & _ & _ & _ & _ & -> & _).
  injection Heq as -> _. cbn [append]. now eexists.
Qed.

(** *** No Groq key is left *)

Lemma no_groq_key_tail (c : ascii) (s : string) :
  no_groq_key (String c s) = true -> no_groq_key s = true.
Proof.
  cbn [no_groq_key]. now destruct (match_groq_key (String c s)).
Qed.

Lemma no_groq_key_copy (w x : string) :
  all_in (is_not "g") w = true -> no_groq_key (w ++ x) = no_groq_key x.
Proof.
  induction w as [ | c w IH ]; intros Hw; [ reflexivity | ].
  simpl in Hw. apply andb_true_iff in Hw. destruct Hw as [Hc Hw].
  cbn [append no_groq_key]. rewrite match_groq_key_first; [ now apply IH | ].
  unfold is_not in Hc. now apply negb_true_iff in Hc.
Qed.

Lemma no_groq_key_masked (x : string) :
  no_groq_key ("groqApiKey=" ++ MASKED ++ x) = no_groq_key x.
Proof. reflexivity. Qed.

(** A text without a Groq key is where it says so. *)
Lemma no_groq_key_spec (s a b : string) (c : ascii) :
  no_groq_key s = true -> s = a ++ "groqApiKey=gsk_" ++ String c b -> is_alnum c = false.
Proof.
  intros Hs ->. induction a as [ | d a IH ].
  - cbn [append] in Hs. apply not_true_is_false. intros Hc.
    pose proof (match_groq_key_hit "" b c Hc) as Hm.
    change ("groqApiKey=gsk_" ++ String c b)
      with (String "g" ("roqApiKey=gsk_" ++ String c b)) in Hm.
    cbn [append] in Hm. cbn [no_groq_key] in Hs.
    destruct (match_groq_key _); [ discriminate Hs | now apply Hm ].
  - apply IH. now apply no_groq_key_tail in Hs.
Qed.

(** The Groq key pattern after its own substitution. *)
Lemma match_groq_key_back (c : ascii) (t : string) :
  match_groq_key (String c (re_sub match_groq_key t)) <> None ->
  match_groq_key (String c t) <> None.
Proof.
  destruct (match_groq_key (String c (re_sub match_groq_key t)))
    as [ [replacement matched] | ] eqn:Hm; [ intros _ | contradiction ].
  apply match_groq_key_inv in Hm. destruct Hm as [d [rest [Heq [Hd _]]]].
  change ("groqApiKey=gsk_" ++ String d rest)
    with (String "g" ("roqApiKey=" ++ "gsk_" ++ String d rest)) in Heq.
  injection Heq as -> Heq.
  destruct (re_sub_prefix_inv match_groq_key match_groq_key_first_kept (is_not "g"))
    with (w := "roqApiKey=") (y := t) (z := "gsk_" ++ String d rest)
    as [t1 [-> H1]]; [ | reflexivity | assumption | ].
  { intros x s Hx. apply match_groq_key_first. unfold is_not in Hx.
    now apply negb_true_iff in Hx. }
  change ("gsk_" ++ String d rest) with (String "g" ("sk_" ++ String d rest)) in H1.
  destruct (re_sub_first_inv match_groq_key match_groq_key_first_kept _ _ _ H1) as [t1' ->].
  destruct (match_groq_key (String "g" t1')) as [ [r1 n1] | ] eqn:Hg.
  { exfalso. unfold re_sub in H1. cbn [re_sub_from] in H1. rewrite Hg in H1.
    rewrite (match_groq_key_replacement _ _ _ Hg) in H1. discriminate H1. }
  rewrite re_sub_copy in H1 by assumption. injection H1 as H1.
  destruct (re_sub_prefix_inv match_groq_key match_groq_key_first_kept (is_not "g"))
    with (w := "sk_") (y := t1') (z := String d rest)
    as [t2 [-> H2]]; [ | reflexivity | assumption | ].
  { intros x s Hx. apply match_groq_key_first. unfold is_not in Hx.
    now apply negb_true_iff in Hx. }
  destruct (re_sub_first_inv match_groq_key match_groq_key_first_kept _ _ _ H2) as [t2' ->].
  exact (match_groq_key_hit "" t2' d Hd).
Qed.

Lemma re_sub_groq_key_leaves_none (t : string) :
  forall skip, no_groq_key (re_sub_from match_groq_key skip t) = true.
Proof.
  induction t as [ | c t IH ]; intros skip; [ reflexivity | ].
  cbn [re_sub_from]. destruct skip as [ | skip ]; [ | apply IH ].
  destruct (match_groq_key (String c t)) as [ [replacement matched] | ] eqn:Hm.
  - rewrite (match_groq_key_replacement _ _ _ Hm), append_assoc, no_groq_key_masked.
    apply IH.
  - cbn [no_groq_key].
    destruct (match_groq_key (String c (re_sub_from match_groq_key 0 t))) eqn:Hback;
      [ exfalso | apply IH ].
    apply (match_groq_key_back c t); [ | assumption ].
    unfold re_sub. rewrite Hback. discriminate.
Qed.

(** The Groq key pattern after the substitution of the api key
    pattern. *)
Lemma match_groq_key_back_api (c : ascii) (y : string) :
  match_groq_key (String c (re_sub match_api_key y)) <> None ->
  match_groq_key (String c y) <> None.
Proof.
  destruct (match_groq_key (String c (re_sub match_api_key y)))
    as [ [replacement matched] | ] eqn:Hm; [ intros _ | contradiction ].
  apply match_groq_key_inv in Hm. destruct Hm as [d [rest [Heq [Hd _]]]].
  change ("groqApiKey=gsk_" ++ String d rest)
    with (String "g" ("roqApiKey=gsk_" ++ String d rest)) in Heq.
  injection Heq as -> Heq.
  destruct (re_sub_prefix_inv match_api_key match_api_key_first_kept
                              (fun x => negb (is_separator x)))
    with (w := "roqApiKey=gsk_") (y := y) (z := String d rest)
    as [y2 [-> H2]]; [ | reflexivity | assumption | ].
  { intros x s Hx. apply match_api_key_first. now apply negb_true_iff in Hx. }
  destruct (re_sub_first_inv match_api_key match_api_key_first_kept _ _ _ H2) as [y2' ->].
  exact (match_groq_key_hit "" y2' d Hd).
Qed.

Lemma lower_not_g (p w : string) :
  ascii_lower w = p -> all_in (is_not "g") p = true -> all_in (is_not "g") w = true.
Proof.
  intros <-. induction w as [ | c w IH ]; simpl; [ reflexivity | ].
  rewrite !andb_true_iff. intros [Hc Hw]. split; [ | now apply IH ].
  revert Hc. clear. each_ascii c; vm_compute; congruence.
Qed.

Lemma separator_not_g (c : ascii) : is_separator c = true -> is_not "g" c = true.
Proof. each_ascii c; vm_compute; congruence. Qed.

Lemma re_sub_api_key_leaves_none (y : string) :
  forall skip,
    no_groq_key y = true -> no_groq_key (re_sub_from match_api_key skip y) = true.
Proof.
  induction y as [ | c y IH ]; intros skip Hy; [ reflexivity | ].
  pose proof (no_groq_key_tail _ _ Hy) as Hy'.
  cbn [re_sub_from]. destruct skip as [ | skip ]; [ | now apply IH ].
  destruct (match_api_key (String c y)) as [ [replacement matched] | ] eqn:Hm.
  - apply match_api_key_inv_full in Hm.
    destruct Hm as (c' & api & joiner & key & v & b & _ & Hc & Hapi & Hj & Hkey & _ & _ & _ & -> & _).
    rewrite append_assoc, no_groq_key_copy; [ now apply IH | ].
    cbn [all_in]. rewrite (separator_not_g c' Hc). cbn [andb].
    rewrite !all_in_app.
    rewrite (lower_not_g "api" api Hapi), (lower_not_g "key" key Hkey) by reflexivity.
    destruct Hj as [-> | [-> | ->]]; reflexivity.
  - cbn [no_groq_key].
    destruct (match_groq_key (String c (re_sub_from match_api_key 0 y))) eqn:Hback;
      [ exfalso | now apply IH ].
    cbn [no_groq_key] in Hy. destruct (match_groq_key (String c y)) eqn:Hhere;
      [ discriminate Hy | ].
    apply (match_groq_key_back_api c y); [ | assumption ].
    unfold re_sub. rewrite Hback. discriminate.
Qed.

Lemma mask_sensitive_data_no_groq_key (text : string) :
  no_groq_key (mask_sensitive_data text) = true.
Proof.
  rewrite mask_sensitive_data_eq. apply re_sub_api_key_leaves_none.
  apply re_sub_groq_key_leaves_none.
Qed.

(** X18: in the masked text, [groqApiKey=gsk_] is nowhere followed by a
    letter or a digit: no match of the Groq key pattern is left,
    whatever the text was. *)
Theorem mask_sensitive_data_leaves_no_groq_key (text a b : string) (c : ascii) :
  mask_sensitive_data text = a ++ "groqApiKey=gsk_" ++ String c b ->
  is_alnum c = false.
Proof.
  intros Heq. apply (no_groq_key_spec (mask_sensitive_data text) a b c); [ | assumption ].
  apply mask_sensitive_data_no_groq_key.
Qed.

Lemma mask_sensitive_data_leaves_no_groq_key_witness :
  is_alnum "-" = false.
Proof.
  apply (mask_sensitive_data_leaves_no_groq_key "?groqApiKey=gsk_-x" "?" "x" "-").
  reflexivity.
Defined.

(** *** Masking twice *)

Lemma re_sub_groq_key_none (s : string) :
  no_groq_key s = true -> re_sub match_groq_key s = s.
Proof.
  induction s as [ | c s IH ]; intros Hs; [ reflexivity | ].
  cbn [no_groq_key] in Hs.
  destruct (match_groq_key (String c s)) eqn:Hm; [ discriminate Hs | ].
  rewrite re_sub_copy by assumption. now rewrite IH.
Qed.

Lemma re_sub_api_key_ends_run (b : string) :
  ends_run is_value_char b = true -> ends_run is_value_char (re_sub match_api_key b) = true.
Proof.
  destruct b as [ | d b ]; [ reflexivity | ]. cbn [ends_run]. intros Hd.
  unfold re_sub. cbn [re_sub_from].
  destruct (match_api_key (String d b)) as [ [replacement matched] | ] eqn:Hm.
  - destruct (match_api_key_first_kept _ _ _ _ Hm) as [r ->]. exact Hd.
  - exact Hd.
Qed.

Lemma lower_not_separator (p w : string) :
  ascii_lower w = p ->
  all_in (fun x => negb (is_separator x)) p = true ->
  all_in (fun x => negb (is_separator x)) w = true.
Proof.
  intros <-. induction w as [ | c w IH ]; simpl; [ reflexivity | ].
  rewrite !andb_true_iff. intros [Hc Hw]. split; [ | now apply IH ].
  revert Hc. clear. each_ascii c; vm_compute; congruence.
Qed.

(** The api key pattern after its own substitution. *)
Lemma match_api_key_back (c : ascii) (x : string) :
  match_api_key (String c (re_sub match_api_key x)) <> None ->
  match_api_key (String c x) <> None.
Proof.
  destruct (match_api_key (String c (re_sub match_api_key x)))
    as [ [replacement matched] | ] eqn:Hm; [ intros _ | contradiction ].
  apply match_api_key_inv_full in Hm.
  destruct Hm as (c' & api & joiner & key & v & b & Heq & Hc & Hapi & Hj & Hkey
                  & Hv & Hv0 & _).
  injection Heq as <- Heq.
  rewrite <- !append_assoc in Heq.
  change (String "=" (v ++ b)) with ("=" ++ (v ++ b)) in Heq.
  rewrite <- (append_assoc _ "=" (v ++ b)) in Heq.
  destruct (re_sub_prefix_inv match_api_key match_api_key_first_kept
                              (fun x => negb (is_separator x)))
    with (w := ((api ++ joiner) ++ key) ++ "=") (y := x) (z := v ++ b)
    as [x2 [-> H2]]; [ | | assumption | ].
  { intros d s Hd. apply match_api_key_first. now apply negb_true_iff in Hd. }
  { rewrite !all_in_app.
    rewrite (lower_not_separator "api" api Hapi), (lower_not_separator "key" key Hkey)
      by reflexivity.
    destruct Hj as [-> | [-> | ->]]; reflexivity. }
  destruct v as [ | d v ]; [ contradiction | ]. cbn [append] in H2.
  destruct (re_sub_first_inv match_api_key match_api_key_first_kept _ _ _ H2) as [x2' ->].
  simpl in Hv. apply andb_true_iff in Hv. destruct Hv as [Hd _].
  rewrite !append_assoc.
  now apply match_api_key_hit.
Qed.

Lemma re_sub_api_key_twice (x : string) :
  forall skip,
    re_sub match_api_key (re_sub_from match_api_key skip x)
    = re_sub_from match_api_key skip x.
Proof.
  induction x as [ | c x IH ]; intros skip; [ reflexivity | ].
  cbn [re_sub_from]. destruct skip as [ | skip ]; [ | apply IH ].
  destruct (match_api_key (String c x)) as [ [replacement matched] | ] eqn:Hm.
  - pose proof Hm as Hinv. apply match_api_key_inv_full in Hinv.
    destruct Hinv as (c' & api & joiner & key & v & b & Heq & Hc & Hapi & Hj & Hkey
                      & Hv & Hv0 & Hb & -> & ->).
    assert (Hc' : c' = c) by (now injection Heq). subst c'.
    assert (Hx : x = api ++ joiner ++ key ++ "=" ++ v ++ b) by (now injection Heq).
    clear Heq. subst x. cbn [Nat.pred].
    assert (Hrest : re_sub_from match_api_key
                                (String.length (api ++ joiner ++ key ++ "=" ++ v))
                                (api ++ joiner ++ key ++ "=" ++ v ++ b)
                    = re_sub match_api_key b).
    { unfold re_sub.
      rewrite <- (re_sub_from_skip match_api_key (api ++ joiner ++ key ++ "=" ++ v) b).
      now rewrite !append_assoc. }
    specialize (IH (String.length (api ++ joiner ++ key ++ "=" ++ v))).
    rewrite Hrest in IH |- *.
    cbn [append]. rewrite !append_assoc.
    rewrite (re_sub_api_key_hit c api joiner key MASKED (re_sub match_api_key b));
      try assumption; try reflexivity; try discriminate.
    + rewrite IH. cbn [append]. now rewrite !append_assoc.
    + now apply re_sub_api_key_ends_run.
  - rewrite re_sub_copy; [ now rewrite IH | ].
    destruct (match_api_key (String c (re_sub_from match_api_key 0 x))) eqn:Hback;
      [ exfalso | reflexivity ].
    apply (match_api_key_back c x); [ | assumption ].
    unfold re_sub. rewrite Hback. discriminate.
Qed.

(** X19: masking a masked text changes nothing:
    [mask_sensitive_data(mask_sensitive_data(text))] is
    [mask_sensitive_data(text)]. *)
Theorem mask_sensitive_data_twice (text : string) :
  mask_sensitive_data (mask_sensitive_data text) = mask_sensitive_data text.
Proof.
  rewrite (mask_sensitive_data_eq (mask_sensitive_data text)).
  rewrite (re_sub_groq_key_none _ (mask_sensitive_data_no_groq_key text)).
  rewrite !mask_sensitive_data_eq. apply (re_sub_api_key_twice _ 0).
Qed.

End Masking.

(** ** The request to the Groq API *)

Example request_with_word_timestamps :
  request_data (groq_request_of "gsk_1" "whisper-large-v3-turbo" "de" "0" "verbose_json"
                                "  names: Ada, Alan " true false)
  = [("model", "whisper-large-v3-turbo"); ("response_format", "verbose_json");
     ("temperature", "0"); ("language", "de"); ("prompt", "names: Ada, Alan");
     ("timestamp_granularities[]", "segment"); ("timestamp_granularities[]", "word")]%string.
Proof. vm_compute. reflexivity. Qed.

Section RequestProperties.

Local Open Scope string_scope.

(** *** Stripping *)

Lemma lstrip_starts (s : string) : ends_run is_space (lstrip s) = true.
Proof.
  induction s as [ | c s IH ]; [ reflexivity | ]. cbn [lstrip].
  destruct (is_space c) eqn:Hc; [ assumption | ]. cbn. now rewrite Hc.
Qed.

Lemma lstrip_of_start (s : string) : ends_run is_space s = true -> lstrip s = s.
Proof.
  destruct s as [ | c s ]; [ reflexivity | ]. cbn. now destruct (is_space c).
Qed.

Lemma rstrip_starts (s : string) :
  ends_run is_space s = true -> ends_run is_space (rstrip s) = true.
Proof.
  destruct s as [ | c s ]; [ reflexivity | ]. cbn [ends_run rstrip]. intros Hc.
  apply negb_true_iff in Hc. rewrite Hc.
  destruct (rstrip s); cbn; now rewrite Hc.
Qed.

Lemma rstrip_twice (s : string) : rstrip (rstrip s) = rstrip s.
Proof.
  induction s as [ | c s IH ]; [ reflexivity | ]. cbn [rstrip].
  destruct (rstrip s) as [ | d r ] eqn:Hr.
  - destruct (is_space c) eqn:Hc; [ reflexivity | ]. cbn. now rewrite Hc.
  - cbn [rstrip]. cbn [rstrip] in IH. now rewrite IH.
Qed.

Lemma strip_twice (s : string) : strip (strip s) = strip s.
Proof.
  unfold strip. rewrite (lstrip_of_start (rstrip (lstrip s))).
  - apply rstrip_twice.
  - apply rstrip_starts, lstrip_starts.
Qed.

(** *** The form *)

(** X20: the form that [transcribe_audio_file] sends holds under
    ['timestamp_granularities[]'] the values ['segment'] and ['word'], in
    this order, when the response format is ['verbose_json'] and word
    timestamps are asked for; ['segment'] alone when it is
    ['verbose_json'] and they are not; and nothing for another
    format. *)
Theorem timestamp_granularities_sent
        (api_key model language temperature response_format prompt : string)
        (use_word_timestamps translate : bool) :
  sent_under "timestamp_granularities[]"
             (request_data (groq_request_of api_key model language temperature response_format
                                            prompt use_word_timestamps translate))
  = if response_format =? "verbose_json"
    then if use_word_timestamps then ["segment"; "word"] else ["segment"]
    else [].
Proof.
  unfold groq_request_of, sent_under. cbn [request_data].
  destruct (negb (language =? "") && negb (language =? "auto"));
    destruct (negb (prompt =? "") && negb (strip prompt =? ""));
    destruct (response_format =? "verbose_json");
    destruct use_word_timestamps; reflexivity.
Qed.

(** X21: the form holds a ['language'] exactly when the language is
    neither empty nor ['auto'], and then the language given; it holds a
    ['prompt'] exactly when the prompt has a character that is not white
    space, and then the prompt stripped: what is sent is not empty and
    has no white space left to strip. *)
Theorem language_and_prompt_sent
        (api_key model language temperature response_format prompt : string)
        (use_word_timestamps translate : bool) :
  let data := request_data (groq_request_of api_key model language temperature
                                            response_format prompt use_word_timestamps
                                            translate) in
  sent_under "language" data
  = (if (language =? "") || (language =? "auto") then [] else [language])
  /\ sent_under "prompt" data = (if strip prompt =? "" then [] else [strip prompt])
  /\ forall p, In p (sent_under "prompt" data) -> p <> "" /\ strip p = p.
Proof.
  assert (Hempty : prompt = "" -> strip prompt = "") by (now intros ->).
  assert (Hprompt : sent_under "prompt"
                      (request_data (groq_request_of api_key model language temperature
                                                     response_format prompt
                                                     use_word_timestamps translate))
                    = (if strip prompt =? "" then [] else [strip prompt])).
  { unfold groq_request_of, sent_under. cbn [request_data].
    destruct (String.eqb_spec prompt "") as [Hp | _].
    - rewrite (Hempty Hp). cbn [negb andb String.eqb].
      destruct (negb (language =? "") && negb (language =? "auto"));
        destruct (response_format =? "verbose_json");
        destruct use_word_timestamps; reflexivity.
    - cbn [negb andb].
      destruct (strip prompt =? "");
        destruct (negb (language =? "") && negb (language =? "auto"));
        destruct (response_format =? "verbose_json");
        destruct use_word_timestamps; reflexivity. }
  cbv zeta. split; [ | split ].
  - unfold groq_request_of, sent_under. cbn [request_data].
    destruct (language =? ""); destruct (language =? "auto");
      destruct (negb (prompt =? "") && negb (strip prompt =? ""));
      destruct (response_format =? "verbose_json");
      destruct use_word_timestamps; reflexivity.
  - exact Hprompt.
  - intros p. rewrite Hprompt.
    destruct (String.eqb_spec (strip prompt) "") as [ | Hne ]; [ intros [] | ].
    intros [<- | []]. split; [ assumption | apply strip_twice ].
Qed.

Lemma language_and_prompt_sent_witness :
  "hi" <> "" /\ strip "hi" = "hi".
Proof.
  refine (proj2 (proj2 (language_and_prompt_sent "gsk_1" "whisper-large-v3" "auto" "0"
                          "json" " hi " true false)) "hi" _).
  vm_compute. left. reflexivity.
Defined.

End RequestProperties.

(** ** [extract_playlist] *)

Example playlist_of_three :
  extract_playlist
    (Some "https://www.youtube.com/playlist?list=PL1"%string)
    (fun _ =>
       Extracted
         (Some {| info_fields := [("title", VStr "Talks"); ("extractor", VStr "youtube:tab")]%string;
                  info_entries :=
                    Some (Some [Some [("id", VStr "a1"); ("url", VStr "https://youtu.be/a1");
                                      ("title", VStr "One"); ("duration", VInt 61)]%string;
                                None;
                                Some [("id", VStr "b2"); ("title", VNone)]%string;
                                Some [("title", VStr "no id, no url")]%string]) |}))
  = playlist_success
      {| playlist_title := VStr "Talks";
         playlist_url := "https://www.youtube.com/playlist?list=PL1";
         video_count := 2;
         videos := [{| video_url := VStr "https://youtu.be/a1"; video_title := VStr "One";
                       video_duration := VInt 61; video_id := VStr "a1" |};
                    {| video_url := VStr "https://www.youtube.com/watch?v=b2";
                       video_title := VNone; video_duration := VInt 0;
                       video_id := VStr "b2" |}];
         platform := VStr "youtube:tab" |}.
Proof. vm_compute. reflexivity. Qed.

Lemma playlist_videos_from (info : dict) (entries : list (option dict)) :
  forall videos,
    fold_left
      (fun videos entry =>
         match entry with
         | None => videos
         | Some entry =>
             match entry_video info entry with
             | Some video_info => videos ++ [video_info]
             | None => videos
             end
         end)
      entries videos
    = videos ++ flat_map (entry_videos info) entries.
Proof.
  induction entries as [ | entry entries IH ]; intros videos; cbn [fold_left flat_map].
  - now rewrite app_nil_r.
  - rewrite IH, app_assoc. f_equal. unfold entry_videos.
    destruct entry as [ entry | ]; [ | now rewrite app_nil_r ].
    destruct (entry_video info entry); [ reflexivity | now rewrite app_nil_r ].
Qed.

Lemma playlist_videos_flat_map (info : dict) (entries : list (option dict)) :
  playlist_videos info entries = flat_map (entry_videos info) entries.
Proof.
  unfold playlist_videos. now rewrite playlist_videos_from.
Qed.

Lemma entry_video_url (info entry : dict) (v : video_info) :
  entry_video info entry = Some v -> truthy (video_url v) = true.
Proof.
  unfold entry_video.
  set (url := if negb (truthy (py_or _ _)) && truthy _ then _ else _).
  destruct url as [ url | ]; [ | discriminate ].
  destruct (truthy url) eqn:Hurl; cbn [negb]; [ | discriminate ].
  intros Heq. now injection Heq as <-.
Qed.

Lemma entry_video_with_url (info entry : dict) :
  truthy (entry_url entry) = true ->
  entry_video info entry
  = Some {| video_url := entry_url entry;
            video_title := get entry "title" (VStr "Unknown Title");
            video_duration := get entry "duration" (VInt 0);
            video_id := get entry "id" VNone |}.
Proof.
  unfold entry_url, entry_video. intros Hurl. cbv zeta. rewrite Hurl. cbn [negb andb].
  now rewrite Hurl.
Qed.

Lemma entry_video_youtube (info entry : dict) (extractor id : string) :
  get info "extractor" (VStr "") = VStr extractor ->
  contains "youtube" (lower extractor) = true ->
  truthy (entry_url entry) = false ->
  get entry "id" VNone = VStr id -> id <> ""%string ->
  entry_video info entry
  = Some {| video_url := VStr ("https://www.youtube.com/watch?v=" ++ id);
            video_title := get entry "title" (VStr "Unknown Title");
            video_duration := get entry "duration" (VInt 0);
            video_id := VStr id |}.
Proof.
  unfold entry_url, entry_video. intros Hex Hyt Hurl Hid Hid0. cbv zeta.
  rewrite Hurl, Hid, Hex, Hyt. cbn [truthy negb andb py_str].
  destruct (String.eqb_spec id ""); [ contradiction | reflexivity ].
Qed.

(** An answer of 200 comes from a list of entries. *)
Lemma extract_playlist_success_inv (url_arg : option string)
      (extract_info : string -> extraction) (result : playlist_result) :
  extract_playlist url_arg extract_info = playlist_success result ->
  exists url fields entries,
    url_arg = Some url /\ url <> ""%string
    /\ extract_info url
       = Extracted (Some {| info_fields := fields; info_entries := Some (Some entries) |})
    /\ result = {| playlist_title := get fields "title" (VStr "Unknown Playlist");
                   playlist_url := url;
                   video_count := Z.of_nat (List.length (playlist_videos fields entries));
                   videos := playlist_videos fields entries;
                   platform := get fields "extractor" (VStr "unknown") |}.
Proof.
  unfold extract_playlist.
  destruct url_arg as [ [ | c url ] | ]; try discriminate.
  destruct (extract_info (String c url)) as [ [ | | ] message | info ] eqn:Hinfo;
    try discriminate.
  destruct info as [ [fields [ [ entries | ] | ]] | ];
    try discriminate; try (destruct fields; discriminate).
  assert (Hno : no_info (Some {| info_fields := fields;
                                 info_entries := Some (Some entries) |}) = false)
    by (now destruct fields).
  rewrite Hno. intros Heq. injection Heq as <-.
  exists (String c url), fields, entries.
  split; [ reflexivity | ]. split; [ discriminate | ]. split; [ assumption | reflexivity ].
Qed.

Lemma extract_playlist_success (url : string) (extract_info : string -> extraction)
      (fields : dict) (entries : list (option dict)) :
  url <> ""%string ->
  extract_info url
  = Extracted (Some {| info_fields := fields; info_entries := Some (Some entries) |}) ->
  extract_playlist (Some url) extract_info
  = playlist_success
      {| playlist_title := get fields "title" (VStr "Unknown Playlist");
         playlist_url := url;
         video_count := Z.of_nat (List.length (playlist_videos fields entries));
         videos := playlist_videos fields entries;
         platform := get fields "extractor" (VStr "unknown") |}.
Proof.
  intros Hurl Hinfo. unfold extract_playlist.
  destruct url as [ | c url ]; [ contradiction | ]. rewrite Hinfo.
  now destruct fields.
Qed.

(** X22: in an answer of 200, ['video_count'] is the number of
    ['videos'], every video has a ['url'] that is true (not [None], not
    empty, not 0), and there are at most as many videos as the list under
    ['entries'] has entries. *)
Theorem playlist_videos_have_urls (url : option string)
        (extract_info : string -> extraction) (result : playlist_result) :
  extract_playlist url extract_info = playlist_success result ->
  video_count result = Z.of_nat (List.length (videos result))
  /\ Forall (fun v => truthy (video_url v) = true) (videos result)
  /\ exists fields entries,
      extract_info (playlist_url result)
      = Extracted (Some {| info_fields := fields; info_entries := Some (Some entries) |})
      /\ (List.length (videos result) <= List.length entries)%nat.
Proof.
  intros Hok. apply extract_playlist_success_inv in Hok.
  destruct Hok as (u & fields & entries & _ & _ & Hinfo & ->).
  cbn [video_count videos playlist_url]. split; [ reflexivity | ].
  rewrite playlist_videos_flat_map. split.
  - apply Forall_flat_map, Forall_forall. intros [ entry | ] _; cbn [entry_videos];
      [ | constructor ].
    destruct (entry_video fields entry) as [ v | ] eqn:Hv; constructor; [ | constructor ].
    exact (entry_video_url _ _ _ Hv).
  - exists fields, entries. split; [ assumption | ].
    clear. induction entries as [ | entry entries IH ]; [ constructor | ].
    cbn [flat_map]. rewrite length_app. cbn [List.length].
    assert (Hone : (List.length (entry_videos fields entry) <= 1)%nat).
    { destruct entry as [ entry | ]; cbn [entry_videos]; [ | auto ].
      destruct (entry_video fields entry); cbn; auto. }
    lia.
Qed.

Lemma playlist_videos_have_urls_witness :
  video_count
    {| playlist_title := VStr "Unknown Playlist"; playlist_url := "u"; video_count := 1;
       videos := [{| video_url := VStr "https://youtu.be/a1";
                     video_title := VStr "Unknown Title";
                     video_duration := VInt 0; video_id := VNone |}];
       platform := VStr "unknown" |}
  = Z.of_nat 1.
Proof.
  refine (proj1 (playlist_videos_have_urls
                   (Some "u"%string)
                   (fun _ => Extracted
                               (Some {| info_fields := [];
                                        info_entries :=
                                          Some (Some [Some [("url", VStr "https://youtu.be/a1")]%string;
                                                      None]) |}))
                   _ _)).
  vm_compute. reflexivity.
Defined.

Lemma In_entry_videos (fields : dict) (entries : list (option dict)) (entry : dict)
      (v : video_info) :
  In (Some entry) entries -> entry_video fields entry = Some v ->
  In v (playlist_videos fields entries).
Proof.
  intros Hin Hv. rewrite playlist_videos_flat_map. apply in_flat_map.
  exists (Some entry). split; [ assumption | ]. cbn [entry_videos]. rewrite Hv. now left.
Qed.

(** X23: an entry whose ['url'], or else ['webpage_url'], is true is
    never dropped: the answer is 200 and holds the entry's video, with
    that URL, the entry's ['id'] (or [None]), its ['title'] (or
    ['Unknown Title']) and its ['duration'] (or 0). *)
Theorem playlist_keeps_entries_with_url (url : string) (extract_info : string -> extraction)
        (fields : dict) (entries : list (option dict)) (entry : dict) :
  url <> ""%string ->
  extract_info url
  = Extracted (Some {| info_fields := fields; info_entries := Some (Some entries) |}) ->
  In (Some entry) entries ->
  truthy (entry_url entry) = true ->
  exists result,
    extract_playlist (Some url) extract_info = playlist_success result
    /\ In {| video_url := entry_url entry;
             video_title := get entry "title" (VStr "Unknown Title");
             video_duration := get entry "duration" (VInt 0);
             video_id := get entry "id" VNone |}
          (videos result).
Proof.
  intros Hurl Hinfo Hin Hentry. eexists. split.
  - apply extract_playlist_success; eassumption.
  - cbn [videos]. apply (In_entry_videos fields entries entry); [ assumption | ].
    now apply entry_video_with_url.
Qed.

Lemma playlist_keeps_entries_with_url_witness :
  exists result,
    extract_playlist
      (Some "u"%string)
      (fun _ => Extracted
                  (Some {| info_fields := [];
                           info_entries :=
                             Some (Some [None;
                                         Some [("webpage_url", VStr "https://vimeo.com/1");
                                               ("duration", VInt 12)]%string]) |}))
    = playlist_success result
    /\ In {| video_url := VStr "https://vimeo.com/1";
             video_title := VStr "Unknown Title";
             video_duration := VInt 12;
             video_id := VNone |}
          (videos result).
Proof.
  refine (playlist_keeps_entries_with_url
            "u" _ [] _ [("webpage_url", VStr "https://vimeo.com/1"); ("duration", VInt 12)]%string
            _ _ _ _).
  - discriminate.
  - reflexivity.
  - right. left. reflexivity.
  - reflexivity.
Defined.

(** X24: when the playlist's ['extractor'] is a string that holds
    [youtube] in any case, an entry without a true ['url'] or
    ['webpage_url'] and with a string [id] that is not empty is
    answered with the URL [https://www.youtube.com/watch?v=] followed by
    the id. *)
Theorem playlist_youtube_url_from_id (url : string) (extract_info : string -> extraction)
        (fields : dict) (entries : list (option dict)) (entry : dict)
        (extractor id : string) :
  url <> ""%string ->
  extract_info url
  = Extracted (Some {| info_fields := fields; info_entries := Some (Some entries) |}) ->
  get fields "extractor" (VStr "") = VStr extractor ->
  contains "youtube" (lower extractor) = true ->
  In (Some entry) entries ->
  truthy (entry_url entry) = false ->
  get entry "id" VNone = VStr id -> id <> ""%string ->
  exists result,
    extract_playlist (Some url) extract_info = playlist_success result
    /\ In {| video_url := VStr ("https://www.youtube.com/watch?v=" ++ id);
             video_title := get entry "title" (VStr "Unknown Title");
             video_duration := get entry "duration" (VInt 0);
             video_id := VStr id |}
          (videos result).
Proof.
  intros Hurl Hinfo Hex Hyt Hin Hentry Hid Hid0. eexists. split.
  - apply extract_playlist_success; eassumption.
  - cbn [videos]. apply (In_entry_videos fields entries entry); [ assumption | ].
    now apply (entry_video_youtube fields entry extractor id).
Qed.

Lemma playlist_youtube_url_from_id_witness :
  exists result,
    extract_playlist
      (Some "u"%string)
      (fun _ => Extracted
                  (Some {| info_fields := [("extractor", VStr "Youtube:Tab")]%string;
                           info_entries :=
                             Some (Some [Some [("id", VStr "b2"); ("url", VStr "")]%string]) |}))
    = playlist_success result
    /\ In {| video_url := VStr ("https://www.youtube.com/watch?v=" ++ "b2");
             video_title := VStr "Unknown Title";
             video_duration := VInt 0;
             video_id := VStr "b2" |}
          (videos result).
Proof.
  refine (playlist_youtube_url_from_id
            "u" _ [("extractor", VStr "Youtube:Tab")]%string _
            [("id", VStr "b2"); ("url", VStr "")]%string "Youtube:Tab" "b2"
            _ _ _ _ _ _ _ _).
  - discriminate.
  - reflexivity.
  - reflexivity.
  - reflexivity.
  - left. reflexivity.
  - reflexivity.
  - reflexivity.
  - discriminate.
Defined.

(** X25: the route answers 200 exactly when the URL parameter is not
    empty and [extract_info] returns an [info] with a list under
    ['entries']: nothing that an entry holds turns the answer into an
    error. *)
Theorem playlist_success_iff (url : option string) (extract_info : string -> extraction) :
  (exists result, extract_playlist url extract_info = playlist_success result)
  <-> exists u fields entries,
      url = Some u /\ u <> ""%string
      /\ extract_info u
         = Extracted (Some {| info_fields := fields; info_entries := Some (Some entries) |}).
Proof.
  split.
  - intros [result Hok]. apply extract_playlist_success_inv in Hok.
    destruct Hok as (u & fields & entries & -> & Hu & Hinfo & _).
    now exists u, fields, entries.
  - intros (u & fields & entries & -> & Hu & Hinfo).
    eexists. apply extract_playlist_success; eassumption.
Qed.
